(** * PPV calculator: the Bayes Evaluator, the Population Projector, the
    display formatter and the Parameter Store of [src/App.tsx].

    JavaScript numbers are IEEE-754 binary64 values.  They are modelled by
    [spec_float] at precision 53 and maximal exponent 1024, with the
    arithmetic of the Standard Library's [SpecFloat] (round to nearest,
    ties to even), so that every definition below can be evaluated on the
    very doubles the browser would compute with.

    The source is written once, over an interface [Arith] of the
    operations it uses, and read in three arithmetics: binary64, which is
    what the program computes; binary64 with a record of the divisions
    evaluated, which shows what the program does on the way; and exact
    rationals, which is what its formulas mean.

    The file has three parts: the embedding of the source; a small theory
    of binary64 rounding (a rounded result has no double strictly between
    it and the exact value), from which bounds and exactness of the
    program's operations follow; and the properties of the program. *)

From Stdlib Require Import ZArith QArith Qpower Qround Qabs Bool List.
From Stdlib Require Import String Ascii Lia Lqa.
From Stdlib Require Import SpecFloat.
Import ListNotations.

Local Open Scope Z_scope.

(** ** The arithmetic the source relies on *)

(** The operations of the host language that [App.tsx] uses on numbers:
    integer literals, [NaN], [+ - * /], [===] and [Math.round]. *)
Class Arith (T : Type) : Type := {
  lit : Z -> T;
  nan : T;
  add : T -> T -> T;
  sub : T -> T -> T;
  mul : T -> T -> T;
  div : T -> T -> T;
  strict_eq : T -> T -> bool;
  Math_round : T -> T
}.

(** ** binary64 *)

Module Binary64.

Definition prec : Z := 53.
Definition emax : Z := 1024.

Definition number : Type := spec_float.

(** The double nearest to an integer (exact up to 2^53). *)
Definition of_Z (z : Z) : number := binary_normalize prec emax z 0 false.

Definition valid (x : number) : bool := valid_binary prec emax x.

Definition is_nan (x : number) : bool :=
  match x with S754_nan => true | _ => false end.

(** [Number.isFinite] *)
Definition Number_isFinite (x : number) : bool :=
  match x with
  | S754_zero _ | S754_finite _ _ _ => true
  | S754_infinity _ | S754_nan => false
  end.

(** [Math.round]: the integral double closest to [x], ties towards
    +infinity; a result of zero keeps the sign of [x].  A finite double
    with a non-negative exponent is already integral; otherwise
    [x = ±m·2^-k] and the result is [floor (x + 1/2)]. *)
Definition round (x : number) : number :=
  match x with
  | S754_finite s m e =>
      if 0 <=? e then x
      else
        let k := - e in
        let n := (2 * cond_Zopp s (Zpos m) + 2 ^ k) / 2 ^ (k + 1) in
        if n =? 0 then S754_zero s else of_Z n
  | _ => x
  end.

(** The exact rational value of a finite double (0 for the others). *)
Definition B2Q (x : number) : Q :=
  match x with
  | S754_finite s m e => inject_Z (cond_Zopp s (Zpos m)) * (2 ^ e)%Q
  | _ => 0%Q
  end.

(** [Number.isInteger(x) && x >= 0] *)
Definition is_nonneg_integer (x : number) : bool :=
  match x with
  | S754_zero _ => true
  | S754_finite false m e => (0 <=? e) || (Zpos m mod 2 ^ (- e) =? 0)
  | _ => false
  end.

(** [0 <= x && x <= 1] *)
Definition in_unit_interval (x : number) : bool :=
  SFleb (S754_zero false) x && SFleb x (of_Z 1).

(** A well-formed double in [0, 1]. *)
Definition probability (x : number) : bool := valid x && in_unit_interval x.

(** A well-formed double that is a non-negative integer. *)
Definition count (x : number) : bool := valid x && is_nonneg_integer x.

#[export] Instance binary64_arith : Arith number := {|
  lit := of_Z;
  nan := S754_nan;
  add := SFadd prec emax;
  sub := SFsub prec emax;
  mul := SFmul prec emax;
  div := SFdiv prec emax;
  strict_eq := SFeqb;
  Math_round := round
|}.

End Binary64.

(** ** Exact arithmetic

    The same operations without rounding: rationals extended with one
    "not a number" element, which is also the result of dividing by zero. *)

Module Exact.

Definition number : Type := option Q.

Definition lift2 (f : Q -> Q -> Q) (a b : number) : number :=
  match a, b with
  | Some x, Some y => Some (f x y)
  | _, _ => None
  end.

Definition exact_div (a b : number) : number :=
  match a, b with
  | Some x, Some y => if Qeq_bool y 0 then None else Some (x / y)%Q
  | _, _ => None
  end.

Definition exact_eq (a b : number) : bool :=
  match a, b with
  | Some x, Some y => Qeq_bool x y
  | _, _ => false
  end.

Definition exact_round (a : number) : number :=
  match a with
  | Some x => Some (inject_Z (Qfloor (x + (1 # 2))%Q))
  | None => None
  end.

#[export] Instance exact_arith : Arith number := {|
  lit := fun z => Some (inject_Z z);
  nan := None;
  add := lift2 Qplus;
  sub := lift2 Qminus;
  mul := lift2 Qmult;
  div := exact_div;
  strict_eq := exact_eq;
  Math_round := exact_round
|}.

End Exact.

(** ** binary64 with a record of the divisions

    The arithmetic of the doubles again, where every number carries the
    divisions that were evaluated to obtain it, as (dividend, divisor) in
    the order of evaluation.  Running the source in this arithmetic shows
    which divisions a call performs: the record of its result. *)

Module Traced.

Import Binary64.

Definition number : Type :=
  (Binary64.number * list (Binary64.number * Binary64.number))%type.

Definition value (x : number) : Binary64.number := fst x.
Definition divisions (x : number) : list (Binary64.number * Binary64.number) :=
  snd x.

(** A number that was not computed: an argument or a literal. *)
Definition input (x : Binary64.number) : number := (x, []).

Definition traced_op (f : Binary64.number -> Binary64.number -> Binary64.number)
    (a b : number) : number :=
  (f (value a) (value b), divisions a ++ divisions b).

(** The one operation that leaves a trace. *)
Definition traced_div (a b : number) : number :=
  (SFdiv prec emax (value a) (value b),
   divisions a ++ divisions b ++ [(value a, value b)]).

Definition traced_eq (a b : number) : bool := SFeqb (value a) (value b).

Definition traced_round (a : number) : number := (round (value a), divisions a).

#[export] Instance traced_arith : Arith number := {|
  lit := fun z => input (of_Z z);
  nan := input S754_nan;
  add := traced_op (SFadd prec emax);
  sub := traced_op (SFsub prec emax);
  mul := traced_op (SFmul prec emax);
  div := traced_div;
  strict_eq := traced_eq;
  Math_round := traced_round
|}.

End Traced.

(** ** The source, [src/App.tsx] *)

Section App.

Context {T : Type} `{Arith T}.

(** Lines 15-21, the [useMemo] body of [App]. *)
Definition ppv (sensitivity specificity prevalence : T) : T :=
  let tp := mul sensitivity prevalence in
  let fp := mul (sub (lit 1) specificity) (sub (lit 1) prevalence) in
  let denom := add tp fp in
  if strict_eq denom (lit 0) then nan (* undefined case *)
  else div tp denom.

(** The denominator of line 18 on its own. *)
Definition ppv_denom (sensitivity specificity prevalence : T) : T :=
  add (mul sensitivity prevalence)
      (mul (sub (lit 1) specificity) (sub (lit 1) prevalence)).

(** Lines 144-150, the cells [ConfusionOutline] hands to its four
    [Block]s. *)
Record cells : Type := Cells { TP : T; FP : T; TN : T; FN : T }.

(** Line 144 on its own. *)
Definition diseased_of (prevalence population : T) : T :=
  Math_round (mul population prevalence).

Definition ConfusionOutline
    (sensitivity specificity prevalence population : T) : cells :=
  let diseased := Math_round (mul population prevalence) in
  let healthy := sub population diseased in
  let TP := Math_round (mul diseased sensitivity) in
  let FN := sub diseased TP in
  let TN := Math_round (mul healthy specificity) in
  let FP := sub healthy TN in
  Cells TP FP TN FN.

(** Lines 7-9 and 34-48: the three [useState] cells and their setters,
    which the [Control]s call with [Number(e.target.value)]. *)
Record params : Type := Params {
  sensitivityPct : T;
  specificityPct : T;
  prevalencePct : T
}.

Definition initial : params := Params (lit 90) (lit 95) (lit 5).

Definition setSensitivityPct (v : T) (st : params) : params :=
  Params v (specificityPct st) (prevalencePct st).
Definition setSpecificityPct (v : T) (st : params) : params :=
  Params (sensitivityPct st) v (prevalencePct st).
Definition setPrevalencePct (v : T) (st : params) : params :=
  Params (sensitivityPct st) (specificityPct st) v.

(** Lines 34-48: the three [Control]s; each shows one percentage (its
    [value]) and hands the number typed or slid, [Number(e.target.value)],
    to that percentage's setter (its [onChange]). *)
Inductive control : Type :=
  SensitivityControl | SpecificityControl | PrevalenceControl.

Definition control_eqb (k k' : control) : bool :=
  match k, k' with
  | SensitivityControl, SensitivityControl
  | SpecificityControl, SpecificityControl
  | PrevalenceControl, PrevalenceControl => true
  | _, _ => false
  end.

Definition Control_value (k : control) (st : params) : T :=
  match k with
  | SensitivityControl => sensitivityPct st
  | SpecificityControl => specificityPct st
  | PrevalenceControl => prevalencePct st
  end.

Definition Control_onChange (k : control) (v : T) (st : params) : params :=
  match k with
  | SensitivityControl => setSensitivityPct v st
  | SpecificityControl => setSpecificityPct v st
  | PrevalenceControl => setPrevalencePct v st
  end.

(** Lines 11-13. *)
Definition sensitivity (st : params) : T := div (sensitivityPct st) (lit 100).
Definition specificity (st : params) : T := div (specificityPct st) (lit 100).
Definition prevalence (st : params) : T := div (prevalencePct st) (lit 100).

Definition App_ppv (st : params) : T :=
  ppv (sensitivity st) (specificity st) (prevalence st).

Definition App_cells (st : params) : cells :=
  ConfusionOutline (sensitivity st) (specificity st) (prevalence st)
                   (lit 10000).

End App.

Arguments cells : clear implicits.
Arguments params : clear implicits.

(** The exact sum of the four cells. *)
Definition cells_total (cs : cells Binary64.number) : Q :=
  (Binary64.B2Q (TP cs) + Binary64.B2Q (FN cs)
   + Binary64.B2Q (TN cs) + Binary64.B2Q (FP cs))%Q.

(** ** Presentation: [Number.prototype.toFixed] and [fmtPct] *)

Module Display.

Import Binary64.
Local Open Scope string_scope.
Local Open Scope Z_scope.

Definition digit (d : Z) : ascii := ascii_of_nat (48 + Z.to_nat d).

Fixpoint decimal_aux (fuel : nat) (n : Z) (acc : string) : string :=
  match fuel with
  | O => acc
  | S fuel' =>
      let acc' := String (digit (n mod 10)) acc in
      if n <? 10 then acc' else decimal_aux fuel' (n / 10) acc'
  end.

(** The decimal digits of a non-negative integer, without leading zeros. *)
Definition decimal (n : Z) : string :=
  decimal_aux (S (Z.to_nat (Z.log2 n))) n "".

(** The last [f] decimal digits of [r], zero-padded. *)
Fixpoint frac_digits (f : nat) (r : Z) : string :=
  match f with
  | O => ""
  | S f' => frac_digits f' (r / 10) ++ String (digit (r mod 10)) ""
  end.

(** [10^21 <= m·2^e] *)
Definition ge_1e21 (m : positive) (e : Z) : bool :=
  if 0 <=? e then 10 ^ 21 <=? Zpos m * 2 ^ e
  else 10 ^ 21 * 2 ^ (- e) <=? Zpos m.

(** [Math.abs(y) < 1e21], for a finite [y]. *)
Definition abs_lt_1e21 (y : number) : bool :=
  match y with
  | S754_zero _ => true
  | S754_finite _ m e => negb (ge_1e21 m e)
  | _ => false
  end.

(** The integer [n] for which [n / 10^f - m·2^e] is closest to zero, the
    larger one of two. *)
Definition fixed_n (f : nat) (m : positive) (e : Z) : Z :=
  let p := 10 ^ Z.of_nat f in
  if 0 <=? e then p * Zpos m * 2 ^ e
  else (2 * p * Zpos m + 2 ^ (- e)) / 2 ^ (- e + 1).

Definition fixed_text (f : nat) (n : Z) : string :=
  let p := 10 ^ Z.of_nat f in
  match f with
  | O => decimal n
  | S _ => decimal (n / p) ++ "." ++ frac_digits f (n mod p)
  end.

(** [Number::toString] of an integral double [v = m·2^e >= 10^21]: the
    shortest decimal [s·10^(n-k)] that reads back as the same double,
    the closest one of several, in exponent notation. *)
Definition reads_back (y : number) (k n s : Z) : bool :=
  (10 ^ (k - 1) <=? s) && (s <? 10 ^ k)
  && SFeqb (of_Z (s * 10 ^ (n - k))) y.

Definition shortest_at (y : number) (v k : Z) : list (Z * Z) :=
  let nd := Z.of_nat (String.length (decimal v)) in
  flat_map
    (fun n =>
       let q := v / 10 ^ (n - k) in
       map (fun s => (s, n))
           (filter (reads_back y k n) [q; q + 1]))
    [nd; nd + 1].

Definition closest (v k : Z) (c : list (Z * Z)) : option (Z * Z) :=
  fold_right
    (fun sn best =>
       match best with
       | None => Some sn
       | Some (s', n') =>
           let d := Z.abs (fst sn * 10 ^ (snd sn - k) - v) in
           let d' := Z.abs (s' * 10 ^ (n' - k) - v) in
           if d <? d' then Some sn else best
       end)
    None c.

Fixpoint shortest (fuel : nat) (y : number) (v k : Z) : option (Z * Z) :=
  match fuel with
  | O => None
  | S fuel' =>
      match closest v k (shortest_at y v k) with
      | Some sn => Some sn
      | None => shortest fuel' y v (k + 1)
      end
  end.

Definition toString_large (m : positive) (e : Z) : string :=
  let y := S754_finite false m e in
  let v := Zpos m * 2 ^ e in
  match shortest 17 y v 1 with
  | Some (s, n) =>
      match decimal s with
      | String d "" => String d ("e+" ++ decimal (n - 1))
      | String d ds => String d ("." ++ ds ++ "e+" ++ decimal (n - 1))
      | "" => ""
      end
  | None => ""
  end.

(** [y.toFixed(f)] *)
Definition Number_toFixed (f : nat) (y : number) : string :=
  match y with
  | S754_nan => "NaN"
  | S754_infinity false => "Infinity"
  | S754_infinity true => "-Infinity"
  | S754_zero _ => fixed_text f 0
  | S754_finite s m e =>
      (if s then "-" else "")
      ++ (if ge_1e21 m e then toString_large m e
          else fixed_text f (fixed_n f m e))
  end.

(** Line 23. *)
Definition fmtPct (x : number) : string :=
  if Number_isFinite x then Number_toFixed 2 (mul x (lit 100)) ++ "%"
  else "n/a".

(** An optional minus sign, digits, a point, two digits and ["%"]. *)
Definition is_digit (c : ascii) : bool :=
  ((48 <=? nat_of_ascii c) && (nat_of_ascii c <=? 57))%nat.

Definition two_decimals_pct (str : string) : bool :=
  match rev (list_ascii_of_string str) with
  | pc :: d2 :: d1 :: pt :: body =>
      Ascii.eqb pc "%" && is_digit d2 && is_digit d1 && Ascii.eqb pt "."
      && match rev body with
         | [] => false
         | c :: cs =>
             if Ascii.eqb c "-"
             then negb (Nat.eqb (List.length cs) 0) && forallb is_digit cs
             else forallb is_digit (c :: cs)
         end
  | _ => false
  end.

(** The prevalence the application derives when the slider, whose step is
    0.1, stands at [k] tenths of a percent. *)
Definition slider_prevalence (k : Z) : number :=
  div (div (lit k) (lit 10)) (lit 100).

(** The numeral of [n / 100] with two decimals, signed, and ["%"]. *)
Definition render2 (negative : bool) (n : Z) : string :=
  (if negative then "-" else "")
  ++ decimal (n / 100) ++ "."
  ++ String (digit (n / 10 mod 10)) (String (digit (n mod 10)) "%").

Definition is_negative (y : number) : bool :=
  match y with
  | S754_finite true _ _ => true
  | _ => false
  end.

End Display.

(** ** Vocabulary for reasoning about binary64 rounding *)

Module Rounding.

Import Binary64.

Definition pow2 (e : Z) : Q := (2 ^ e)%Q.

(** The rational [m·2^e]. *)
Definition F (m e : Z) : Q := (inject_Z m * pow2 e)%Q.

(** The shift record [mrs] at exponent [e] locates the real [X]: [X] lies
    in the unit interval that starts at the mantissa, and a round or
    sticky bit is set only when [X] is strictly inside it. *)
Definition Loc (X : Q) (mrs : shr_record) (e : Z) : Prop :=
  0 <= shr_m mrs /\
  (F (shr_m mrs) e <= X)%Q /\ (X < F (shr_m mrs + 1) e)%Q /\
  (shr_r mrs || shr_s mrs = true -> (F (shr_m mrs) e < X)%Q).

(** The magnitude of a finite double. *)
Definition mag (x : number) : Q :=
  match x with
  | S754_finite _ m e => F (Zpos m) e
  | _ => 0%Q
  end.

(** [r] is a double of sign [sx] next to the real [X >= 0]: no double lies
    strictly between them. *)
Definition Rounds (sx : bool) (X : Q) (r : number) : Prop :=
  (r = S754_zero sx \/
   exists m' e', r = S754_finite sx m' e' /\ bounded prec emax m' e' = true) /\
  (forall bm be, bounded prec emax bm be = true ->
     (X <= F (Zpos bm) be)%Q -> (mag r <= F (Zpos bm) be)%Q) /\
  (forall bm be, bounded prec emax bm be = true ->
     (F (Zpos bm) be <= X)%Q -> (F (Zpos bm) be <= mag r)%Q) /\
  ((X <= 0)%Q -> r = S754_zero sx).

(** A zero of either sign or a positive finite double in canonical form. *)
Definition nonneg_fin (x : number) : Prop :=
  match x with
  | S754_zero _ => True
  | S754_finite false m e => bounded prec emax m e = true
  | _ => False
  end.

(** The same, for non-negative doubles and in terms of their values. *)
Definition Faithful (X : Q) (r : number) : Prop :=
  nonneg_fin r /\
  (forall u, nonneg_fin u -> (X <= B2Q u)%Q -> (B2Q r <= B2Q u)%Q) /\
  (forall l, nonneg_fin l -> (B2Q l <= X)%Q -> (B2Q l <= B2Q r)%Q).

(** The doubles 1, 2, 100 and 2^53. *)
Definition one : number := S754_finite false 4503599627370496 (-52).
Definition two : number := S754_finite false 4503599627370496 (-51).
Definition hundred : number := S754_finite false 7036874417766400 (-46).
Definition two53 : number := S754_finite false 4503599627370496 1.

(** The double [x] holds the integer [n]. *)
Definition holds (x : number) (n : Z) : Prop :=
  nonneg_fin x /\ 0 <= n /\ (B2Q x == inject_Z n)%Q.

End Rounding.

(** ** The rest of the screen *)

Section Events.

Context {T : Type} `{Arith T}.

(** What the user does: a number entered in, or slid on, one of the three
    controls.  Each such event calls that control's [onChange], and the
    screen is rendered again from the new parameters. *)
Definition dispatch (st : params T) (ev : control * T) : params T :=
  Control_onChange (fst ev) (snd ev) st.

Definition run (evs : list (control * T)) (st : params T) : params T :=
  fold_left dispatch evs st.

(** The number last entered in control [k], if any. *)
Fixpoint last_entry (k : control) (evs : list (control * T)) : option T :=
  match evs with
  | [] => None
  | (k', v) :: evs' =>
      match last_entry k evs' with
      | Some w => Some w
      | None => if control_eqb k' k then Some v else None
      end
  end.

End Events.

Module Screen.

Import Binary64 Display.
Local Open Scope string_scope.
Local Open Scope Z_scope.

(** Lines 66-68 and 119: the percentage labels, [`${v.toFixed(1)}%`]. *)
Definition pctLabel (v : number) : string := Number_toFixed 1 v ++ "%".

(** The numeral of [n / 10] with one decimal, signed, and ["%"]. *)
Definition render1 (negative : bool) (n : Z) : string :=
  (if negative then "-" else "")
  ++ decimal (n / 10) ++ "." ++ String (digit (n mod 10)) "%".

(** An optional minus sign, digits, a point, one digit and ["%"]. *)
Definition one_decimal_pct (str : string) : bool :=
  match rev (list_ascii_of_string str) with
  | pc :: d1 :: pt :: body =>
      Ascii.eqb pc "%" && is_digit d1 && Ascii.eqb pt "."
      && match rev body with
         | [] => false
         | c :: cs =>
             if Ascii.eqb c "-"
             then negb (Nat.eqb (List.length cs) 0) && forallb is_digit cs
             else forallb is_digit (c :: cs)
         end
  | _ => false
  end.

(** [0 <= v && v <= 100], on a well-formed double. *)
Definition percentage (v : number) : bool :=
  valid v && SFleb (S754_zero false) v && SFleb v (of_Z 100).

Definition percentages (st : params number) : bool :=
  percentage (sensitivityPct st) && percentage (specificityPct st)
  && percentage (prevalencePct st).

(** The percentages the controls are made for (lines 103-105 and
    112-114, [min=0 max=100 step=0.1]): 0, 100, or a double between the
    first and the last inner position, 0.1 and 99.9. *)
Definition on_scale (v : number) : bool :=
  valid v
  && (SFeqb v (of_Z 0)
      || (SFleb (SFdiv prec emax (of_Z 1) (of_Z 10)) v
          && SFleb v (SFdiv prec emax (of_Z 999) (of_Z 10)))
      || SFeqb v (of_Z 100)).

Definition all_on_scale (st : params number) : bool :=
  on_scale (sensitivityPct st) && on_scale (specificityPct st)
  && on_scale (prevalencePct st).

(** The text and the numbers that [App] puts on the screen: the readout of
    line 57, the three labels of lines 66-68, and the four counts that
    [ConfusionOutline] hands to its [Block]s (lines 154-157). *)
Record view : Type := View {
  readout : string;
  sensitivityLabel : string;
  specificityLabel : string;
  prevalenceLabel : string;
  counts : cells number
}.

Definition App_view (st : params number) : view :=
  View (fmtPct (App_ppv st))
       (pctLabel (sensitivityPct st))
       (pctLabel (specificityPct st))
       (pctLabel (prevalencePct st))
       (App_cells st).

End Screen.

(** * Facts about binary64 arithmetic *)

Import Binary64 Rounding.

(** Powers of two are positive. *)
Ltac pos_pow2 k := assert (0 < 2 ^ k) by (apply Z.pow_pos_nonneg; lia).

(** ** Powers of two and dyadic rationals *)

Lemma pow2_pos e : (0 < pow2 e)%Q.
Proof. apply Qpower_0_lt. reflexivity. Qed.

Lemma pow2_add a b : (pow2 (a + b) == pow2 a * pow2 b)%Q.
Proof. apply Qpower_plus. discriminate. Qed.

Lemma pow2_Z n : 0 <= n -> (pow2 n == inject_Z (2 ^ n))%Q.
Proof. intros Hn. unfold pow2. now rewrite Zpower_Qpower. Qed.

Lemma pow2_le a b : a <= b -> (pow2 a <= pow2 b)%Q.
Proof.
  intros Hab. replace b with (a + (b - a)) by lia.
  rewrite pow2_add, (pow2_Z (b - a)) by lia.
  assert (H1 : (1 <= inject_Z (2 ^ (b - a)))%Q).
  { pos_pow2 (b - a).
    unfold Qle; simpl; lia. }
  pose proof (pow2_pos a). nra.
Qed.

Lemma F_shift m e n : 0 <= n -> (F (m * 2 ^ n) e == F m (e + n))%Q.
Proof.
  intros Hn. unfold F. rewrite pow2_add, (pow2_Z n), inject_Z_mult by lia. ring.
Qed.

Lemma F_le a b e : (F a e <= F b e)%Q <-> a <= b.
Proof.
  unfold F. pose proof (pow2_pos e). rewrite Zle_Qle. split; intros; nra.
Qed.

Lemma F_lt a b e : (F a e < F b e)%Q <-> a < b.
Proof.
  unfold F. pose proof (pow2_pos e). rewrite Zlt_Qlt. split; intros; nra.
Qed.

Lemma F_eq a b e : (F a e == F b e)%Q <-> a = b.
Proof.
  split.
  - intros Heq. apply Z.le_antisymm; apply (F_le _ _ e); rewrite Heq; apply Qle_refl.
  - intros ->. reflexivity.
Qed.

Lemma F_nonneg m e : 0 <= m -> (0 <= F m e)%Q.
Proof.
  intros Hm. unfold F. pose proof (pow2_pos e).
  assert (0 <= inject_Z m)%Q by (unfold Qle; simpl; lia). nra.
Qed.

(** ** The binary64 format *)

Lemma fexp_eq e : fexp prec emax e = Z.max (e - 53) (-1074).
Proof. reflexivity. Qed.

Lemma digits2_pos_bounds p :
  2 ^ (Zpos (digits2_pos p) - 1) <= Zpos p < 2 ^ Zpos (digits2_pos p).
Proof.
  induction p as [p IH | p IH |]; cbn [digits2_pos].
  - rewrite Pos2Z.inj_succ.
    replace (Z.succ (Zpos (digits2_pos p)) - 1) with (Z.succ (Zpos (digits2_pos p) - 1)) by lia.
    rewrite !Z.pow_succ_r by lia. lia.
  - rewrite Pos2Z.inj_succ.
    replace (Z.succ (Zpos (digits2_pos p)) - 1) with (Z.succ (Zpos (digits2_pos p) - 1)) by lia.
    rewrite !Z.pow_succ_r by lia. lia.
  - cbn. lia.
Qed.

Lemma Zdigits2_log2 m : 0 < m -> Zdigits2 m = Z.log2 m + 1.
Proof.
  intros Hm. destruct m as [| p | p]; try lia.
  cbn [Zdigits2]. pose proof (digits2_pos_bounds p) as [Hlo Hhi].
  symmetry. apply Z.add_move_r. apply Z.log2_unique; [lia |].
  replace (Z.succ (Zpos (digits2_pos p) - 1)) with (Zpos (digits2_pos p)) by lia. lia.
Qed.

Lemma Zdigits2_bounds m : 0 < m -> 2 ^ (Zdigits2 m - 1) <= m < 2 ^ Zdigits2 m.
Proof.
  intros Hm. destruct m as [| p | p]; try lia. apply digits2_pos_bounds.
Qed.

Lemma Zdigits2_unique m d : 2 ^ (d - 1) <= m < 2 ^ d -> 0 < d -> Zdigits2 m = d.
Proof.
  intros [Hlo Hhi] Hd.
  assert (0 < m). { pos_pow2 (d - 1). lia. }
  rewrite Zdigits2_log2 by assumption.
  rewrite (Z.log2_unique m (d - 1)); [lia | lia |].
  replace (Z.succ (d - 1)) with d by lia. lia.
Qed.

Lemma Zdigits2_pos m : 0 < m -> 0 < Zdigits2 m.
Proof. destruct m; cbn; lia. Qed.

(** What [bounded] says about a mantissa and its exponent. *)
Lemma bounded_spec m e :
  bounded prec emax m e = true <->
  -1074 <= e <= 971 /\ Zpos m < 2 ^ 53 /\ (-1074 < e -> 2 ^ 52 <= Zpos m).
Proof.
  unfold bounded, canonical_mantissa. rewrite fexp_eq.
  rewrite andb_true_iff, Z.eqb_eq, Z.leb_le.
  change (emax - prec) with 971.
  pose proof (digits2_pos_bounds m) as [Hlo Hhi].
  set (d := Zpos (digits2_pos m)) in *.
  assert (Hd : 0 < d) by (unfold d; lia).
  split.
  - intros [Hc He]. split; [lia |]. split.
    + assert (d <= 53) by lia.
      apply Z.lt_le_trans with (1 := Hhi). apply Z.pow_le_mono_r; lia.
    + intros Hne. assert (d = 53) by lia. replace 52 with (d - 1) by lia. exact Hlo.
  - intros (He & Hm & Hn). split; [| lia].
    assert (d <= 53).
    { destruct (Z_le_gt_dec d 53) as [|Hgt]; [assumption | exfalso].
      assert (2 ^ 53 <= 2 ^ (d - 1)) by (apply Z.pow_le_mono_r; lia). lia. }
    destruct (Z.eq_dec e (-1074)) as [-> | Hne]; [lia |].
    assert (2 ^ 52 <= Zpos m) by (apply Hn; lia).
    assert (53 <= d).
    { destruct (Z_le_gt_dec 53 d) as [|Hgt]; [assumption | exfalso].
      assert (2 ^ d <= 2 ^ 52) by (apply Z.pow_le_mono_r; lia). lia. }
    lia.
Qed.

(** ** Shifting a mantissa right *)

Lemma shr_1_spec m r s :
  0 <= m ->
  shr_1 (Build_shr_record m r s) =
  Build_shr_record (Z.div2 m) (Z.odd m) (r || s).
Proof.
  intros Hm. destruct m as [| [p | p |] | p]; try lia; reflexivity.
Qed.

(** One shift keeps the record located on [X], at the next exponent. *)
Lemma shr_1_Loc X mrs e :
  Loc X mrs e ->
  Loc X (shr_1 mrs) (e + 1) /\ shr_m (shr_1 mrs) = shr_m mrs / 2.
Proof.
  destruct mrs as [m r s]. intros (Hm & Hlo & Hhi & Hex). cbn [shr_m shr_r shr_s] in *.
  rewrite shr_1_spec by assumption. cbn [shr_m shr_r shr_s].
  rewrite Z.div2_div. split; [| reflexivity].
  unfold Loc; cbn [shr_m shr_r shr_s].
  pose proof (Z.div2_odd m) as Hdec. rewrite Z.div2_div in Hdec.
  set (h := m / 2) in *.
  assert (Hb : 0 <= Z.b2z (Z.odd m) <= 1) by (destruct (Z.odd m); cbn; lia).
  assert (Hh : 0 <= h) by lia.
  assert (E1 : forall k, (F k (e + 1) == F (k * 2 ^ 1) e)%Q)
    by (intros k; symmetry; apply F_shift; lia).
  split; [exact Hh |]. rewrite !E1. change (2 ^ 1) with 2. split; [| split].
  - apply Qle_trans with (2 := Hlo). apply F_le. lia.
  - apply Qlt_le_trans with (1 := Hhi). apply F_le. lia.
  - intros Hf. destruct (Z.odd m) eqn:Hodd; cbn [Z.b2z orb] in *.
    + apply Qlt_le_trans with (2 := Hlo). apply F_lt. lia.
    + apply Qle_lt_trans with (2 := Hex Hf). apply F_le. lia.
Qed.

Lemma iter_shr_1_Loc p : forall X mrs e,
  Loc X mrs e ->
  Loc X (iter_pos shr_1 p mrs) (e + Zpos p) /\
  shr_m (iter_pos shr_1 p mrs) = shr_m mrs / 2 ^ Zpos p.
Proof.
  induction p as [p IH | p IH |]; intros X mrs e HL; cbn [iter_pos].
  - destruct (shr_1_Loc _ _ _ HL) as [H1 E1].
    destruct (IH _ _ _ H1) as [H2 E2].
    destruct (IH _ _ _ H2) as [H3 E3].
    split.
    + replace (e + Zpos p~1) with (e + 1 + Zpos p + Zpos p) by lia. exact H3.
    + rewrite E3, E2, E1.
      assert (0 < 2 ^ Zpos p) by (apply Z.pow_pos_nonneg; lia).
      rewrite !Z.div_div by lia. f_equal.
      replace (Zpos p~1) with (1 + Zpos p + Zpos p) by lia.
      rewrite !Z.pow_add_r by lia. change (2 ^ 1) with 2. ring.
  - destruct (IH _ _ _ HL) as [H2 E2].
    destruct (IH _ _ _ H2) as [H3 E3].
    split.
    + replace (e + Zpos p~0) with (e + Zpos p + Zpos p) by lia. exact H3.
    + rewrite E3, E2.
      assert (0 < 2 ^ Zpos p) by (apply Z.pow_pos_nonneg; lia).
      rewrite !Z.div_div by lia. f_equal.
      replace (Zpos p~0) with (Zpos p + Zpos p) by lia.
      rewrite !Z.pow_add_r by lia. ring.
  - apply shr_1_Loc. exact HL.
Qed.

Lemma shr_Loc X mrs e n :
  Loc X mrs e ->
  Loc X (fst (shr mrs e n)) (snd (shr mrs e n)) /\
  snd (shr mrs e n) = e + Z.max n 0 /\
  shr_m (fst (shr mrs e n)) = shr_m mrs / 2 ^ Z.max n 0.
Proof.
  intros HL. destruct n as [| p | p]; cbn [shr fst snd].
  - rewrite Z.add_0_r, Z.div_1_r. auto.
  - destruct (iter_shr_1_Loc p _ _ _ HL) as [H1 E1].
    rewrite Z.max_l by lia. auto.
  - rewrite Z.max_r by lia. rewrite Z.add_0_r, Z.div_1_r. auto.
Qed.

(** ** Rounding *)

Lemma rne_spec mrs :
  let m2 := round_nearest_even (shr_m mrs) (loc_of_shr_record mrs) in
  shr_m mrs <= m2 <= shr_m mrs + 1 /\
  (shr_r mrs || shr_s mrs = false -> m2 = shr_m mrs).
Proof.
  destruct mrs as [m [|] [|]]; cbn; try destruct (Z.even m); split;
    try lia; intros; try reflexivity; discriminate.
Qed.

Lemma shr_nonpos mrs e n : n <= 0 -> shr mrs e n = (mrs, e).
Proof. destruct n; try reflexivity. lia. Qed.

Lemma binary_round_aux_eq sx mx ex lx :
  binary_round_aux prec emax sx mx ex lx =
  let p1 := shr_fexp prec emax mx ex lx in
  let p2 := shr_fexp prec emax
              (round_nearest_even (shr_m (fst p1)) (loc_of_shr_record (fst p1)))
              (snd p1) loc_Exact in
  match shr_m (fst p2) with
  | Z0 => S754_zero sx
  | Zpos m => if snd p2 <=? emax - prec then S754_finite sx m (snd p2)
              else S754_infinity sx
  | Zneg _ => S754_nan
  end.
Proof.
  unfold binary_round_aux.
  destruct (shr_fexp prec emax mx ex lx) as [mrs1 e1]. cbn [fst snd].
  destruct (shr_fexp prec emax _ e1 loc_Exact) as [mrs2 e2]. reflexivity.
Qed.

(** A double with a smaller exponent lies below every normal mantissa at a
    larger exponent. *)
Lemma below_next_binade bm be e1 :
  bounded prec emax bm be = true -> be < e1 ->
  (F (Zpos bm) be < F (2 ^ 52) e1)%Q.
Proof.
  intros Hb Hlt. apply bounded_spec in Hb as (He & Hm & _).
  apply Qlt_le_trans with (F (2 ^ 53) be).
  - apply F_lt. exact Hm.
  - change (2 ^ 53) with (2 ^ 52 * 2 ^ 1). rewrite F_shift by lia.
    unfold F. pose proof (pow2_le (be + 1) e1 ltac:(lia)).
    assert (0 <= inject_Z (2 ^ 52))%Q by (unfold Qle; simpl; lia). nra.
Qed.

Lemma second_shr_fexp m2 e1 :
  -1074 <= e1 -> 0 <= m2 <= 2 ^ 53 ->
  exists m3 e3,
    shr_fexp prec emax m2 e1 loc_Exact = (Build_shr_record m3 false false, e3) /\
    (F m3 e3 == F m2 e1)%Q /\ 0 <= m3 < 2 ^ 53 /\
    (m2 < 2 ^ 53 -> m3 = m2 /\ e3 = e1) /\
    (m2 = 2 ^ 53 -> m3 = 2 ^ 52 /\ e3 = e1 + 1).
Proof.
  intros He [Hlo Hhi]. unfold shr_fexp. rewrite fexp_eq. cbn [shr_record_of_loc].
  destruct (Z.eq_dec m2 (2 ^ 53)) as [-> | Hne].
  - exists (2 ^ 52), (e1 + 1).
    change (Zdigits2 (2 ^ 53)) with 54.
    replace (Z.max (54 + e1 - 53) (-1074) - e1) with 1 by lia.
    split; [reflexivity |]. split.
    + change (2 ^ 53) with (2 ^ 52 * 2 ^ 1). rewrite F_shift by lia. reflexivity.
    + repeat split; try lia.
  - exists m2, e1. rewrite shr_nonpos.
    + split; [reflexivity |]. split; [reflexivity |]. repeat split; try lia.
    + destruct (Z.eq_dec m2 0) as [-> | Hnz]; [cbn; lia |].
      assert (Hd : Zdigits2 m2 <= 53).
      { pose proof (Zdigits2_bounds m2 ltac:(lia)) as [Hdl _].
        destruct (Z_le_gt_dec (Zdigits2 m2) 53) as [|Hgt]; [assumption | exfalso].
        assert (2 ^ 53 <= 2 ^ (Zdigits2 m2 - 1)) by (apply Z.pow_le_mono_r; lia). lia. }
      lia.
Qed.

Lemma shr_m_of_loc m l : shr_m (shr_record_of_loc m l) = m.
Proof. destruct l as [| []]; reflexivity. Qed.

(** After the first shift the mantissa fits in 53 bits, and fills them
    above the subnormal range. *)
Lemma first_shift_bounds m e :
  0 <= m -> e <= fexp prec emax (Zdigits2 m + e) ->
  let e1 := fexp prec emax (Zdigits2 m + e) in
  let m1 := m / 2 ^ (e1 - e) in
  -1074 <= e1 /\ 0 <= m1 < 2 ^ 53 /\ (-1074 < e1 -> 2 ^ 52 <= m1).
Proof.
  intros Hm HP e1 m1. subst e1 m1. rewrite fexp_eq in *.
  set (d := Zdigits2 m) in *.
  set (e1 := Z.max (d + e - 53) (-1074)) in *.
  assert (Hp : 0 < 2 ^ (e1 - e)) by (apply Z.pow_pos_nonneg; lia).
  split; [lia |].
  destruct (Z.eq_dec m 0) as [-> | Hnz].
  - rewrite Z.div_0_l by lia. split; [lia |]. cbn in d. lia.
  - pose proof (Zdigits2_bounds m ltac:(lia)) as [Hdl Hdh]. fold d in Hdl, Hdh.
    pose proof (Zdigits2_pos m ltac:(lia)) as Hd. fold d in Hd.
    split; [split |].
    + apply Z.div_pos; lia.
    + apply Z.div_lt_upper_bound; [lia |].
      rewrite <- Z.pow_add_r by lia.
      apply Z.lt_le_trans with (1 := Hdh). apply Z.pow_le_mono_r; lia.
    + intros Hn. apply Z.div_le_lower_bound; [lia |].
      rewrite <- Z.pow_add_r by lia.
      apply Z.le_trans with (2 := Hdl). apply Z.pow_le_mono_r; lia.
Qed.

(** The rounding at the heart of every operation: given a mantissa,
    an exponent and a location for [X], and a double above [X], it returns
    a double next to [X]. *)
Lemma binary_round_aux_faithful sx m e l X :
  0 <= m ->
  Loc X (shr_record_of_loc m l) e ->
  e <= fexp prec emax (Zdigits2 m + e) ->
  (exists um ue, bounded prec emax um ue = true /\ (X <= F (Zpos um) ue)%Q) ->
  Rounds sx X (binary_round_aux prec emax sx m e l).
Proof.
  intros Hm HL HP Hupper. unfold Rounds.
  rewrite binary_round_aux_eq. cbv zeta.
  (* the first shift brings the exponent to [fexp] *)
  pose proof (first_shift_bounds m e Hm HP) as (He1 & Hm1 & Hn1). cbv zeta in *.
  pose proof (shr_Loc X _ e (fexp prec emax (Zdigits2 m + e) - e) HL)
    as (HL1 & Ee1 & Em1).
  rewrite Z.max_l in Ee1, Em1 by lia. rewrite shr_m_of_loc in Em1.
  change (shr (shr_record_of_loc m l) e (fexp prec emax (Zdigits2 m + e) - e))
    with (shr_fexp prec emax m e l) in *.
  set (p1 := shr_fexp prec emax m e l) in *.
  set (e1 := fexp prec emax (Zdigits2 m + e)) in *.
  replace (e + (e1 - e)) with e1 in Ee1 by lia.
  rewrite Ee1 in *. rewrite <- Em1 in Hm1, Hn1.
  destruct HL1 as (_ & HloX & HhiX & HexX).
  pose proof (rne_spec (fst p1)) as [Hm2 Hex2]. cbv zeta in Hm2, Hex2.
  set (m1 := shr_m (fst p1)) in *.
  set (m2 := round_nearest_even m1 (loc_of_shr_record (fst p1))) in *.
  assert (Hup : forall k, (X <= F k e1)%Q -> m2 <= k).
  { intros k Hk.
    assert (m1 <= k)
      by (apply (F_le _ _ e1); apply Qle_trans with (1 := HloX); exact Hk).
    destruct (shr_r (fst p1) || shr_s (fst p1)) eqn:Hrs.
    - assert (m1 < k); [| lia]. apply (F_lt _ _ e1).
      apply Qlt_le_trans with (2 := Hk). apply HexX. reflexivity.
    - rewrite (Hex2 eq_refl). assumption. }
  assert (Hdown : forall k, (F k e1 <= X)%Q -> k <= m2).
  { intros k Hk. assert (k < m1 + 1); [| lia]. apply (F_lt _ _ e1).
    apply Qle_lt_trans with (1 := Hk). exact HhiX. }
  assert (Hgrid : forall bm be, e1 <= be ->
            (F (Zpos bm) be == F (Zpos bm * 2 ^ (be - e1)) e1)%Q).
  { intros bm be Hle. rewrite F_shift by lia.
    replace (e1 + (be - e1)) with be by lia. reflexivity. }
  assert (Hsmall : forall bm be, bounded prec emax bm be = true -> be < e1 ->
            (F (Zpos bm) be < F m1 e1)%Q).
  { intros bm be Hb Hlt.
    apply Qlt_le_trans with (1 := below_next_binade _ _ _ Hb Hlt).
    apply F_le. apply Hn1. apply bounded_spec in Hb. lia. }
  assert (HupB : forall bm be, bounded prec emax bm be = true ->
            (X <= F (Zpos bm) be)%Q ->
            e1 <= be /\ m2 <= Zpos bm * 2 ^ (be - e1)).
  { intros bm be Hb HX.
    assert (e1 <= be).
    { destruct (Z_le_gt_dec e1 be) as [| Hgt]; [assumption | exfalso].
      pose proof (Hsmall bm be Hb ltac:(lia)). lra. }
    split; [assumption |]. apply Hup. rewrite <- Hgrid by assumption. exact HX. }
  assert (UB : forall bm be, bounded prec emax bm be = true ->
            (X <= F (Zpos bm) be)%Q -> (F m2 e1 <= F (Zpos bm) be)%Q).
  { intros bm be Hb HX. destruct (HupB bm be Hb HX) as [Hle Hk].
    rewrite (Hgrid bm be Hle). apply F_le. exact Hk. }
  assert (LB : forall bm be, bounded prec emax bm be = true ->
            (F (Zpos bm) be <= X)%Q -> (F (Zpos bm) be <= F m2 e1)%Q).
  { intros bm be Hb HX. destruct (Z_le_gt_dec e1 be) as [Hle | Hgt].
    - rewrite (Hgrid bm be Hle). apply F_le. apply Hdown.
      rewrite <- Hgrid by assumption. exact HX.
    - apply Qlt_le_weak. apply Qlt_le_trans with (1 := Hsmall bm be Hb ltac:(lia)).
      apply F_le. lia. }
  (* the second shift renormalises a mantissa that reached 2^53 *)
  destruct (second_shr_fexp m2 e1 He1 ltac:(lia))
    as (m3 & e3 & E2 & EF & Hm3 & Hlt3 & Heq3).
  rewrite E2. cbn [fst snd shr_m]. change (emax - prec) with 971.
  assert (He3 : e3 <= 971).
  { destruct Hupper as (um & ue & Hub & HuX).
    destruct (HupB um ue Hub HuX) as [Hue Hmu].
    apply bounded_spec in Hub as (? & ? & _).
    destruct (Z.eq_dec m2 (2 ^ 53)) as [E | NE].
    - destruct (Heq3 E) as [_ ->].
      assert (ue <> e1); [| lia].
      intros ->. rewrite Z.sub_diag, Z.pow_0_r in Hmu. lia.
    - destruct (Hlt3 ltac:(lia)) as [_ ->]. lia. }
  destruct m3 as [| p3 | p3]; [| | lia].
  - split; [left; reflexivity |]. cbn [mag]. split; [| split].
    + intros bm be _ _. apply F_nonneg. lia.
    + intros bm be Hb HX. apply Qle_trans with (1 := LB bm be Hb HX).
      rewrite <- EF. unfold F. change (inject_Z 0) with 0%Q. lra.
    + reflexivity.
  - apply Z.leb_le in He3. rewrite He3. cbn [mag]. split; [right | split; [| split]].
    + exists p3, e3. split; [reflexivity |]. apply bounded_spec.
      apply Z.leb_le in He3.
      destruct (Z.eq_dec m2 (2 ^ 53)) as [E | NE].
      * destruct (Heq3 E) as [E3 ->]. rewrite E3. lia.
      * destruct (Hlt3 ltac:(lia)) as [E3 ->]. rewrite E3. lia.
    + intros bm be Hb HX. rewrite EF. exact (UB bm be Hb HX).
    + intros bm be Hb HX. rewrite EF. exact (LB bm be Hb HX).
    + intros HX0. exfalso.
      assert (m2 <= 0).
      { apply Hup. unfold F. change (inject_Z 0) with 0%Q. lra. }
      destruct (Hlt3 ltac:(lia)) as [E3 _]. lia.
Qed.

(** ** Aligning mantissas *)

Lemma iter_xO_spec d : forall m, Zpos (Pos.iter xO m d) = Zpos m * 2 ^ Zpos d.
Proof.
  induction d as [| d IH] using Pos.peano_ind; intros m.
  - cbn. lia.
  - rewrite Pos.iter_succ, Pos2Z.inj_xO, IH, Pos2Z.inj_succ, Z.pow_succ_r by lia.
    ring.
Qed.

Lemma shl_align_spec mx ex ex' :
  let p := shl_align mx ex ex' in
  snd p = Z.min ex ex' /\ Zpos (fst p) = Zpos mx * 2 ^ (ex - snd p).
Proof.
  unfold shl_align. destruct (ex' - ex) as [| d | d] eqn:Hd; cbn [fst snd].
  - rewrite Z.min_l by lia. rewrite Z.sub_diag. cbn. lia.
  - rewrite Z.min_l by lia. rewrite Z.sub_diag. cbn. lia.
  - rewrite Z.min_r by lia. split; [reflexivity |].
    rewrite iter_xO_spec. f_equal. f_equal. lia.
Qed.

Lemma shl_align_value mx ex ex' :
  (F (Zpos (fst (shl_align mx ex ex'))) (snd (shl_align mx ex ex')) == F (Zpos mx) ex)%Q.
Proof.
  destruct (shl_align_spec mx ex ex') as [Hs Hf]. rewrite Hf.
  rewrite F_shift by lia.
  replace (snd (shl_align mx ex ex') + (ex - snd (shl_align mx ex ex'))) with ex by lia.
  reflexivity.
Qed.

Lemma Zdigits2_shift m k : 0 < m -> 0 <= k -> Zdigits2 (m * 2 ^ k) = Zdigits2 m + k.
Proof.
  intros Hm Hk. pose proof (Zdigits2_bounds m Hm) as [Hlo Hhi].
  pose proof (Zdigits2_pos m Hm) as Hd.
  pos_pow2 k.
  apply Zdigits2_unique; [| lia].
  replace (Zdigits2 m + k - 1) with (Zdigits2 m - 1 + k) by lia.
  rewrite !Z.pow_add_r by lia. nia.
Qed.

Lemma Zdigits2_ge m k : 0 < k -> 2 ^ (k - 1) <= m -> k <= Zdigits2 m.
Proof.
  intros Hk Hm.
  assert (0 < m). { pos_pow2 (k - 1). lia. }
  pose proof (Zdigits2_bounds m ltac:(lia)) as [_ Hhi].
  pose proof (Zdigits2_pos m ltac:(lia)).
  assert (k - 1 < Zdigits2 m); [| lia].
  apply (Z.pow_lt_mono_r_iff 2); lia.
Qed.

Lemma Loc_exact m e X : 0 <= m -> (X == F m e)%Q -> Loc X (shr_record_of_loc m loc_Exact) e.
Proof.
  intros Hm HX. unfold Loc. cbn. split; [assumption |]. rewrite HX. split; [| split].
  - apply Qle_refl.
  - apply F_lt. lia.
  - discriminate.
Qed.

Lemma binary_round_faithful sx mx ex X :
  (X == F (Zpos mx) ex)%Q ->
  (exists um ue, bounded prec emax um ue = true /\ (X <= F (Zpos um) ue)%Q) ->
  Rounds sx X (binary_round prec emax sx mx ex).
Proof.
  intros HX Hupper. unfold binary_round.
  pose proof (shl_align_spec mx ex (fexp prec emax (Zpos (digits2_pos mx) + ex))) as [Hs Hf].
  pose proof (shl_align_value mx ex (fexp prec emax (Zpos (digits2_pos mx) + ex))) as Hv.
  destruct (shl_align mx ex (fexp prec emax (Zpos (digits2_pos mx) + ex))) as [mz ez].
  cbn [fst snd] in *.
  apply binary_round_aux_faithful.
  - lia.
  - apply Loc_exact; [lia |]. rewrite Hv. exact HX.
  - rewrite Hf. rewrite Zdigits2_shift by lia.
    replace (Zdigits2 (Zpos mx) + (ex - ez) + ez) with (Zpos (digits2_pos mx) + ex)
      by (cbn [Zdigits2]; lia).
    lia.
  - exact Hupper.
Qed.

(** ** Non-negative doubles and faithful results *)

Lemma F_pos m e : 0 < m -> (0 < F m e)%Q.
Proof.
  intros Hm. unfold F. pose proof (pow2_pos e).
  assert (0 < inject_Z m)%Q by (unfold Qlt; simpl; lia). nra.
Qed.

Lemma B2Q_nonneg x : nonneg_fin x -> (0 <= B2Q x)%Q.
Proof.
  destruct x as [s | s | | [|] m e]; cbn; intros Hx; try lra; try contradiction.
  apply (F_nonneg (Zpos m) e). lia.
Qed.

Lemma Faithful_ext X X' r : (X == X')%Q -> Faithful X r -> Faithful X' r.
Proof.
  intros HX (Hr & Hu & Hl). split; [assumption |]. split.
  - intros u Hnu HXu. apply Hu; [assumption |]. now rewrite HX.
  - intros l Hnl HlX. apply Hl; [assumption |]. now rewrite HX.
Qed.

Lemma Faithful_self X y : nonneg_fin y -> (X == B2Q y)%Q -> Faithful X y.
Proof.
  intros Hy HX. split; [assumption |]. split; intros b _ Hb; now rewrite <- HX.
Qed.

Lemma Faithful_zero X s : (X == 0)%Q -> Faithful X (S754_zero s).
Proof. intros HX. apply Faithful_self; [exact I | exact HX]. Qed.

Lemma upper_bounded X :
  (0 < X)%Q -> (exists u, nonneg_fin u /\ (X <= B2Q u)%Q) ->
  exists um ue, bounded prec emax um ue = true /\ (X <= F (Zpos um) ue)%Q.
Proof.
  intros HX (u & Hu & HXu).
  destruct u as [s | s | | [|] m e]; cbn in Hu, HXu; try contradiction; try lra.
  exists m, e. split; assumption.
Qed.

(** From mantissas and exponents to values. *)
Lemma Rounds_Faithful X r : (0 <= X)%Q -> Rounds false X r -> Faithful X r.
Proof.
  intros HX (Hshape & Hub & Hlb & Hz). split; [| split].
  - destruct Hshape as [-> | (m' & e' & -> & Hb)]; [exact I | exact Hb].
  - intros u Hu HXu.
    destruct u as [s | s | | [|] m e]; cbn in Hu; try contradiction.
    + cbn in HXu. rewrite (Hz HXu). cbn. lra.
    + specialize (Hub m e Hu HXu).
      destruct Hshape as [-> | (m' & e' & -> & Hb)]; [| exact Hub].
      cbn [B2Q]. apply (F_nonneg (Zpos m) e). lia.
  - intros l Hnl HlX.
    destruct l as [s | s | | [|] m e]; cbn in Hnl; try contradiction.
    + destruct Hshape as [-> | (m' & e' & -> & Hb)]; [cbn; lra |].
      cbn [B2Q cond_Zopp]. apply (F_nonneg (Zpos m') e'). lia.
    + specialize (Hlb m e Hnl HlX).
      destruct Hshape as [-> | (m' & e' & -> & Hb)]; exact Hlb.
Qed.

(** ** Multiplication *)

Lemma mul_exponent_ok mx ex my ey :
  bounded prec emax mx ex = true -> bounded prec emax my ey = true ->
  ex + ey <= fexp prec emax (Zdigits2 (Zpos (mx * my)) + (ex + ey)).
Proof.
  intros Hx Hy. apply bounded_spec in Hx as (Hex & Hmx & Hnx).
  apply bounded_spec in Hy as (Hey & Hmy & Hny). rewrite fexp_eq.
  rewrite Pos2Z.inj_mul.
  destruct (Z.eq_dec ex (-1074)) as [Ex | Ex], (Z.eq_dec ey (-1074)) as [Ey | Ey].
  - lia.
  - assert (53 <= Zdigits2 (Zpos mx * Zpos my)); [| lia].
    apply Zdigits2_ge; [lia |]. specialize (Hny ltac:(lia)).
    change (2 ^ (53 - 1)) with (2 ^ 52). nia.
  - assert (53 <= Zdigits2 (Zpos mx * Zpos my)); [| lia].
    apply Zdigits2_ge; [lia |]. specialize (Hnx ltac:(lia)).
    change (2 ^ (53 - 1)) with (2 ^ 52). nia.
  - assert (105 <= Zdigits2 (Zpos mx * Zpos my)); [| lia].
    apply Zdigits2_ge; [lia |]. specialize (Hnx ltac:(lia)). specialize (Hny ltac:(lia)).
    change (2 ^ (105 - 1)) with (2 ^ 52 * 2 ^ 52). nia.
Qed.

Lemma F_mul a ea b eb : (F a ea * F b eb == F (a * b) (ea + eb))%Q.
Proof. unfold F. rewrite pow2_add, inject_Z_mult. ring. Qed.

(** The product of two non-negative doubles is next to the exact product. *)
Lemma SFmul_faithful x y :
  nonneg_fin x -> nonneg_fin y ->
  (exists u, nonneg_fin u /\ (B2Q x * B2Q y <= B2Q u)%Q) ->
  Faithful (B2Q x * B2Q y) (SFmul prec emax x y).
Proof.
  intros Hx Hy Hupper.
  destruct x as [sx | sx | | [|] mx ex]; cbn in Hx; try contradiction;
  destruct y as [sy | sy | | [|] my ey]; cbn in Hy; try contradiction;
  cbn [SFmul].
  - apply Faithful_zero. cbn. ring.
  - apply Faithful_zero. cbn. ring.
  - apply Faithful_zero. cbn. ring.
  - cbn [xorb B2Q cond_Zopp]. fold (pow2 ex) (pow2 ey).
    fold (F (Zpos mx) ex) (F (Zpos my) ey).
    assert (HX : (0 < F (Zpos mx) ex * F (Zpos my) ey)%Q).
    { pose proof (F_pos (Zpos mx) ex ltac:(lia)).
      pose proof (F_pos (Zpos my) ey ltac:(lia)). nra. }
    apply Rounds_Faithful; [lra |].
    apply binary_round_aux_faithful.
    + lia.
    + apply Loc_exact; [lia |]. rewrite Pos2Z.inj_mul. apply F_mul.
    + apply mul_exponent_ok; assumption.
    + apply upper_bounded; assumption.
Qed.

(** ** Addition and subtraction *)

Lemma F_add a b e : (F a e + F b e == F (a + b) e)%Q.
Proof. unfold F. rewrite inject_Z_plus. ring. Qed.

Lemma F_sub a b e : (F a e - F b e == F (a - b) e)%Q.
Proof. unfold F, Z.sub. rewrite inject_Z_plus, inject_Z_opp. ring. Qed.

Lemma F_zero e : (F 0 e == 0)%Q.
Proof. unfold F. change (inject_Z 0) with 0%Q. ring. Qed.

Lemma binary_normalize_faithful S ez X :
  0 <= S -> (X == F S ez)%Q ->
  (exists u, nonneg_fin u /\ (X <= B2Q u)%Q) ->
  Faithful X (binary_normalize prec emax S ez false).
Proof.
  intros HS HX Hupper. destruct S as [| p | p]; [| | lia]; cbn [binary_normalize].
  - apply Faithful_zero. rewrite HX. apply F_zero.
  - assert (0 < X)%Q by (rewrite HX; apply F_pos; lia).
    apply Rounds_Faithful; [lra |].
    apply binary_round_faithful; [exact HX |].
    apply upper_bounded; assumption.
Qed.

Lemma align_min_l mx ex ey :
  (F (Zpos (fst (shl_align mx ex (Z.min ex ey)))) (Z.min ex ey) == F (Zpos mx) ex)%Q.
Proof.
  pose proof (shl_align_value mx ex (Z.min ex ey)) as Hv.
  destruct (shl_align_spec mx ex (Z.min ex ey)) as [Hs _].
  rewrite Hs in Hv. rewrite (Z.min_r ex (Z.min ex ey)) in Hv by lia. exact Hv.
Qed.

Lemma align_min_r my ex ey :
  (F (Zpos (fst (shl_align my ey (Z.min ex ey)))) (Z.min ex ey) == F (Zpos my) ey)%Q.
Proof.
  pose proof (shl_align_value my ey (Z.min ex ey)) as Hv.
  destruct (shl_align_spec my ey (Z.min ex ey)) as [Hs _].
  rewrite Hs in Hv. rewrite (Z.min_r ey (Z.min ex ey)) in Hv by lia. exact Hv.
Qed.

Lemma B2Q_finite_pos m e : B2Q (S754_finite false m e) = F (Zpos m) e.
Proof. reflexivity. Qed.

(** The sum of two non-negative doubles is next to the exact sum. *)
Lemma SFadd_faithful x y :
  nonneg_fin x -> nonneg_fin y ->
  (exists u, nonneg_fin u /\ (B2Q x + B2Q y <= B2Q u)%Q) ->
  Faithful (B2Q x + B2Q y) (SFadd prec emax x y).
Proof.
  intros Hx Hy Hupper.
  destruct x as [sx | sx | | [|] mx ex]; cbn in Hx; try contradiction;
  destruct y as [sy | sy | | [|] my ey]; cbn in Hy; try contradiction;
  cbn [SFadd].
  - destruct sx, sy; apply Faithful_zero; cbn; ring.
  - apply Faithful_self; [exact Hy |]. cbn [B2Q]. ring.
  - apply Faithful_self; [exact Hx |]. cbn [B2Q]. ring.
  - rewrite !B2Q_finite_pos in *. cbn [cond_Zopp].
    apply binary_normalize_faithful; [lia | | exact Hupper].
    rewrite <- F_add, align_min_l, align_min_r. reflexivity.
Qed.

(** The difference of two non-negative doubles, the larger first, is next
    to the exact difference. *)
Lemma SFsub_faithful x y :
  nonneg_fin x -> nonneg_fin y -> (B2Q y <= B2Q x)%Q ->
  Faithful (B2Q x - B2Q y) (SFsub prec emax x y).
Proof.
  intros Hx Hy Hle.
  assert (Hupper : exists u, nonneg_fin u /\ (B2Q x - B2Q y <= B2Q u)%Q).
  { exists x. split; [assumption |]. pose proof (B2Q_nonneg y Hy). lra. }
  destruct x as [sx | sx | | [|] mx ex]; cbn in Hx; try contradiction;
  destruct y as [sy | sy | | [|] my ey]; cbn in Hy; try contradiction;
  cbn [SFsub].
  - destruct sx, sy; apply Faithful_zero; cbn; ring.
  - exfalso. rewrite B2Q_finite_pos in Hle. cbn [B2Q] in Hle.
    pose proof (F_pos (Zpos my) ey ltac:(lia)). lra.
  - apply Faithful_self; [exact Hx |]. cbn [B2Q]. ring.
  - rewrite !B2Q_finite_pos in *. cbn [cond_Zopp].
    assert (HE : (F (Zpos mx) ex - F (Zpos my) ey ==
                  F (Zpos (fst (shl_align mx ex (Z.min ex ey)))
                     - Zpos (fst (shl_align my ey (Z.min ex ey)))) (Z.min ex ey))%Q).
    { rewrite <- F_sub, align_min_l, align_min_r. reflexivity. }
    apply binary_normalize_faithful; [| exact HE | exact Hupper].
    rewrite <- (align_min_l mx ex ey), <- (align_min_r my ex ey) in Hle.
    apply F_le in Hle. lia.
Qed.

(** ** Division *)

Lemma new_location_cases nb k :
  (k = 0 /\ new_location nb k = loc_Exact) \/
  (k <> 0 /\ exists c, new_location nb k = loc_Inexact c).
Proof.
  unfold new_location.
  destruct (Z.eq_dec k 0) as [-> | Hk].
  - left. split; [reflexivity |]. destruct (Z.even nb); reflexivity.
  - right. split; [assumption |]. apply Z.eqb_neq in Hk.
    destruct (Z.even nb); unfold new_location_even, new_location_odd;
      rewrite Hk; eexists; reflexivity.
Qed.

(** The integer division at the core of [SFdiv] locates the exact ratio
    and leaves enough digits for the rounding. *)
Lemma SFdiv_core_binary_spec m1 e1 m2 e2 :
  0 < m1 -> 0 < m2 ->
  exists q e' l,
    SFdiv_core_binary prec emax m1 e1 m2 e2 = (q, e', l) /\
    0 <= q /\
    Loc (F m1 e1 / F m2 e2) (shr_record_of_loc q l) e' /\
    e' <= fexp prec emax (Zdigits2 q + e').
Proof.
  intros H1 H2. unfold SFdiv_core_binary.
  set (d1 := Zdigits2 m1). set (d2 := Zdigits2 m2).
  set (e' := Z.min (fexp prec emax (d1 + e1 - (d2 + e2))) (e1 - e2)).
  set (s := e1 - e2 - e').
  assert (Hs : 0 <= s) by (unfold s, e'; lia).
  set (m' := match s with Z.pos _ => Z.shiftl m1 s | 0 => m1 | Z.neg _ => 0 end).
  assert (Hm' : m' = m1 * 2 ^ s).
  { unfold m'. destruct s as [| p | p] eqn:Es; [cbn; lia | | lia].
    apply Z.shiftl_mul_pow2. lia. }
  pose proof (Z.div_eucl_eq m' m2 ltac:(lia)) as Hdiv.
  pose proof (Z.mod_pos_bound m' m2 H2) as Hr. unfold Z.modulo in Hr.
  destruct (Z.div_eucl m' m2) as [q r]. exists q, e', (new_location m2 r).
  split; [reflexivity |].
  assert (Hp : 0 < 2 ^ s) by (apply Z.pow_pos_nonneg; lia).
  assert (Hq : 0 <= q) by nia.
  split; [exact Hq |].
  pose proof (F_pos m2 e2 H2) as HB.
  assert (HA : (F m1 e1 == F m' (e' + e2))%Q).
  { rewrite Hm', F_shift by lia. replace (e' + e2 + s) with e1 by (unfold s; lia).
    reflexivity. }
  assert (HQ : forall k, (F k e' * F m2 e2 == F (k * m2) (e' + e2))%Q)
    by (intros k; apply F_mul).
  split.
  - (* the quotient and its remainder locate the exact ratio *)
    unfold Loc. rewrite shr_m_of_loc. split; [exact Hq |]. split; [| split].
    + apply Qle_shift_div_l; [exact HB |]. rewrite HQ, HA. apply F_le. nia.
    + apply Qlt_shift_div_r; [exact HB |]. rewrite HQ, HA. apply F_lt. nia.
    + intros Hinexact. apply Qlt_shift_div_l; [exact HB |]. rewrite HQ, HA.
      apply F_lt.
      destruct (new_location_cases m2 r) as [[Hr0 El] | [Hr0 [c El]]].
      * rewrite El in Hinexact. discriminate.
      * nia.
  - (* the quotient has enough digits *)
    rewrite fexp_eq.
    destruct (Z_le_gt_dec e' (-1074)) as [Hle | Hgt]; [lia |].
    assert (2 ^ 52 <= q).
    { pose proof (Zdigits2_bounds m1 H1) as [Hl1 _]. fold d1 in Hl1.
      pose proof (Zdigits2_bounds m2 H2) as [_ Hh2]. fold d2 in Hh2.
      pose proof (Zdigits2_pos m1 H1) as Hd1. fold d1 in Hd1.
      pose proof (Zdigits2_pos m2 H2) as Hd2. fold d2 in Hd2.
      assert (Hs' : 53 - d1 + d2 <= s).
      { unfold s, e' in *. rewrite fexp_eq in *. lia. }
      assert (2 ^ (52 + d2) <= m').
      { rewrite Hm'.
        apply Z.le_trans with (2 ^ (d1 - 1 + s)); [apply Z.pow_le_mono_r; lia |].
        rewrite Z.pow_add_r by lia. nia. }
      rewrite Z.pow_add_r in * by lia.
      pos_pow2 d2.
      nia. }
    assert (53 <= Zdigits2 q) by (apply Zdigits2_ge; [lia | assumption]).
    lia.
Qed.

(** The quotient of a non-negative double by a positive one is next to the
    exact quotient. *)
Lemma SFdiv_faithful x my ey :
  nonneg_fin x -> bounded prec emax my ey = true ->
  (exists u, nonneg_fin u /\ (B2Q x / F (Zpos my) ey <= B2Q u)%Q) ->
  Faithful (B2Q x / F (Zpos my) ey) (SFdiv prec emax x (S754_finite false my ey)).
Proof.
  intros Hx Hy Hupper. pose proof (F_pos (Zpos my) ey ltac:(lia)) as HB.
  destruct x as [sx | sx | | [|] mx ex]; cbn in Hx; try contradiction; cbn [SFdiv].
  - apply Faithful_zero. cbn [B2Q]. field. lra.
  - rewrite B2Q_finite_pos in *. cbn [xorb].
    destruct (SFdiv_core_binary_spec (Zpos mx) ex (Zpos my) ey ltac:(lia) ltac:(lia))
      as (q & e' & l & E & Hq & HL & HP).
    rewrite E.
    assert (HX : (0 < F (Zpos mx) ex / F (Zpos my) ey)%Q).
    { apply Qlt_shift_div_l; [exact HB |]. rewrite Qmult_0_l. apply F_pos. lia. }
    apply Rounds_Faithful; [lra |].
    apply binary_round_aux_faithful; try assumption.
    apply upper_bounded; assumption.
Qed.

(** ** Comparisons *)

Lemma canonical_exp_lt m1 e1 m2 e2 :
  bounded prec emax m1 e1 = true -> bounded prec emax m2 e2 = true ->
  e1 < e2 -> (F (Zpos m1) e1 < F (Zpos m2) e2)%Q.
Proof.
  intros H1 H2 Hlt.
  apply Qlt_le_trans with (1 := below_next_binade _ _ _ H1 Hlt).
  apply F_le. apply bounded_spec in H1, H2. lia.
Qed.

(** On non-negative doubles [SFcompare] compares the values. *)
Lemma SFcompare_nonneg x y :
  nonneg_fin x -> nonneg_fin y ->
  SFcompare x y = Some (B2Q x ?= B2Q y)%Q.
Proof.
  intros Hx Hy.
  destruct x as [sx | sx | | [|] mx ex]; cbn in Hx; try contradiction;
  destruct y as [sy | sy | | [|] my ey]; cbn in Hy; try contradiction;
  cbn [SFcompare]; rewrite ?B2Q_finite_pos; cbn [B2Q].
  - reflexivity.
  - f_equal. symmetry. apply Qlt_alt. apply F_pos. lia.
  - f_equal. symmetry. apply Qgt_alt. apply F_pos. lia.
  - f_equal. destruct (Z.compare_spec ex ey) as [-> | Hlt | Hgt].
    + change (Pos.compare_cont Eq mx my) with (Pos.compare mx my).
      destruct (Pos.compare_spec mx my) as [-> | Hm | Hm]; symmetry.
      * apply Qeq_alt. reflexivity.
      * apply Qlt_alt. apply F_lt. lia.
      * apply Qgt_alt. apply F_lt. lia.
    + symmetry. apply Qlt_alt. apply canonical_exp_lt; assumption.
    + symmetry. apply Qgt_alt. apply canonical_exp_lt; assumption.
Qed.

Lemma SFleb_nonneg x y :
  nonneg_fin x -> nonneg_fin y ->
  (SFleb x y = true <-> (B2Q x <= B2Q y)%Q).
Proof.
  intros Hx Hy. unfold SFleb. rewrite SFcompare_nonneg by assumption.
  rewrite Qle_alt. destruct (B2Q x ?= B2Q y)%Q; split; intros; congruence.
Qed.

Lemma of_Z_1 : of_Z 1 = one.
Proof. vm_compute. reflexivity. Qed.

Lemma of_Z_0 : of_Z 0 = S754_zero false.
Proof. vm_compute. reflexivity. Qed.

Lemma nonneg_fin_one : nonneg_fin one.
Proof. vm_compute. reflexivity. Qed.

Lemma B2Q_one : (B2Q one == 1)%Q.
Proof. vm_compute. reflexivity. Qed.

Lemma in_unit_interval_spec x :
  valid x = true ->
  (in_unit_interval x = true <-> nonneg_fin x /\ (B2Q x <= 1)%Q).
Proof.
  intros Hv. unfold in_unit_interval. rewrite of_Z_1, andb_true_iff. split.
  - intros [H0 H1].
    assert (Hx : nonneg_fin x).
    { unfold SFleb, SFcompare, one in H0, H1.
      destruct x as [s | [|] | | [|] m e]; try discriminate; try exact I.
      exact Hv. }
    split; [exact Hx |]. rewrite <- B2Q_one.
    apply SFleb_nonneg; [exact Hx | exact nonneg_fin_one | exact H1].
  - intros [Hx H1]. split.
    + apply SFleb_nonneg; [exact I | exact Hx |]. cbn [B2Q]. apply B2Q_nonneg, Hx.
    + apply SFleb_nonneg; [exact Hx | exact nonneg_fin_one |]. now rewrite B2Q_one.
Qed.

(** A value that is itself a double is returned unchanged. *)
Lemma Faithful_exact X r b :
  Faithful X r -> nonneg_fin b -> (X == B2Q b)%Q -> (B2Q r == B2Q b)%Q.
Proof.
  intros (_ & Hu & Hl) Hb HX. apply Qle_antisym.
  - apply Hu; [exact Hb |]. rewrite HX. apply Qle_refl.
  - apply Hl; [exact Hb |]. rewrite HX. apply Qle_refl.
Qed.

(** ** Integers held in doubles *)

Lemma inj_le a b : (inject_Z a <= inject_Z b)%Q <-> a <= b.
Proof. rewrite <- Zle_Qle. reflexivity. Qed.

Lemma F_int n : (F n 0 == inject_Z n)%Q.
Proof. unfold F, pow2. cbn. ring. Qed.

(** Every integer up to 2^53 is a double. *)
Lemma representable_int n :
  0 < n <= 2 ^ 53 ->
  exists bm be, bounded prec emax bm be = true /\ (F (Zpos bm) be == inject_Z n)%Q.
Proof.
  intros [Hlo Hhi]. destruct (Z.eq_dec n (2 ^ 53)) as [-> | Hne].
  - exists 4503599627370496%positive, 1. split; reflexivity.
  - pose proof (Zdigits2_bounds n Hlo) as [Hdl Hdh].
    pose proof (Zdigits2_pos n Hlo) as Hd. set (d := Zdigits2 n) in *.
    assert (d <= 53).
    { destruct (Z_le_gt_dec d 53) as [| Hgt]; [assumption | exfalso].
      assert (2 ^ 53 <= 2 ^ (d - 1)) by (apply Z.pow_le_mono_r; lia). lia. }
    assert (Hp : 0 < 2 ^ (53 - d)) by (apply Z.pow_pos_nonneg; lia).
    assert (Hbm : 0 < n * 2 ^ (53 - d)) by nia.
    exists (Z.to_pos (n * 2 ^ (53 - d))), (d - 53).
    rewrite Z2Pos.id by exact Hbm. split.
    + apply bounded_spec. rewrite Z2Pos.id by exact Hbm. split; [lia |].
      assert (E53 : 2 ^ 53 = 2 ^ d * 2 ^ (53 - d))
        by (rewrite <- Z.pow_add_r by lia; f_equal; lia).
      assert (E52 : 2 ^ 52 = 2 ^ (d - 1) * 2 ^ (53 - d))
        by (rewrite <- Z.pow_add_r by lia; f_equal; lia).
      split; [rewrite E53; nia | intros _; rewrite E52; nia].
    + rewrite F_shift by lia. replace (d - 53 + (53 - d)) with 0 by lia. apply F_int.
Qed.

Lemma of_Z_exact n : 0 <= n <= 2 ^ 53 -> holds (of_Z n) n.
Proof.
  intros [Hlo Hhi]. unfold holds.
  destruct (Z.eq_dec n 0) as [-> | Hnz]; [repeat split; lia |].
  destruct (representable_int n ltac:(lia)) as (bm & be & Hb & Hv).
  assert (HF : Faithful (inject_Z n) (of_Z n)).
  { apply binary_normalize_faithful; [lia | symmetry; apply F_int |].
    exists (S754_finite false bm be). split; [exact Hb |].
    rewrite B2Q_finite_pos, Hv. apply Qle_refl. }
  split; [apply HF |]. split; [lia |].
  rewrite (Faithful_exact _ _ (S754_finite false bm be) HF Hb).
  - rewrite B2Q_finite_pos. exact Hv.
  - rewrite B2Q_finite_pos. symmetry. exact Hv.
Qed.

Lemma holds_two53 : holds two53 (2 ^ 53).
Proof. split; [| split]; [vm_compute; reflexivity | lia | vm_compute; reflexivity]. Qed.

(** Every double from 2^53 on is an integer. *)
Lemma large_is_integer m e :
  bounded prec emax m e = true -> (inject_Z (2 ^ 53) <= F (Zpos m) e)%Q -> 0 < e.
Proof.
  intros Hb Hle. apply bounded_spec in Hb as (_ & Hm & _).
  destruct (Z_lt_ge_dec 0 e) as [| Hge]; [assumption | exfalso].
  assert (F (Zpos m) e <= F (Zpos m) 0)%Q.
  { unfold F. pose proof (pow2_le e 0 ltac:(lia)).
    assert (0 <= inject_Z (Zpos m))%Q by (unfold Qle; simpl; lia). nra. }
  rewrite F_int in *.
  assert (inject_Z (2 ^ 53) <= inject_Z (Zpos m))%Q by lra.
  rewrite <- Zle_Qle in *. lia.
Qed.

Lemma is_nonneg_integer_holds x n : holds x n -> is_nonneg_integer x = true.
Proof.
  intros (Hx & Hn & Hv).
  destruct x as [s | s | | [|] m e]; cbn in Hx; try contradiction; [reflexivity |].
  cbn [is_nonneg_integer]. rewrite B2Q_finite_pos in Hv.
  destruct (Z.leb_spec 0 e) as [| Hneg]; [reflexivity |]. cbn [orb].
  apply Z.eqb_eq.
  assert (Hp : 0 < 2 ^ (- e)) by (apply Z.pow_pos_nonneg; lia).
  assert (E : Zpos m = n * 2 ^ (- e)).
  { apply (F_eq _ _ e). rewrite F_shift by lia.
    replace (e + - e) with 0 by lia. rewrite F_int. exact Hv. }
  rewrite E. apply Z.mod_mul. lia.
Qed.

Lemma holds_of_integer x :
  valid x = true -> is_nonneg_integer x = true -> exists n, holds x n.
Proof.
  intros Hv Hi.
  destruct x as [s | s | | [|] m e]; cbn [is_nonneg_integer] in Hi;
    try discriminate.
  - exists 0. repeat split; lia.
  - unfold holds. cbn [nonneg_fin]. rewrite B2Q_finite_pos.
    destruct (Z.leb_spec 0 e) as [Hpos | Hneg].
    + exists (Zpos m * 2 ^ e). split; [exact Hv |].
      pos_pow2 e. split; [nia |].
      rewrite <- F_int, F_shift by lia. reflexivity.
    + cbn [orb] in Hi. apply Z.eqb_eq in Hi.
      assert (Hp : 0 < 2 ^ (- e)) by (apply Z.pow_pos_nonneg; lia).
      exists (Zpos m / 2 ^ (- e)). split; [exact Hv |].
      split; [apply Z.div_pos; lia |].
      rewrite <- F_int.
      assert (E : (F (Zpos m / 2 ^ (- e)) 0 == F (Zpos m / 2 ^ (- e) * 2 ^ (- e)) e)%Q).
      { rewrite F_shift by lia. replace (e + - e) with 0 by lia. reflexivity. }
      rewrite E. apply F_eq. apply Z.div_exact in Hi; lia.
Qed.

(** ** [Math.round], and subtraction of integers *)

Lemma inject_Z_F k e : e <= 0 -> (inject_Z k == F (k * 2 ^ (- e)) e)%Q.
Proof.
  intros He. rewrite F_shift by lia. replace (e + - e) with 0 by lia.
  symmetry. apply F_int.
Qed.

(** [Math.round] of a non-negative double is a non-negative integer, and
    stays below every integer that the double is below. *)
Lemma round_holds x K :
  nonneg_fin x -> (B2Q x <= inject_Z K)%Q ->
  exists n, holds (round x) n /\ n <= K.
Proof.
  intros Hx HK.
  destruct x as [s | s | | [|] m e]; cbn in Hx; try contradiction.
  - exists 0. cbn [round]. split; [repeat split; lia |].
    cbn [B2Q] in HK. apply inj_le. exact HK.
  - rewrite B2Q_finite_pos in HK. cbn [round].
    destruct (Z.leb_spec 0 e) as [Hpos | Hneg].
    + (* already integral *)
      pos_pow2 e.
      assert (Hv : (F (Zpos m) e == inject_Z (Zpos m * 2 ^ e))%Q).
      { rewrite <- F_int, F_shift by lia. reflexivity. }
      exists (Zpos m * 2 ^ e). split.
      * split; [exact Hx |]. split; [nia |]. rewrite B2Q_finite_pos. exact Hv.
      * apply inj_le. rewrite <- Hv. exact HK.
    + (* x = m / 2^k with k > 0: take floor (x + 1/2) *)
      cbn [cond_Zopp]. set (k := - e) in *.
      assert (Hk : 0 < k) by (unfold k; lia).
      assert (Hp : 0 < 2 ^ k) by (apply Z.pow_pos_nonneg; lia).
      assert (Hp2 : 2 ^ (k + 1) = 2 * 2 ^ k)
        by (rewrite Z.pow_add_r by lia; change (2 ^ 1) with 2; ring).
      assert (Hk2 : 2 <= 2 ^ k).
      { replace k with (1 + (k - 1)) by lia. rewrite Z.pow_add_r by lia.
        pos_pow2 (k - 1).
        change (2 ^ 1) with 2. lia. }
      set (n := (2 * Zpos m + 2 ^ k) / 2 ^ (k + 1)).
      assert (HmK : Zpos m <= K * 2 ^ k).
      { apply (F_le _ _ e). rewrite (inject_Z_F K e) in HK by lia. exact HK. }
      assert (Hn0 : 0 <= n) by (apply Z.div_pos; lia).
      assert (HnK : n <= K).
      { assert (n < K + 1); [| lia].
        apply Z.div_lt_upper_bound; [lia |]. rewrite Hp2. nia. }
      assert (Hn53 : n <= 2 ^ 53).
      { apply bounded_spec in Hx as (_ & Hm & _).
        assert (n < 2 ^ 53 + 1); [| lia].
        apply Z.div_lt_upper_bound; [lia |]. rewrite Hp2. nia. }
      destruct (Z.eqb_spec n 0) as [E0 | Hnz].
      * exists 0. split; [repeat split; lia | lia].
      * exists n. split; [apply of_Z_exact; lia | exact HnK].
Qed.

(** Scaling by a factor in [0, 1] does not increase a double. *)
Lemma mul_le x f :
  nonneg_fin x -> nonneg_fin f -> (B2Q f <= 1)%Q ->
  nonneg_fin (SFmul prec emax x f) /\ (B2Q (SFmul prec emax x f) <= B2Q x)%Q.
Proof.
  intros Hx Hf Hf1. pose proof (B2Q_nonneg x Hx). pose proof (B2Q_nonneg f Hf).
  assert (HX : (B2Q x * B2Q f <= B2Q x)%Q) by nra.
  destruct (SFmul_faithful x f Hx Hf) as (Hr & Hu & _).
  - exists x. split; assumption.
  - split; [exact Hr |]. apply Hu; assumption.
Qed.

(** The difference of two integral doubles is integral, and exact when
    the minuend is at most 2^53. *)
Lemma sub_holds a b na nb :
  holds a na -> holds b nb -> nb <= na ->
  exists n, holds (SFsub prec emax a b) n /\ (na <= 2 ^ 53 -> n = na - nb).
Proof.
  intros (Ha & Hna & Va) (Hb & Hnb & Vb) Hle.
  assert (HF : Faithful (inject_Z (na - nb)) (SFsub prec emax a b)).
  { apply Faithful_ext with (B2Q a - B2Q b)%Q.
    - rewrite Va, Vb. unfold Z.sub. rewrite inject_Z_plus, inject_Z_opp. ring.
    - apply SFsub_faithful; try assumption. rewrite Va, Vb. apply inj_le. exact Hle. }
  destruct HF as (Hr & Hu & Hl).
  destruct (Z.eq_dec (na - nb) 0) as [E0 | Hnz].
  - exists 0. split; [| lia]. split; [exact Hr |]. split; [lia |].
    apply Qle_antisym; [| apply B2Q_nonneg; exact Hr].
    apply (Hu (S754_zero false) I). rewrite E0. apply Qle_refl.
  - destruct (Z_le_gt_dec (na - nb) (2 ^ 53)) as [Hsmall | Hbig].
    + exists (na - nb). split; [| reflexivity].
      split; [exact Hr |]. split; [lia |].
      destruct (representable_int (na - nb) ltac:(lia)) as (bm & be & Hbb & Hv).
      rewrite <- Hv. rewrite <- (B2Q_finite_pos bm be).
      apply (Faithful_exact (inject_Z (na - nb))).
      * split; [exact Hr |]. split; assumption.
      * exact Hbb.
      * rewrite B2Q_finite_pos. symmetry. exact Hv.
    + destruct holds_two53 as (H53 & _ & V53).
      assert (Hge : (inject_Z (2 ^ 53) <= B2Q (SFsub prec emax a b))%Q).
      { rewrite <- V53. apply Hl; [exact H53 |]. rewrite V53. apply inj_le. lia. }
      destruct (SFsub prec emax a b) as [s | s | | [|] m e];
        cbn [nonneg_fin] in Hr; try contradiction.
      rewrite B2Q_finite_pos in Hge.
      pose proof (large_is_integer m e Hr Hge) as He.
      pos_pow2 e.
      exists (Zpos m * 2 ^ e). split; [| lia].
      split; [exact Hr |]. split; [nia |].
      rewrite B2Q_finite_pos, <- F_int, F_shift by lia. reflexivity.
Qed.

(** * The Population Projector on doubles *)

(** One group of the projector: [round (d * f)] and its complement. *)
Lemma group_cells d f nd :
  holds d nd -> nonneg_fin f -> (B2Q f <= 1)%Q ->
  exists nt nc,
    holds (round (SFmul prec emax d f)) nt /\
    holds (SFsub prec emax d (round (SFmul prec emax d f))) nc /\
    nt <= nd /\ (nd <= 2 ^ 53 -> nt + nc = nd).
Proof.
  intros Hd Hf Hf1. pose proof Hd as (Hdn & Hnd & Vd).
  destruct (mul_le d f Hdn Hf Hf1) as [Hr Hle].
  destruct (round_holds (SFmul prec emax d f) nd Hr) as (nt & Ht & Htd).
  { rewrite <- Vd. exact Hle. }
  destruct (sub_holds d _ nd nt Hd Ht Htd) as (nc & Hc & Ec).
  exists nt, nc. do 3 (split; [assumption |]).
  intros Hsmall. specialize (Ec Hsmall). lia.
Qed.

(** All four cells are integers; up to 2^53 they add up. *)
Lemma projector_cells s c p N nN :
  nonneg_fin s -> (B2Q s <= 1)%Q ->
  nonneg_fin c -> (B2Q c <= 1)%Q ->
  nonneg_fin p -> (B2Q p <= 1)%Q ->
  holds N nN ->
  exists nd ntp nfn ntn nfp,
    holds (diseased_of p N) nd /\
    holds (TP (ConfusionOutline s c p N)) ntp /\
    holds (FN (ConfusionOutline s c p N)) nfn /\
    holds (TN (ConfusionOutline s c p N)) ntn /\
    holds (FP (ConfusionOutline s c p N)) nfp /\
    (nN <= 2 ^ 53 -> ntp + nfn = nd /\ ntp + nfn + ntn + nfp = nN).
Proof.
  intros Hs Hs1 Hc Hc1 Hp Hp1 HN.
  unfold ConfusionOutline, diseased_of.
  cbn [TP FN TN FP mul sub Math_round binary64_arith].
  destruct (group_cells N p nN HN Hp Hp1) as (nd & nh & Hd & Hh & Hdn & Eh).
  destruct (group_cells _ s nd Hd Hs Hs1) as (ntp & nfn & Htp & Hfn & _ & E1).
  destruct (group_cells _ c nh Hh Hc Hc1) as (ntn & nfp & Htn & Hfp & _ & E2).
  exists nd, ntp, nfn, ntn, nfp.
  do 5 (split; [assumption |]).
  intros Hsmall. specialize (Eh Hsmall).
  destruct Hh as (_ & ? & _). destruct Hd as (_ & ? & _).
  specialize (E1 ltac:(lia)). specialize (E2 ltac:(lia)). lia.
Qed.

(** * The Bayes Evaluator on doubles *)

Lemma nonneg_fin_two : nonneg_fin two.
Proof. vm_compute. reflexivity. Qed.

Lemma B2Q_two : (B2Q two == 2)%Q.
Proof. vm_compute. reflexivity. Qed.

Lemma complement_unit x :
  nonneg_fin x -> (B2Q x <= 1)%Q ->
  nonneg_fin (SFsub prec emax one x) /\ (B2Q (SFsub prec emax one x) <= 1)%Q.
Proof.
  intros Hx Hx1.
  destruct (SFsub_faithful one x nonneg_fin_one Hx) as (Hr & Hu & _).
  { now rewrite B2Q_one. }
  split; [exact Hr |].
  assert (H1 : (B2Q (SFsub prec emax one x) <= B2Q one)%Q).
  { apply Hu; [exact nonneg_fin_one |]. pose proof (B2Q_nonneg x Hx). lra. }
  now rewrite B2Q_one in H1.
Qed.

Lemma mul_unit x y :
  nonneg_fin x -> (B2Q x <= 1)%Q -> nonneg_fin y -> (B2Q y <= 1)%Q ->
  nonneg_fin (SFmul prec emax x y) /\ (B2Q (SFmul prec emax x y) <= 1)%Q.
Proof.
  intros Hx Hx1 Hy Hy1. destruct (mul_le x y Hx Hy Hy1) as [Hr Hle].
  split; [exact Hr | lra].
Qed.

(** The evaluator's intermediate values for probabilities in [0, 1]. *)
Lemma ppv_parts s c p :
  nonneg_fin s -> (B2Q s <= 1)%Q ->
  nonneg_fin c -> (B2Q c <= 1)%Q ->
  nonneg_fin p -> (B2Q p <= 1)%Q ->
  let tp := SFmul prec emax s p in
  let denom := ppv_denom s c p in
  nonneg_fin tp /\ nonneg_fin denom /\ (B2Q tp <= B2Q denom)%Q.
Proof.
  intros Hs Hs1 Hc Hc1 Hp Hp1 tp denom. subst tp denom. unfold ppv_denom.
  cbn [mul sub add lit binary64_arith]. rewrite of_Z_1.
  destruct (mul_unit s p Hs Hs1 Hp Hp1) as [Htp Htp1].
  destruct (complement_unit c Hc Hc1) as [Hqc Hqc1].
  destruct (complement_unit p Hp Hp1) as [Hqp Hqp1].
  destruct (mul_unit _ _ Hqc Hqc1 Hqp Hqp1) as [Hfp Hfp1].
  set (tp := SFmul prec emax s p) in *.
  set (fp := SFmul prec emax (SFsub prec emax one c) (SFsub prec emax one p)) in *.
  destruct (SFadd_faithful tp fp Htp Hfp) as (Hd & _ & Hl).
  { exists two. split; [exact nonneg_fin_two |]. rewrite B2Q_two. lra. }
  split; [exact Htp |]. split; [exact Hd |].
  apply Hl; [exact Htp |]. pose proof (B2Q_nonneg fp Hfp). lra.
Qed.

(** The evaluator returns NaN on a zero denominator and a double in
    [0, 1] otherwise. *)
Lemma ppv_unit s c p :
  nonneg_fin s -> (B2Q s <= 1)%Q ->
  nonneg_fin c -> (B2Q c <= 1)%Q ->
  nonneg_fin p -> (B2Q p <= 1)%Q ->
  (strict_eq (ppv_denom s c p) (lit 0) = true /\ ppv s c p = S754_nan) \/
  (strict_eq (ppv_denom s c p) (lit 0) = false /\
   nonneg_fin (ppv s c p) /\ (B2Q (ppv s c p) <= 1)%Q).
Proof.
  intros Hs Hs1 Hc Hc1 Hp Hp1.
  destruct (ppv_parts s c p Hs Hs1 Hc Hc1 Hp Hp1) as (Htp & Hd & Hle).
  unfold ppv. fold (ppv_denom s c p).
  cbn [mul div strict_eq lit nan binary64_arith] in *. rewrite of_Z_0.
  set (tp := SFmul prec emax s p) in *. set (denom := ppv_denom s c p) in *.
  destruct (SFeqb denom (S754_zero false)) eqn:Ez; [left; split; reflexivity |].
  right. split; [reflexivity |].
  destruct denom as [sd | sd | | [|] md ed] eqn:Ed;
    cbn [nonneg_fin] in Hd; try contradiction.
  - discriminate Ez.
  - rewrite B2Q_finite_pos in Hle.
    pose proof (F_pos (Zpos md) ed ltac:(lia)) as Hpos.
    assert (HX : (B2Q tp / F (Zpos md) ed <= 1)%Q).
    { apply Qle_shift_div_r; [exact Hpos | lra]. }
    destruct (SFdiv_faithful tp md ed Htp Hd) as (Hr & Hu & _).
    { exists one. split; [exact nonneg_fin_one |]. now rewrite B2Q_one. }
    split; [exact Hr |].
    assert (H1 : (B2Q (SFdiv prec emax tp (S754_finite false md ed)) <= B2Q one)%Q).
    { apply Hu; [exact nonneg_fin_one |]. now rewrite B2Q_one. }
    now rewrite B2Q_one in H1.
Qed.

(** * The claims *)

Import Display.
#[local] Existing Instance Exact.exact_arith.
#[local] Existing Instance Traced.traced_arith.

(** ** Properties that hold in every arithmetic *)

Section Generic.

Context {T : Type} `{Arith T}.

Lemma ppv_unfold (s c p : T) :
  ppv s c p = if strict_eq (ppv_denom s c p) (lit 0) then nan
              else div (mul s p) (ppv_denom s c p).
Proof. reflexivity. Qed.

(** C1: for every sensitivity, specificity and prevalence, [ppv] computes
    [tp = s * p] and [fp = (1 - c) * (1 - p)], returns [tp / (tp + fp)]
    when [tp + fp === 0] is false and [NaN] when it is true.  This holds
    in every arithmetic, the doubles and the exact one alike. *)
Theorem ppv_computes (s c p : T) :
  let tp := mul s p in
  let fp := mul (sub (lit 1) c) (sub (lit 1) p) in
  (strict_eq (add tp fp) (lit 0) = false -> ppv s c p = div tp (add tp fp)) /\
  (strict_eq (add tp fp) (lit 0) = true -> ppv s c p = nan).
Proof.
  cbv zeta. unfold ppv. split; intros ->; reflexivity.
Qed.

(** C9: the cells of the diseased group, TP and FN, do not depend on the
    specificity, and the cells of the healthy group, TN and FP, do not
    depend on the sensitivity. *)
Theorem cells_independent (s s' c c' p population : T) :
  TP (ConfusionOutline s c p population) = TP (ConfusionOutline s c' p population) /\
  FN (ConfusionOutline s c p population) = FN (ConfusionOutline s c' p population) /\
  TN (ConfusionOutline s c p population) = TN (ConfusionOutline s' c p population) /\
  FP (ConfusionOutline s c p population) = FP (ConfusionOutline s' c p population).
Proof. repeat split. Qed.

(** C10: each setter of the Parameter Store installs its value and leaves
    the other two percentages as they were; and a change made through one
    of the three controls reaches the percentage that control shows and no
    other. *)
Theorem setters_frame (v : T) (st : params T) :
  (sensitivityPct (setSensitivityPct v st) = v /\
   specificityPct (setSensitivityPct v st) = specificityPct st /\
   prevalencePct (setSensitivityPct v st) = prevalencePct st) /\
  (specificityPct (setSpecificityPct v st) = v /\
   sensitivityPct (setSpecificityPct v st) = sensitivityPct st /\
   prevalencePct (setSpecificityPct v st) = prevalencePct st) /\
  (prevalencePct (setPrevalencePct v st) = v /\
   sensitivityPct (setPrevalencePct v st) = sensitivityPct st /\
   specificityPct (setPrevalencePct v st) = specificityPct st) /\
  (forall k k' : control,
     Control_value k' (Control_onChange k v st)
     = if control_eqb k k' then v else Control_value k' st).
Proof.
  split; [| split; [| split]]; try (repeat split).
  intros [] []; reflexivity.
Qed.

End Generic.

(** C1 at the default parameters (the division branch) and at prevalence 0
    with specificity 1 (the undefined branch). *)
Lemma ppv_computes_witness :
  ppv (T := number) (div (lit 90) (lit 100)) (div (lit 95) (lit 100))
      (div (lit 5) (lit 100))
  = S754_finite false 8763761437045285 (-54)
  /\ ppv (T := number) (div (lit 90) (lit 100)) (lit 1) (lit 0) = S754_nan.
Proof.
  split.
  - rewrite (proj1 (ppv_computes (T := number) _ _ _)); vm_compute; reflexivity.
  - rewrite (proj2 (ppv_computes (T := number) _ _ _)); vm_compute; reflexivity.
Defined.

(** ** The default parameters *)

(** C6: at the default parameters 90%, 95% and 5% the evaluator returns the
    double 8763761437045285 / 2^54 = 0.48648648648648624, which is within
    10^-15 of 0.045 / 0.0925 = 18/37 and is displayed as 48.65%; in exact
    arithmetic the result is 18/37. *)
Theorem ppv_default :
  App_ppv (T := number) initial = S754_finite false 8763761437045285 (-54) /\
  (Qabs (B2Q (App_ppv initial) - (18 # 37)) < 1 # 10 ^ 15)%Q /\
  fmtPct (App_ppv initial) = "48.65%"%string /\
  exists q, App_ppv (T := Exact.number) initial = Some q /\ (q == 18 # 37)%Q.
Proof.
  split; [vm_compute; reflexivity |].
  split; [vm_compute; reflexivity |].
  split; [vm_compute; reflexivity |].
  eexists. split; [vm_compute; reflexivity | vm_compute; reflexivity].
Qed.

(** ** The evaluator on probabilities *)

Lemma nonneg_fin_valid x : nonneg_fin x -> valid x = true.
Proof.
  destruct x as [s | s | | [|] m e]; cbn [nonneg_fin]; try contradiction;
    intros Hx; [reflexivity | exact Hx].
Qed.

Lemma probability_spec x :
  probability x = true <-> nonneg_fin x /\ (B2Q x <= 1)%Q.
Proof.
  unfold probability. rewrite andb_true_iff. split.
  - intros [Hv Hu]. apply in_unit_interval_spec; assumption.
  - intros [Hx H1]. pose proof (nonneg_fin_valid x Hx) as Hv.
    split; [exact Hv |]. apply in_unit_interval_spec; [exact Hv |]. now split.
Qed.

Lemma ppv_on_probabilities (s c p : number) :
  probability s = true -> probability c = true -> probability p = true ->
  (strict_eq (ppv_denom s c p) (lit 0) = true /\ ppv s c p = nan) \/
  (strict_eq (ppv_denom s c p) (lit 0) = false /\
   probability (ppv s c p) = true).
Proof.
  intros Hs Hc Hp.
  apply probability_spec in Hs as [Hs Hs1].
  apply probability_spec in Hc as [Hc Hc1].
  apply probability_spec in Hp as [Hp Hp1].
  destruct (ppv_unit s c p Hs Hs1 Hc Hc1 Hp Hp1) as [[Hz Hn] | (Hz & Hr & Hr1)].
  - left. split; assumption.
  - right. split; [assumption |]. apply probability_spec. now split.
Qed.

(** C5: for sensitivity, specificity and prevalence in [0, 1] the
    evaluator returns NaN when the denominator is zero, and otherwise a
    double in [0, 1]. *)
Theorem ppv_range (s c p : number) :
  probability s = true -> probability c = true -> probability p = true ->
  (strict_eq (ppv_denom s c p) (lit 0) = true /\ ppv s c p = nan) \/
  (strict_eq (ppv_denom s c p) (lit 0) = false /\
   probability (ppv s c p) = true).
Proof. exact (ppv_on_probabilities s c p). Qed.

Lemma ppv_range_witness :
  let s := div (lit 90) (lit 100) : number in
  let c := div (lit 95) (lit 100) : number in
  let p := div (lit 5) (lit 100) : number in
  (strict_eq (ppv_denom s c p) (lit 0) = true /\ ppv s c p = nan) \/
  (strict_eq (ppv_denom s c p) (lit 0) = false /\
   probability (ppv s c p) = true).
Proof. apply ppv_range; vm_compute; reflexivity. Defined.

(** C3 fails as stated: with the finite percentages 1e300, 95 and 1e300 in
    the store, the product [s * p] overflows, the denominator is infinite,
    not zero, and the result of the division is NaN. *)
Lemma ppv_nan_with_nonzero_denominator :
  let st := setPrevalencePct (lit (10 ^ 300))
              (setSensitivityPct (lit (10 ^ 300)) (initial (T := number))) in
  Number_isFinite (sensitivity st) = true /\
  Number_isFinite (specificity st) = true /\
  Number_isFinite (prevalence st) = true /\
  strict_eq (ppv_denom (sensitivity st) (specificity st) (prevalence st)) (lit 0)
  = false /\
  is_nan (App_ppv st) = true.
Proof. vm_compute. repeat split. Qed.

(** A division of a finite double by a finite double overflows or
    underflows, but is never NaN. *)
Lemma binary_round_aux_not_nan sx mx ex lx X :
  Loc X (shr_record_of_loc mx lx) ex ->
  is_nan (binary_round_aux prec emax sx mx ex lx) = false.
Proof.
  intros HL. rewrite binary_round_aux_eq. cbv zeta.
  set (p1 := shr_fexp prec emax mx ex lx).
  assert (H1 : 0 <= shr_m (fst p1)).
  { unfold p1, shr_fexp. apply (shr_Loc X _ ex _ HL). }
  pose proof (rne_spec (fst p1)) as [[Hm2 _] _].
  set (m2 := round_nearest_even (shr_m (fst p1)) (loc_of_shr_record (fst p1))) in *.
  set (p2 := shr_fexp prec emax m2 (snd p1) loc_Exact).
  assert (H2 : 0 <= shr_m (fst p2)).
  { unfold p2, shr_fexp.
    apply (shr_Loc (F m2 (snd p1)) _ (snd p1)).
    apply Loc_exact; [lia | reflexivity]. }
  destruct (shr_m (fst p2)) as [| q | q]; [reflexivity | | lia].
  destruct (_ <=? _); reflexivity.
Qed.

Lemma SFdiv_finite_not_nan sx mx ex sy my ey :
  is_nan (SFdiv prec emax (S754_finite sx mx ex) (S754_finite sy my ey)) = false.
Proof.
  cbn [SFdiv].
  destruct (SFdiv_core_binary_spec (Zpos mx) ex (Zpos my) ey)
    as (q & e' & l & E & _ & HL & _); [lia | lia |].
  rewrite E. apply (binary_round_aux_not_nan _ _ _ _ _ HL).
Qed.

(** When the quotient of line 20 is NaN. *)
Lemma quotient_nan (tp fp : number) :
  let denom := SFadd prec emax tp fp in
  SFeqb denom (S754_zero false) = false ->
  is_nan (SFdiv prec emax tp denom)
  = is_nan denom || (negb (Number_isFinite tp) && negb (Number_isFinite denom)).
Proof.
  cbv zeta. destruct tp as [st | st | | st mt et].
  - destruct (SFadd prec emax _ fp) as [sd | sd | | sd md ed]; intros Hz;
      try reflexivity. destruct sd; discriminate Hz.
  - destruct (SFadd prec emax _ fp) as [sd | sd | | sd md ed]; intros Hz;
      reflexivity.
  - intros _. reflexivity.
  - destruct (SFadd prec emax _ fp) as [sd | sd | | sd md ed]; intros Hz;
      try reflexivity.
    apply SFdiv_finite_not_nan.
Qed.

Lemma ppv_nan_cases (s c p : number) :
  is_nan (ppv s c p)
  = strict_eq (ppv_denom s c p) (lit 0)
    || is_nan (ppv_denom s c p)
    || (negb (Number_isFinite (mul s p))
        && negb (Number_isFinite (ppv_denom s c p))).
Proof.
  rewrite ppv_unfold. unfold ppv_denom.
  cbn [mul sub add div lit nan strict_eq binary64_arith]. rewrite of_Z_0.
  set (tp := SFmul prec emax s p).
  set (fp := SFmul prec emax (SFsub prec emax (of_Z 1) c)
                             (SFsub prec emax (of_Z 1) p)).
  destruct (SFeqb (SFadd prec emax tp fp) (S754_zero false)) eqn:Hz.
  - reflexivity.
  - rewrite (quotient_nan tp fp Hz). rewrite <- orb_assoc. reflexivity.
Qed.

(** The same call in the arithmetic that records the divisions. *)
Lemma ppv_traced (s c p : number) :
  let r := ppv (T := Traced.number)
             (Traced.input s) (Traced.input c) (Traced.input p) in
  Traced.value r = ppv s c p /\
  Traced.divisions r
  = if strict_eq (ppv_denom s c p) (lit 0) then []
    else [(mul s p, ppv_denom s c p)].
Proof.
  cbv zeta. unfold ppv, ppv_denom.
  cbn [mul sub add div lit nan strict_eq binary64_arith Traced.traced_arith].
  unfold Traced.traced_eq, Traced.traced_div, Traced.traced_op, Traced.input,
    Traced.value, Traced.divisions.
  cbn [fst snd app].
  destruct (SFeqb _ (of_Z 0)); split; reflexivity.
Qed.

(** C3, amended.  For every sensitivity, specificity and prevalence, any
    doubles whatever: when the computed denominator is exactly zero, [ppv]
    returns NaN; and it returns NaN only when the denominator is zero, or
    is NaN, or neither [tp] nor the denominator is finite.  For
    sensitivity, specificity and prevalence in [0, 1] it therefore returns
    NaN if and only if the denominator is exactly zero.  For prevalence 0
    and specificity 1 it returns NaN whatever the sensitivity.  And the
    run that records its divisions computes the same result and never
    divides by a zero: it divides at most once, [tp] by the denominator,
    and only when the denominator is not zero. *)
Theorem ppv_nan_iff :
  (forall s c p : number,
     strict_eq (ppv_denom s c p) (lit 0) = true -> ppv s c p = nan) /\
  (forall s c p : number,
     is_nan (ppv s c p)
     = strict_eq (ppv_denom s c p) (lit 0)
       || is_nan (ppv_denom s c p)
       || (negb (Number_isFinite (mul s p))
           && negb (Number_isFinite (ppv_denom s c p)))) /\
  (forall s c p : number,
     probability s = true -> probability c = true -> probability p = true ->
     is_nan (ppv s c p) = strict_eq (ppv_denom s c p) (lit 0)) /\
  (forall s : number, ppv s (lit 1) (lit 0) = nan) /\
  (forall s c p : number,
     let r := ppv (T := Traced.number)
                (Traced.input s) (Traced.input c) (Traced.input p) in
     Traced.value r = ppv s c p /\
     (Traced.divisions r = [] \/
      Traced.divisions r = [(mul s p, ppv_denom s c p)]) /\
     (forall a b : number,
        In (a, b) (Traced.divisions r) -> strict_eq b (lit 0) = false)).
Proof.
  split; [| split; [| split; [| split]]].
  - intros s c p Hz. rewrite ppv_unfold, Hz. reflexivity.
  - exact ppv_nan_cases.
  - intros s c p Hs Hc Hp.
    destruct (ppv_on_probabilities s c p Hs Hc Hp) as [[Hz Hn] | [Hz Hr]];
      rewrite Hz.
    + rewrite Hn. reflexivity.
    + apply probability_spec in Hr as [Hr _].
      destruct (ppv s c p) as [? | ? | | [|] ? ?]; cbn [nonneg_fin] in Hr;
        try contradiction; reflexivity.
  - intros s. destruct s as [[|] | [|] | | [|] m e]; vm_compute; reflexivity.
  - intros s c p r. subst r.
    destruct (ppv_traced s c p) as [Hv Hd]. cbv zeta in Hv, Hd.
    split; [exact Hv |]. rewrite Hd.
    destruct (strict_eq (ppv_denom s c p) (lit 0)) eqn:Hz.
    + split; [left; reflexivity |]. intros a b [].
    + split; [right; reflexivity |]. intros a b [Heq | []].
      inversion Heq; subst. exact Hz.
Qed.

Lemma ppv_nan_iff_witness :
  let s := div (lit 90) (lit 100) : number in
  let c := div (lit 95) (lit 100) : number in
  let p := div (lit 5) (lit 100) : number in
  ppv (lit 1) (sub (lit 0) (lit 1)) (lit 2) = (nan : number) /\
  is_nan (ppv s c p) = strict_eq (ppv_denom s c p) (lit 0) /\
  strict_eq (ppv_denom s c p) (lit 0) = false.
Proof.
  cbv zeta. destruct ppv_nan_iff as (Hif & _ & Hiff & _ & Hdiv).
  split; [| split].
  - apply Hif. vm_compute. reflexivity.
  - apply Hiff; vm_compute; reflexivity.
  - destruct (Hdiv (div (lit 90) (lit 100)) (div (lit 95) (lit 100))
                (div (lit 5) (lit 100))) as (_ & _ & Hnz).
    apply (Hnz (mul (div (lit 90) (lit 100)) (div (lit 5) (lit 100)))).
    vm_compute. left. reflexivity.
Defined.

(** ** Monotonicity in the prevalence *)

(** C4 fails as stated.  With sensitivity 1 and specificity 1 (so that
    s + c = 2 > 1) the false-positive term is zero and the evaluator
    returns 1 at prevalence 0.25 and at 0.5 alike.  And at the default
    sensitivity 0.9 and specificity 0.95 rounding makes the result decrease
    between two neighbouring doubles just above 0.24. *)
Lemma ppv_not_strictly_increasing :
  (let s := lit 1 : number in
   let c := lit 1 : number in
   let p1 := div (lit 25) (lit 100) : number in
   let p2 := div (lit 50) (lit 100) : number in
   SFltb (lit 1) (add s c) = true /\
   SFltb (lit 0) p1 = true /\ SFltb p1 p2 = true /\ SFltb p2 (lit 1) = true /\
   ppv s c p1 = lit 1 /\ ppv s c p2 = lit 1 /\
   SFltb (ppv s c p1) (ppv s c p2) = false) /\
  (let s := div (lit 90) (lit 100) : number in
   let c := div (lit 95) (lit 100) : number in
   let p1 := S754_finite false 8646911284551353 (-55) in
   let p2 := S754_finite false 8646911284551354 (-55) in
   SFltb (lit 1) (add s c) = true /\ SFltb c (lit 1) = true /\
   valid p1 = true /\ valid p2 = true /\
   SFltb (lit 0) p1 = true /\ SFltb p1 p2 = true /\ SFltb p2 (lit 1) = true /\
   SFltb (ppv s c p2) (ppv s c p1) = true).
Proof. vm_compute. repeat split. Qed.

(** On the prevalences the slider produces, 0.1% to 99.9%, the doubles
    computed at the default sensitivity and specificity do increase. *)
Lemma ppv_increasing_on_slider_grid :
  forallb
    (fun k =>
       SFltb (ppv (div (lit 90) (lit 100)) (div (lit 95) (lit 100))
                  (slider_prevalence k))
             (ppv (div (lit 90) (lit 100)) (div (lit 95) (lit 100))
                  (slider_prevalence (k + 1))))
    (map Z.of_nat (seq 1 998)) = true.
Proof. vm_compute. reflexivity. Qed.

Lemma Qdiv_lt_cross (a b c d : Q) :
  (0 < b -> 0 < d -> a * d < c * b -> a / b < c / d)%Q.
Proof.
  intros Hb Hd Hlt. apply Qlt_shift_div_r; [exact Hb |].
  assert (E : (c / d * b == c * b / d)%Q) by (field; lra).
  rewrite E. apply Qlt_shift_div_l; assumption.
Qed.

Lemma exact_ppv_value (s c p : Q) :
  (0 < s * p + (1 - c) * (1 - p))%Q ->
  ppv (T := Exact.number) (Some s) (Some c) (Some p)
  = Some (s * p / (s * p + (inject_Z 1 - c) * (inject_Z 1 - p)))%Q.
Proof.
  intros Hpos. unfold ppv.
  cbn [mul sub add div strict_eq lit nan Exact.exact_arith Exact.lift2
       Exact.exact_div Exact.exact_eq].
  assert (Hnz : Qeq_bool (s * p + (inject_Z 1 - c) * (inject_Z 1 - p)) (inject_Z 0) = false).
  { destruct (Qeq_bool _ _) eqn:E; [| reflexivity].
    apply Qeq_bool_iff in E. change (inject_Z 1) with 1%Q in E.
    change (inject_Z 0) with 0%Q in E. lra. }
  rewrite Hnz. change (Qeq_bool ?x 0) with (Qeq_bool x (inject_Z 0)).
  rewrite Hnz. reflexivity.
Qed.

(** C4, amended: in exact arithmetic, for every sensitivity s and
    specificity c with s + c > 1 and c < 1, the value of [ppv] is strictly
    increasing in the prevalence over (0, 1). *)
Theorem ppv_exact_increasing (s c p1 p2 : Q) :
  (1 < s + c)%Q -> (c < 1)%Q ->
  (0 < p1)%Q -> (p1 < p2)%Q -> (p2 < 1)%Q ->
  exists v1 v2,
    ppv (T := Exact.number) (Some s) (Some c) (Some p1) = Some v1 /\
    ppv (T := Exact.number) (Some s) (Some c) (Some p2) = Some v2 /\
    (v1 < v2)%Q.
Proof.
  intros Hsc Hc H1 H12 H2.
  assert (Hs : (0 < s)%Q) by lra.
  assert (Hd1 : (0 < s * p1 + (1 - c) * (1 - p1))%Q) by nra.
  assert (Hd2 : (0 < s * p2 + (1 - c) * (1 - p2))%Q) by nra.
  do 2 eexists. split; [apply exact_ppv_value; exact Hd1 |].
  split; [apply exact_ppv_value; exact Hd2 |].
  change (inject_Z 1) with 1%Q.
  apply Qdiv_lt_cross; [exact Hd1 | exact Hd2 |].
  assert (E : (s * p2 * (s * p1 + (1 - c) * (1 - p1))
               - s * p1 * (s * p2 + (1 - c) * (1 - p2))
               == s * (1 - c) * (p2 - p1))%Q) by ring.
  assert (0 < s * (1 - c) * (p2 - p1))%Q.
  { apply Qmult_lt_0_compat; [apply Qmult_lt_0_compat |]; lra. }
  lra.
Qed.

Lemma ppv_exact_increasing_witness :
  exists v1 v2,
    ppv (T := Exact.number) (Some (9 # 10)) (Some (95 # 100)) (Some (5 # 100))
    = Some v1 /\
    ppv (T := Exact.number) (Some (9 # 10)) (Some (95 # 100)) (Some (1 # 2))
    = Some v2 /\
    (v1 < v2)%Q.
Proof. apply ppv_exact_increasing; reflexivity. Defined.

(** ** The cells of the projector *)

Lemma count_holds N : count N = true -> exists n, holds N n.
Proof.
  unfold count. rewrite andb_true_iff. intros [Hv Hi].
  apply holds_of_integer; assumption.
Qed.

(** C8: for a population that is a non-negative integer and sensitivity,
    specificity and prevalence in [0, 1], each of the four cells is a
    non-negative integer. *)
Theorem cells_nonneg_integers (s c p population : number) :
  probability s = true -> probability c = true -> probability p = true ->
  count population = true ->
  let cs := ConfusionOutline s c p population in
  is_nonneg_integer (TP cs) = true /\ is_nonneg_integer (FP cs) = true /\
  is_nonneg_integer (TN cs) = true /\ is_nonneg_integer (FN cs) = true.
Proof.
  intros Hs Hc Hp HN cs. subst cs.
  apply probability_spec in Hs as [Hs Hs1].
  apply probability_spec in Hc as [Hc Hc1].
  apply probability_spec in Hp as [Hp Hp1].
  destruct (count_holds _ HN) as [nN HnN].
  destruct (projector_cells s c p population nN Hs Hs1 Hc Hc1 Hp Hp1 HnN)
    as (nd & ntp & nfn & ntn & nfp & _ & Htp & Hfn & Htn & Hfp & _).
  repeat split; eapply is_nonneg_integer_holds; eassumption.
Qed.

Lemma cells_nonneg_integers_witness :
  let cs := App_cells (T := number) initial in
  is_nonneg_integer (TP cs) = true /\ is_nonneg_integer (FP cs) = true /\
  is_nonneg_integer (TN cs) = true /\ is_nonneg_integer (FN cs) = true.
Proof. apply cells_nonneg_integers; vm_compute; reflexivity. Defined.

(** C2 fails as stated.  For the population 2^54, at prevalence 0.3,
    sensitivity 0.9 and specificity 0.95, the subtraction that computes
    [healthy] rounds, and the four cells sum to 2^54 - 1.  For the same
    population at prevalence 1 and sensitivity 2^-54, TP is 1, the
    subtraction that computes FN rounds back to 2^54, and TP + FN is one
    more than [round (population * prevalence)]. *)
Lemma cells_total_off_by_one :
  (let s := div (lit 90) (lit 100) : number in
   let c := div (lit 95) (lit 100) : number in
   let p := div (lit 30) (lit 100) : number in
   let population := lit (2 ^ 54) : number in
   probability s = true /\ probability c = true /\ probability p = true /\
   count population = true /\
   (B2Q population == inject_Z (2 ^ 54))%Q /\
   (cells_total (ConfusionOutline s c p population) == inject_Z (2 ^ 54 - 1))%Q) /\
  (let s := S754_finite false 4503599627370496 (-106) : number in
   let c := div (lit 95) (lit 100) : number in
   let p := lit 1 : number in
   let population := lit (2 ^ 54) : number in
   let cs := ConfusionOutline s c p population in
   probability s = true /\ probability c = true /\ probability p = true /\
   count population = true /\
   (B2Q (Math_round (mul population p)) == inject_Z (2 ^ 54))%Q /\
   (B2Q (TP cs) + B2Q (FN cs) == inject_Z (2 ^ 54 + 1))%Q).
Proof. vm_compute. repeat split. Qed.

(** C2, amended: for a population that is a non-negative integer up to
    2^53 and sensitivity, specificity and prevalence in [0, 1], the four
    cells sum exactly to the population, and TP + FN is exactly
    [round (population * prevalence)]. *)
Theorem cells_exact_totals (s c p population : number) :
  probability s = true -> probability c = true -> probability p = true ->
  count population = true -> SFleb population (lit (2 ^ 53)) = true ->
  let cs := ConfusionOutline s c p population in
  (cells_total cs == B2Q population)%Q /\
  (B2Q (TP cs) + B2Q (FN cs) == B2Q (Math_round (mul population p)))%Q.
Proof.
  intros Hs Hc Hp HN Hle cs. subst cs.
  apply probability_spec in Hs as [Hs Hs1].
  apply probability_spec in Hc as [Hc Hc1].
  apply probability_spec in Hp as [Hp Hp1].
  destruct (count_holds _ HN) as [nN HnN].
  assert (Hsmall : nN <= 2 ^ 53).
  { destruct HnN as (HNn & _ & VN). destruct holds_two53 as (H53 & _ & V53).
    change (lit (2 ^ 53)) with (of_Z (2 ^ 53)) in Hle.
    replace (of_Z (2 ^ 53)) with two53 in Hle by (vm_compute; reflexivity).
    apply SFleb_nonneg in Hle; [| assumption | assumption].
    rewrite VN, V53 in Hle. apply inj_le. exact Hle. }
  destruct (projector_cells s c p population nN Hs Hs1 Hc Hc1 Hp Hp1 HnN)
    as (nd & ntp & nfn & ntn & nfp & Hd & Htp & Hfn & Htn & Hfp & Hsum).
  destruct (Hsum Hsmall) as [E1 E2]. unfold cells_total.
  change (Math_round (mul population p)) with (diseased_of p population).
  destruct Hd as (_ & _ & ->). destruct Htp as (_ & _ & ->).
  destruct Hfn as (_ & _ & ->). destruct Htn as (_ & _ & ->).
  destruct Hfp as (_ & _ & ->). destruct HnN as (_ & _ & ->).
  rewrite <- !inject_Z_plus. split; apply inject_Z_injective; lia.
Qed.

Lemma cells_exact_totals_witness :
  let cs := App_cells (T := number) initial in
  (cells_total cs == B2Q (lit 10000))%Q /\
  (B2Q (TP cs) + B2Q (FN cs)
   == B2Q (Math_round (mul (lit 10000) (prevalence (T := number) initial))))%Q.
Proof. apply cells_exact_totals; vm_compute; reflexivity. Defined.

(** ** The display formatter *)

Local Open Scope string_scope.
Local Open Scope Z_scope.

Lemma is_digit_digit d : 0 <= d <= 9 -> is_digit (digit d) = true.
Proof.
  intros Hd.
  assert (C : d = 0 \/ d = 1 \/ d = 2 \/ d = 3 \/ d = 4 \/ d = 5 \/ d = 6
              \/ d = 7 \/ d = 8 \/ d = 9) by lia.
  repeat (destruct C as [-> | C]; [reflexivity |]). subst d. reflexivity.
Qed.

Lemma list_ascii_app (s1 s2 : string) :
  list_ascii_of_string (s1 ++ s2)
  = (list_ascii_of_string s1 ++ list_ascii_of_string s2)%list.
Proof. induction s1 as [| a s1 IH]; cbn; [reflexivity | now rewrite IH]. Qed.

Lemma decimal_aux_digits fuel : forall n acc,
  0 <= n ->
  forallb is_digit (list_ascii_of_string acc) = true ->
  forallb is_digit (list_ascii_of_string (decimal_aux fuel n acc)) = true /\
  (fuel <> O -> list_ascii_of_string (decimal_aux fuel n acc) <> nil).
Proof.
  induction fuel as [| fuel IH]; intros n acc Hn Hacc; cbn [decimal_aux].
  - split; [exact Hacc | congruence].
  - assert (Hd : is_digit (digit (n mod 10)) = true).
    { apply is_digit_digit. pose proof (Z.mod_pos_bound n 10 ltac:(lia)). lia. }
    assert (Hacc' : forallb is_digit
                      (list_ascii_of_string (String (digit (n mod 10)) acc)) = true).
    { cbn [list_ascii_of_string forallb]. now rewrite Hd, Hacc. }
    destruct (n <? 10).
    + split; [exact Hacc' | intros _; discriminate].
    + destruct (IH (n / 10) (String (digit (n mod 10)) acc)) as [H1 H2];
        [apply Z.div_pos; lia | exact Hacc' |].
      split; [exact H1 | intros _].
      destruct fuel as [| fuel']; [cbn [decimal_aux]; discriminate |].
      apply H2. discriminate.
Qed.

Lemma decimal_digits n :
  0 <= n ->
  exists c cs, list_ascii_of_string (decimal n) = c :: cs /\
               forallb is_digit (c :: cs) = true.
Proof.
  intros Hn. unfold decimal.
  destruct (decimal_aux_digits (S (Z.to_nat (Z.log2 n))) n "" Hn eq_refl)
    as [H1 H2].
  destruct (list_ascii_of_string _) as [| c cs]; [now elim H2 |].
  exists c, cs. split; [reflexivity | exact H1].
Qed.

Lemma two_decimals_render2 neg n :
  0 <= n -> two_decimals_pct (render2 neg n) = true.
Proof.
  intros Hn. unfold two_decimals_pct, render2.
  destruct (decimal_digits (n / 100) ltac:(apply Z.div_pos; lia))
    as (c & cs & Ec & Hcs).
  assert (H1 : is_digit (digit (n / 10 mod 10)) = true).
  { apply is_digit_digit. pose proof (Z.mod_pos_bound (n / 10) 10 ltac:(lia)). lia. }
  assert (H2 : is_digit (digit (n mod 10)) = true).
  { apply is_digit_digit. pose proof (Z.mod_pos_bound n 10 ltac:(lia)). lia. }
  rewrite !list_ascii_app, Ec.
  cbn [list_ascii_of_string].
  rewrite !app_assoc, rev_app_distr. cbn [rev app].
  rewrite H1, H2. cbn [Ascii.eqb Bool.eqb andb].
  rewrite rev_app_distr. cbn [rev app Ascii.eqb Bool.eqb andb].
  rewrite rev_involutive.
  destruct neg; cbn [list_ascii_of_string app].
  - rewrite Hcs. reflexivity.
  - destruct (Ascii.eqb_spec c "-") as [-> | _]; [| exact Hcs].
    cbn in Hcs. discriminate.
Qed.

Lemma string_app_assoc (a b c : string) : (a ++ b) ++ c = a ++ (b ++ c).
Proof. induction a as [| x a IH]; cbn; [reflexivity | now rewrite IH]. Qed.

Lemma fixed_text_2 n :
  0 <= n -> fixed_text 2 n ++ "%" = render2 false n.
Proof.
  intros Hn. unfold fixed_text, render2. change (10 ^ Z.of_nat 2) with 100.
  cbn [frac_digits]. cbn [append].
  rewrite !string_app_assoc. cbn [append].
  assert (E1 : (n mod 100 / 10) mod 10 = (n / 10) mod 10)
    by (Z.div_mod_to_equations; lia).
  assert (E2 : (n mod 100) mod 10 = n mod 10)
    by (Z.div_mod_to_equations; lia).
  rewrite E1, E2. reflexivity.
Qed.

Lemma render2_sign (s : bool) n :
  (if s then "-" else "") ++ render2 false n = render2 s n.
Proof. destruct s; reflexivity. Qed.

Lemma fixed_n_nonneg f m e : 0 <= fixed_n f m e.
Proof.
  unfold fixed_n.
  assert (0 < 10 ^ Z.of_nat f) by (apply Z.pow_pos_nonneg; lia).
  destruct (0 <=? e) eqn:He.
  - apply Z.leb_le in He. pos_pow2 e. nia.
  - apply Z.leb_gt in He.
    pos_pow2 (- e).
    pos_pow2 (- e + 1).
    apply Z.div_pos; nia.
Qed.

Lemma Qabs_B2Q_finite s m e :
  (Qabs (B2Q (S754_finite s m e)) == F (Zpos m) e)%Q.
Proof.
  pose proof (F_pos (Zpos m) e ltac:(lia)) as Hpos.
  destruct s; cbn [B2Q cond_Zopp].
  - fold (pow2 e). change (inject_Z (- Zpos m)) with (- inject_Z (Zpos m))%Q.
    setoid_replace (- inject_Z (Zpos m) * pow2 e)%Q with (- F (Zpos m) e)%Q
      by (unfold F; ring).
    rewrite Qabs_opp. apply Qabs_pos. lra.
  - fold (pow2 e). fold (F (Zpos m) e). apply Qabs_pos. lra.
Qed.

Lemma F_half m e : (F m (e - 1) == F m e * (1 # 2))%Q.
Proof.
  unfold F. unfold Z.sub. rewrite pow2_add.
  change (pow2 (- (1))) with (1 # 2)%Q. ring.
Qed.

Lemma half_int X k e :
  e + k = 0 -> 0 <= k -> (F (X * 2 ^ k) (e - 1) == inject_Z X * (1 # 2))%Q.
Proof.
  intros Hek Hk. rewrite F_shift by lia.
  replace (e - 1 + k) with (0 - 1) by lia. rewrite F_half, F_int. reflexivity.
Qed.

(** [fixed_n 2] is the integer nearest to a hundred times the magnitude,
    the larger one of two. *)
Lemma fixed_n_nearest m e :
  let n := fixed_n 2 m e in
  (inject_Z n - (1 # 2) <= 100 * F (Zpos m) e)%Q /\
  (100 * F (Zpos m) e < inject_Z n + (1 # 2))%Q.
Proof.
  cbv zeta. unfold fixed_n. change (10 ^ Z.of_nat 2) with 100.
  destruct (0 <=? e) eqn:He.
  - apply Z.leb_le in He.
    assert (EF : (F (Zpos m) e == inject_Z (Zpos m * 2 ^ e))%Q).
    { rewrite <- F_int, F_shift by lia. reflexivity. }
    rewrite EF. replace (100 * Zpos m * 2 ^ e) with (100 * (Zpos m * 2 ^ e)) by ring.
    rewrite inject_Z_mult. change (inject_Z 100) with 100%Q. split; lra.
  - apply Z.leb_gt in He. set (k := - e) in *.
    assert (Hk : 0 < k) by (unfold k; lia).
    assert (Hp : 0 < 2 ^ k) by (apply Z.pow_pos_nonneg; lia).
    assert (Hp2 : 2 ^ (k + 1) = 2 * 2 ^ k)
      by (rewrite Z.pow_add_r by lia; change (2 ^ 1) with 2; ring).
    rewrite Hp2. set (n := (2 * 100 * Zpos m + 2 ^ k) / (2 * 2 ^ k)).
    assert (Hdiv : 2 * 2 ^ k * n <= 2 * 100 * Zpos m + 2 ^ k
                   < 2 * 2 ^ k * (n + 1)).
    { unfold n. split.
      - apply Z.mul_div_le. lia.
      - rewrite Z.mul_add_distr_l, Z.mul_1_r.
        pose proof (Z.mul_succ_div_gt (2 * 100 * Zpos m + 2 ^ k) (2 * 2 ^ k) ltac:(lia)).
        lia. }
    assert (E100 : (100 * F (Zpos m) e == F (200 * Zpos m) (e - 1))%Q).
    { rewrite F_half. unfold F. rewrite inject_Z_mult.
      change (inject_Z 200) with 200%Q. ring. }
    assert (Elo : (inject_Z n - (1 # 2) == F ((2 * n - 1) * 2 ^ k) (e - 1))%Q).
    { rewrite half_int by (unfold k; lia). unfold Z.sub.
      rewrite inject_Z_plus, inject_Z_mult.
      change (inject_Z 2) with 2%Q. change (inject_Z (- (1))) with (- (1))%Q. ring. }
    assert (Ehi : (inject_Z n + (1 # 2) == F ((2 * n + 1) * 2 ^ k) (e - 1))%Q).
    { rewrite half_int by (unfold k; lia).
      rewrite inject_Z_plus, inject_Z_mult.
      change (inject_Z 2) with 2%Q. change (inject_Z 1) with 1%Q. ring. }
    rewrite E100, Elo, Ehi. split; [apply F_le | apply F_lt]; nia.
Qed.

Lemma fmtPct_not_finite x : Number_isFinite x = false -> fmtPct x = "n/a".
Proof. intros Hx. unfold fmtPct. now rewrite Hx. Qed.

Lemma fmtPct_in_range x :
  Number_isFinite x = true -> abs_lt_1e21 (mul x (lit 100)) = true ->
  exists n,
    0 <= n /\
    fmtPct x = render2 (is_negative (mul x (lit 100))) n /\
    (inject_Z n - (1 # 2) <= 100 * Qabs (B2Q (mul x (lit 100))))%Q /\
    (100 * Qabs (B2Q (mul x (lit 100))) < inject_Z n + (1 # 2))%Q.
Proof.
  intros Hx Hy. unfold fmtPct. rewrite Hx.
  destruct (mul x (lit 100)) as [s | s | | s m e]; cbn [abs_lt_1e21] in Hy;
    try discriminate.
  - exists 0. split; [lia |]. split; [vm_compute; reflexivity |].
    split; vm_compute; [discriminate | reflexivity].
  - apply negb_true_iff in Hy. cbn [Number_toFixed is_negative]. rewrite Hy.
    exists (fixed_n 2 m e). split; [apply fixed_n_nonneg |]. split.
    + rewrite string_app_assoc, fixed_text_2 by apply fixed_n_nonneg.
      rewrite render2_sign. destruct s; reflexivity.
    + rewrite Qabs_B2Q_finite. apply fixed_n_nearest.
Qed.

(** C7 fails as stated: 1e308 is finite, but a hundred times it overflows
    and the formatter returns "Infinity%"; and for 1e19, where the product
    reaches 1e21, [toFixed] switches to exponent notation. *)
Lemma fmtPct_finite_without_decimals :
  Number_isFinite (lit (10 ^ 308)) = true /\
  fmtPct (lit (10 ^ 308)) = "Infinity%" /\
  two_decimals_pct (fmtPct (lit (10 ^ 308))) = false /\
  Number_isFinite (lit (10 ^ 19)) = true /\
  fmtPct (lit (10 ^ 19)) = "1e+21%" /\
  two_decimals_pct (fmtPct (lit (10 ^ 19))) = false.
Proof. vm_compute. repeat split. Qed.

Lemma fmtPct_spec_aux (x : number) :
  (Number_isFinite x = false -> fmtPct x = "n/a") /\
  (Number_isFinite x = true -> abs_lt_1e21 (mul x (lit 100)) = true ->
   two_decimals_pct (fmtPct x) = true /\
   exists n,
     0 <= n /\
     fmtPct x = render2 (is_negative (mul x (lit 100))) n /\
     (inject_Z n - (1 # 2) <= 100 * Qabs (B2Q (mul x (lit 100))))%Q /\
     (100 * Qabs (B2Q (mul x (lit 100))) < inject_Z n + (1 # 2))%Q).
Proof.
  split; [apply fmtPct_not_finite |].
  intros Hx Hy. destruct (fmtPct_in_range x Hx Hy) as (n & Hn & E & Hacc).
  split.
  - rewrite E. apply two_decimals_render2. exact Hn.
  - exists n. split; [exact Hn |]. split; [exact E | exact Hacc].
Qed.

(** C7, amended: for every non-finite [x] the formatter returns "n/a"; for
    every finite [x] whose product [x * 100] is below 1e21 in magnitude it
    returns that product rounded to the nearest hundredth (of two equally
    near, the one larger in magnitude), written with its sign, exactly two
    decimal digits and "%". *)
Theorem fmtPct_spec (x : number) :
  (Number_isFinite x = false -> fmtPct x = "n/a") /\
  (Number_isFinite x = true -> abs_lt_1e21 (mul x (lit 100)) = true ->
   two_decimals_pct (fmtPct x) = true /\
   exists n,
     0 <= n /\
     fmtPct x = render2 (is_negative (mul x (lit 100))) n /\
     (inject_Z n - (1 # 2) <= 100 * Qabs (B2Q (mul x (lit 100))))%Q /\
     (100 * Qabs (B2Q (mul x (lit 100))) < inject_Z n + (1 # 2))%Q).
Proof. exact (fmtPct_spec_aux x). Qed.

Lemma fmtPct_spec_witness :
  fmtPct S754_nan = "n/a" /\
  two_decimals_pct
    (fmtPct (ppv (T := number) (div (lit 90) (lit 100)) (div (lit 95) (lit 100))
                 (div (lit 5) (lit 100)))) = true.
Proof.
  split.
  - apply (proj1 (fmtPct_spec S754_nan)). reflexivity.
  - apply (proj2 (fmtPct_spec _)); vm_compute; reflexivity.
Defined.

(** ** From the evaluator to the display *)

Lemma ge_1e21_spec m e :
  ge_1e21 m e = true <-> (inject_Z (10 ^ 21) <= F (Zpos m) e)%Q.
Proof.
  unfold ge_1e21. destruct (0 <=? e) eqn:He.
  - apply Z.leb_le in He. rewrite Z.leb_le.
    assert (EF : (F (Zpos m) e == inject_Z (Zpos m * 2 ^ e))%Q).
    { rewrite <- F_int, F_shift by lia. reflexivity. }
    rewrite EF. symmetry. apply inj_le.
  - apply Z.leb_gt in He. rewrite Z.leb_le.
    rewrite (inject_Z_F (10 ^ 21) e) by lia. symmetry. apply F_le.
Qed.

(** Whatever the probabilities, the readout is "n/a" or a percentage with
    two decimals. *)
Lemma readout_total (s c p : number) :
  probability s = true -> probability c = true -> probability p = true ->
  fmtPct (ppv s c p) = "n/a" \/ two_decimals_pct (fmtPct (ppv s c p)) = true.
Proof.
  intros Hs Hc Hp.
  destruct (ppv_on_probabilities s c p Hs Hc Hp) as [[_ Hn] | [_ Hr]].
  - left. rewrite Hn. reflexivity.
  - right. apply probability_spec in Hr as [Hr Hr1].
    assert (Hfin : Number_isFinite (ppv s c p) = true).
    { destruct (ppv s c p) as [? | ? | | [|] ? ?]; cbn [nonneg_fin] in Hr;
        try contradiction; reflexivity. }
    assert (H100 : nonneg_fin hundred /\ (B2Q hundred == 100)%Q)
      by (split; vm_compute; reflexivity).
    destruct H100 as [Hh Vh].
    destruct (SFmul_faithful (ppv s c p) hundred Hr Hh) as (Hy & Hu & _).
    { exists hundred. split; [exact Hh |].
      pose proof (B2Q_nonneg _ Hr). rewrite Vh. nra. }
    assert (Hle : (B2Q (SFmul prec emax (ppv s c p) hundred) <= B2Q hundred)%Q).
    { apply Hu; [exact Hh |]. pose proof (B2Q_nonneg _ Hr). rewrite Vh. nra. }
    apply (proj2 (fmtPct_spec_aux (ppv s c p)) Hfin).
    change (mul (ppv s c p) (lit 100)) with (SFmul prec emax (ppv s c p) (of_Z 100)).
    replace (of_Z 100) with hundred by (vm_compute; reflexivity).
    destruct (SFmul prec emax (ppv s c p) hundred) as [? | ? | | [|] m e];
      cbn [nonneg_fin] in Hy; try contradiction; [reflexivity |].
    cbn [abs_lt_1e21]. apply negb_true_iff.
    destruct (ge_1e21 m e) eqn:Hge; [exfalso | reflexivity].
    apply ge_1e21_spec in Hge. rewrite B2Q_finite_pos, Vh in Hle.
    assert (inject_Z (10 ^ 21) <= inject_Z 100)%Q by (change (inject_Z 100) with 100%Q; lra).
    apply inj_le in H. vm_compute in H. now elim H.
Qed.

(** * Further properties of the program *)

Import Screen.

(** ** The Parameter Store under a sequence of edits *)

Section Store.

Context {T : Type} `{Arith T}.

Lemma Control_value_onChange (k k' : control) (v : T) (st : params T) :
  Control_value k' (Control_onChange k v st)
  = if control_eqb k k' then v else Control_value k' st.
Proof. destruct k, k'; reflexivity. Qed.

(** X1: after any sequence of edits each percentage is the number last
    entered in its own control, and the initial one if that control was
    never touched; edits of the other controls, before or after, do not
    matter. *)
Theorem run_last_entry (evs : list (control * T)) (st : params T) (k : control) :
  Control_value k (run evs st)
  = match last_entry k evs with
    | Some v => v
    | None => Control_value k st
    end.
Proof.
  revert st. induction evs as [| [k' v] evs IH]; intros st; [reflexivity |].
  cbn [run fold_left last_entry] in *. fold (run evs (dispatch st (k', v))).
  rewrite IH. destruct (last_entry k evs); [reflexivity |].
  unfold dispatch. cbn [fst snd]. rewrite Control_value_onChange.
  destruct (control_eqb k' k); reflexivity.
Qed.

End Store.

(** ** From percentages to probabilities *)

Lemma percentage_spec v :
  percentage v = true <-> nonneg_fin v /\ (B2Q v <= 100)%Q.
Proof.
  assert (E100 : of_Z 100 = hundred) by (vm_compute; reflexivity).
  assert (H100 : nonneg_fin hundred) by (vm_compute; reflexivity).
  assert (V100 : (B2Q hundred == 100)%Q) by (vm_compute; reflexivity).
  unfold percentage. rewrite E100, !andb_true_iff. split.
  - intros [[Hv H0] H1].
    assert (Hx : nonneg_fin v).
    { unfold SFleb, SFcompare, hundred in H0, H1.
      destruct v as [s | [|] | | [|] m e]; try discriminate; try exact I.
      exact Hv. }
    split; [exact Hx |]. rewrite <- V100.
    apply SFleb_nonneg; assumption.
  - intros [Hx H1]. split; [split |].
    + apply nonneg_fin_valid, Hx.
    + apply SFleb_nonneg; [exact I | exact Hx |]. cbn [B2Q]. apply B2Q_nonneg, Hx.
    + apply SFleb_nonneg; [exact Hx | exact H100 |]. now rewrite V100.
Qed.

Lemma fraction_of_percentage v :
  percentage v = true -> probability (div v (lit 100)) = true.
Proof.
  intros Hv. apply percentage_spec in Hv as [Hx H100].
  apply probability_spec.
  cbn [div lit binary64_arith].
  replace (of_Z 100) with hundred by (vm_compute; reflexivity). unfold hundred.
  assert (Hb : bounded prec emax 7036874417766400 (-46) = true)
    by (vm_compute; reflexivity).
  assert (Vh : (F (Zpos 7036874417766400) (-46) == 100)%Q)
    by (vm_compute; reflexivity).
  assert (HX : (B2Q v / F (Zpos 7036874417766400) (-46) <= 1)%Q).
  { apply Qle_shift_div_r; [rewrite Vh; reflexivity |]. rewrite Vh. lra. }
  destruct (SFdiv_faithful v _ _ Hx Hb) as (Hr & Hu & _).
  { exists one. split; [exact nonneg_fin_one |]. now rewrite B2Q_one. }
  split; [exact Hr |].
  assert (H1 : (B2Q (SFdiv prec emax v (S754_finite false 7036874417766400 (-46)))
                <= B2Q one)%Q).
  { apply Hu; [exact nonneg_fin_one |]. now rewrite B2Q_one. }
  now rewrite B2Q_one in H1.
Qed.

(** X2: whenever the three percentages in the store lie in [0, 100], the
    sensitivity, specificity and prevalence the application derives from
    them (lines 11-13) are doubles in [0, 1]. *)
Theorem fractions_are_probabilities (st : params number) :
  percentages st = true ->
  probability (sensitivity st) = true /\
  probability (specificity st) = true /\
  probability (prevalence st) = true.
Proof.
  unfold percentages. rewrite !andb_true_iff. intros [[Hs Hc] Hp].
  repeat split; apply fraction_of_percentage; assumption.
Qed.

Lemma fractions_are_probabilities_witness :
  probability (sensitivity (T := number) initial) = true /\
  probability (specificity (T := number) initial) = true /\
  probability (prevalence (T := number) initial) = true.
Proof. apply fractions_are_probabilities. vm_compute. reflexivity. Defined.

(** ** Bounds on the cells *)

Lemma sub_le a b :
  nonneg_fin a -> nonneg_fin b -> (B2Q b <= B2Q a)%Q ->
  nonneg_fin (SFsub prec emax a b) /\ (B2Q (SFsub prec emax a b) <= B2Q a)%Q.
Proof.
  intros Ha Hb Hle. destruct (SFsub_faithful a b Ha Hb Hle) as (Hr & Hu & _).
  split; [exact Hr |]. apply Hu; [exact Ha |].
  pose proof (B2Q_nonneg b Hb). lra.
Qed.

(** One group of the projector: both cells stay within the group. *)
Lemma group_bounds d f nd :
  holds d nd -> nonneg_fin f -> (B2Q f <= 1)%Q ->
  let t := round (SFmul prec emax d f) in
  nonneg_fin t /\ (B2Q t <= B2Q d)%Q /\
  nonneg_fin (SFsub prec emax d t) /\ (B2Q (SFsub prec emax d t) <= B2Q d)%Q.
Proof.
  intros Hd Hf Hf1 t. subst t.
  destruct (group_cells d f nd Hd Hf Hf1) as (nt & nc & Ht & Hc & Hle & _).
  destruct Hd as (Hdn & Hnd & Vd). destruct Ht as (Htn & Hnt & Vt).
  assert (Htd : (B2Q (round (SFmul prec emax d f)) <= B2Q d)%Q).
  { rewrite Vt, Vd. apply inj_le. exact Hle. }
  split; [exact Htn |]. split; [exact Htd |].
  apply sub_le; assumption.
Qed.

Lemma cells_le_population s c p N :
  probability s = true -> probability c = true -> probability p = true ->
  count N = true ->
  let d := round (SFmul prec emax N p) in
  let cs := ConfusionOutline s c p N in
  (nonneg_fin d /\ (B2Q d <= B2Q N)%Q) /\
  (nonneg_fin (TP cs) /\ (B2Q (TP cs) <= B2Q d)%Q) /\
  (nonneg_fin (FN cs) /\ (B2Q (FN cs) <= B2Q d)%Q) /\
  (nonneg_fin (TN cs) /\ (B2Q (TN cs) <= B2Q N)%Q) /\
  (nonneg_fin (FP cs) /\ (B2Q (FP cs) <= B2Q N)%Q).
Proof.
  intros Hs Hc Hp HN d cs. subst d cs.
  apply probability_spec in Hs as [Hs Hs1].
  apply probability_spec in Hc as [Hc Hc1].
  apply probability_spec in Hp as [Hp Hp1].
  destruct (count_holds _ HN) as [nN HnN].
  unfold ConfusionOutline. cbn [TP FN TN FP mul sub Math_round binary64_arith].
  destruct (group_cells N p nN HnN Hp Hp1) as (nd & nh & Hd & Hh & _ & _).
  destruct (group_bounds N p nN HnN Hp Hp1) as (Hd1 & Hd2 & Hh1 & Hh2).
  destruct (group_bounds _ s nd Hd Hs Hs1) as (Ht1 & Ht2 & Hn1 & Hn2).
  destruct (group_bounds _ c nh Hh Hc Hc1) as (Hu1 & Hu2 & Hv1 & Hv2).
  cbv zeta in *.
  repeat split; try assumption; lra.
Qed.

(** X3: for a population that is a non-negative integer and sensitivity,
    specificity and prevalence in [0, 1], no cell exceeds the population,
    and TP and FN do not exceed the diseased count
    [round (population * prevalence)], as JavaScript's [<=] sees them. *)
Theorem cells_bounded (s c p population : number) :
  probability s = true -> probability c = true -> probability p = true ->
  count population = true ->
  let diseased := Math_round (mul population p) in
  let cs := ConfusionOutline s c p population in
  SFleb diseased population = true /\
  SFleb (TP cs) diseased = true /\ SFleb (FN cs) diseased = true /\
  SFleb (TP cs) population = true /\ SFleb (FN cs) population = true /\
  SFleb (TN cs) population = true /\ SFleb (FP cs) population = true.
Proof.
  intros Hs Hc Hp HN diseased cs. subst diseased cs.
  destruct (cells_le_population s c p population Hs Hc Hp HN)
    as ((Hd & Hd1) & (Ht & Ht1) & (Hn & Hn1) & (Hu & Hu1) & (Hv & Hv1)).
  cbv zeta in *. cbn [mul Math_round binary64_arith].
  assert (HNn : nonneg_fin population).
  { destruct (count_holds _ HN) as [nN HnN]. apply HnN. }
  repeat split; apply SFleb_nonneg; try assumption; lra.
Qed.

Lemma cells_bounded_witness :
  let cs := App_cells (T := number) initial in
  SFleb (TP cs) (lit 10000) = true /\ SFleb (FN cs) (lit 10000) = true /\
  SFleb (TN cs) (lit 10000) = true /\ SFleb (FP cs) (lit 10000) = true.
Proof.
  cbv zeta.
  pose proof (cells_bounded (sensitivity initial) (specificity initial)
                (prevalence initial) (lit 10000)) as Hb.
  destruct Hb as (_ & _ & _ & H1 & H2 & H3 & H4); try (vm_compute; reflexivity).
  repeat split; assumption.
Defined.

(** ** The count cards of the application *)

Lemma holds_10000 : holds (lit 10000 : number) 10000.
Proof. apply of_Z_exact. lia. Qed.

Lemma cells_of_10000 (s c p : number) :
  probability s = true -> probability c = true -> probability p = true ->
  let cs := ConfusionOutline s c p (lit 10000) in
  (is_nonneg_integer (TP cs) = true /\ is_nonneg_integer (FP cs) = true /\
   is_nonneg_integer (TN cs) = true /\ is_nonneg_integer (FN cs) = true) /\
  (SFleb (TP cs) (lit 10000) = true /\ SFleb (FP cs) (lit 10000) = true /\
   SFleb (TN cs) (lit 10000) = true /\ SFleb (FN cs) (lit 10000) = true) /\
  (cells_total cs == 10000)%Q.
Proof.
  intros Hs Hc Hp cs. subst cs.
  assert (HN : count (lit 10000 : number) = true) by (vm_compute; reflexivity).
  destruct (cells_le_population s c p (lit 10000) Hs Hc Hp HN)
    as ((Hd & Hd1) & (Ht & Ht1) & (Hn & Hn1) & (Hu & Hu1) & (Hv & Hv1)).
  cbv zeta in *.
  apply probability_spec in Hs as [Hs0 Hs1].
  apply probability_spec in Hc as [Hc0 Hc1].
  apply probability_spec in Hp as [Hp0 Hp1].
  destruct (projector_cells s c p (lit 10000) 10000 Hs0 Hs1 Hc0 Hc1 Hp0 Hp1
              holds_10000)
    as (nd & ntp & nfn & ntn & nfp & _ & Htp & Hfn & Htn & Hfp & Hsum).
  assert (HNn : nonneg_fin (lit 10000 : number)) by apply holds_10000.
  split; [| split].
  - repeat split; eapply is_nonneg_integer_holds; eassumption.
  - repeat split; apply SFleb_nonneg; try assumption.
    + exact (Qle_trans _ _ _ Ht1 Hd1).
    + exact (Qle_trans _ _ _ Hn1 Hd1).
  - destruct (Hsum ltac:(lia)) as [_ E]. unfold cells_total.
    destruct Htp as (_ & _ & ->). destruct Hfn as (_ & _ & ->).
    destruct Htn as (_ & _ & ->). destruct Hfp as (_ & _ & ->).
    rewrite <- !inject_Z_plus. change 10000%Q with (inject_Z 10000).
    apply inject_Z_injective. lia.
Qed.

(** X4: whenever the three percentages in the store lie in [0, 100], the
    four counts the application shows for its population of 10000 are
    non-negative integers, none above 10000, that add up to exactly
    10000. *)
Theorem App_cells_total (st : params number) :
  percentages st = true ->
  let cs := App_cells st in
  (is_nonneg_integer (TP cs) = true /\ is_nonneg_integer (FP cs) = true /\
   is_nonneg_integer (TN cs) = true /\ is_nonneg_integer (FN cs) = true) /\
  (SFleb (TP cs) (lit 10000) = true /\ SFleb (FP cs) (lit 10000) = true /\
   SFleb (TN cs) (lit 10000) = true /\ SFleb (FN cs) (lit 10000) = true) /\
  (cells_total cs == 10000)%Q.
Proof.
  intros Hst. unfold percentages in Hst. rewrite !andb_true_iff in Hst.
  destruct Hst as [[Hs Hc] Hp].
  apply cells_of_10000; apply fraction_of_percentage; assumption.
Qed.

Lemma App_cells_total_witness :
  (cells_total (App_cells (T := number)
                  (setPrevalencePct (div (lit 123) (lit 10)) initial))
   == 10000)%Q.
Proof. apply App_cells_total. vm_compute. reflexivity. Defined.

(** ** Extreme tests and extreme prevalences *)

Lemma SFeqb_nonneg x y :
  nonneg_fin x -> nonneg_fin y ->
  (SFeqb x y = true <-> (B2Q x == B2Q y)%Q).
Proof.
  intros Hx Hy. unfold SFeqb. rewrite SFcompare_nonneg by assumption.
  rewrite Qeq_alt. destruct (B2Q x ?= B2Q y)%Q; split; intros; congruence.
Qed.

Lemma nonneg_zero x :
  nonneg_fin x -> (B2Q x == 0)%Q -> exists s, x = S754_zero s.
Proof.
  intros Hx Hv. destruct x as [s | s | | [|] m e]; cbn [nonneg_fin] in Hx;
    try contradiction; [exists s; reflexivity |].
  rewrite B2Q_finite_pos in Hv. pose proof (F_pos (Zpos m) e ltac:(lia)). lra.
Qed.

Lemma canonical_unique m1 e1 m2 e2 :
  bounded prec emax m1 e1 = true -> bounded prec emax m2 e2 = true ->
  (F (Zpos m1) e1 == F (Zpos m2) e2)%Q -> m1 = m2 /\ e1 = e2.
Proof.
  intros H1 H2 Heq.
  assert (e1 = e2) as ->.
  { destruct (Z.lt_trichotomy e1 e2) as [Hlt | [E | Hgt]]; [exfalso | exact E | exfalso].
    - pose proof (canonical_exp_lt _ _ _ _ H1 H2 Hlt). lra.
    - pose proof (canonical_exp_lt _ _ _ _ H2 H1 Hgt). lra. }
  split; [| reflexivity]. apply F_eq in Heq. congruence.
Qed.

(** Two non-negative doubles with the same value differ at most in the sign
    of a zero. *)
Lemma value_unique x m e :
  nonneg_fin x -> bounded prec emax m e = true ->
  (B2Q x == F (Zpos m) e)%Q -> x = S754_finite false m e.
Proof.
  intros Hx Hb Hv. destruct x as [s | s | | [|] m' e']; cbn [nonneg_fin] in Hx;
    try contradiction.
  - exfalso. cbn [B2Q] in Hv. pose proof (F_pos (Zpos m) e ltac:(lia)). lra.
  - rewrite B2Q_finite_pos in Hv.
    destruct (canonical_unique _ _ _ _ Hx Hb Hv) as [-> ->]. reflexivity.
Qed.

(** A positive double divided by itself is exactly 1. *)
Lemma SFdiv_self m e :
  bounded prec emax m e = true ->
  SFdiv prec emax (S754_finite false m e) (S754_finite false m e) = one.
Proof.
  intros Hb. pose proof (F_pos (Zpos m) e ltac:(lia)) as Hpos.
  assert (HX : (B2Q (S754_finite false m e) / F (Zpos m) e == 1)%Q).
  { rewrite B2Q_finite_pos. field. lra. }
  destruct (SFdiv_faithful (S754_finite false m e) m e Hb Hb) as (Hr & Hu & Hl).
  { exists one. split; [exact nonneg_fin_one |]. rewrite HX, B2Q_one. lra. }
  apply value_unique; [exact Hr | vm_compute; reflexivity |].
  change (F (Zpos 4503599627370496) (-52)) with (B2Q one).
  apply Qle_antisym.
  - apply Hu; [exact nonneg_fin_one |]. rewrite HX, B2Q_one. lra.
  - apply Hl; [exact nonneg_fin_one |]. rewrite HX, B2Q_one. lra.
Qed.

Lemma mul_by_one d f :
  nonneg_fin d -> nonneg_fin f -> (B2Q f == 1)%Q ->
  nonneg_fin (SFmul prec emax d f) /\ (B2Q (SFmul prec emax d f) == B2Q d)%Q.
Proof.
  intros Hd Hf Hf1.
  assert (HX : (B2Q d * B2Q f == B2Q d)%Q) by (rewrite Hf1; ring).
  assert (HF : Faithful (B2Q d * B2Q f) (SFmul prec emax d f)).
  { apply SFmul_faithful; try assumption. exists d. split; [exact Hd |].
    rewrite HX. apply Qle_refl. }
  split; [apply HF |]. apply (Faithful_exact _ _ d HF Hd HX).
Qed.

Lemma mul_by_zero d f :
  nonneg_fin d -> nonneg_fin f -> (B2Q f == 0)%Q ->
  exists s, SFmul prec emax d f = S754_zero s.
Proof.
  intros Hd Hf Hf0. destruct (nonneg_zero f Hf Hf0) as [s ->].
  destruct d as [sd | sd | | [|] m e]; cbn [nonneg_fin] in Hd; try contradiction;
    cbn [SFmul]; eexists; reflexivity.
Qed.

Lemma zero_mul z f :
  nonneg_fin f -> exists s, SFmul prec emax (S754_zero z) f = S754_zero s.
Proof.
  intros Hf. destruct f as [sd | sd | | [|] m e]; cbn [nonneg_fin] in Hf;
    try contradiction; cbn [SFmul]; eexists; reflexivity.
Qed.

(** [Math.round] leaves an integral double as it is, in value. *)
Lemma round_of_integer x n : holds x n -> holds (round x) n.
Proof.
  intros (Hx & Hn & Hv).
  destruct (round_holds x n Hx) as (n' & Hh & Hle); [rewrite Hv; apply Qle_refl |].
  destruct x as [s | s | | [|] m e]; cbn [nonneg_fin] in Hx; try contradiction.
  - cbn [round]. repeat split; assumption.
  - cbn [round] in *. destruct (Z.leb_spec 0 e) as [Hpos | Hneg].
    + repeat split; assumption.
    + rewrite B2Q_finite_pos in Hv. cbn [cond_Zopp] in *.
      set (k := - e) in *. assert (Hk : 0 < k) by (unfold k; lia).
      pos_pow2 k.
      assert (Hp2 : 2 ^ (k + 1) = 2 * 2 ^ k)
        by (rewrite Z.pow_add_r by lia; change (2 ^ 1) with 2; ring).
      assert (Em : Zpos m = n * 2 ^ k).
      { apply (F_eq _ _ e). rewrite Hv. apply inject_Z_F. lia. }
      assert (En : (2 * Zpos m + 2 ^ k) / 2 ^ (k + 1) = n).
      { symmetry. apply (Z.div_unique _ _ _ (2 ^ k)); [lia |]. rewrite Hp2, Em. ring. }
      rewrite En in *.
      destruct (Z.eqb_spec n 0) as [-> | Hnz].
      * repeat split; try lia; reflexivity.
      * apply of_Z_exact. apply bounded_spec in Hx as (_ & Hm & _). nia.
Qed.

Lemma sub_same a b n :
  holds a n -> holds b n ->
  exists s, SFsub prec emax a b = S754_zero s.
Proof.
  intros (Ha & _ & Va) (Hb & _ & Vb).
  destruct (SFsub_faithful a b Ha Hb) as (Hr & Hu & _);
    [rewrite Va, Vb; apply Qle_refl |].
  apply nonneg_zero; [exact Hr |].
  apply Qle_antisym; [| apply B2Q_nonneg; exact Hr].
  apply (Hu (S754_zero false) I). cbn [B2Q]. rewrite Va, Vb. lra.
Qed.

Lemma sub_zero a s :
  nonneg_fin a -> (B2Q (SFsub prec emax a (S754_zero s)) == B2Q a)%Q.
Proof.
  intros Ha. destruct a as [sa | sa | | [|] m e]; cbn [nonneg_fin] in Ha;
    try contradiction; cbn [SFsub].
  - destruct sa, s; reflexivity.
  - reflexivity.
Qed.

(** One group of the projector at the two ends of its rate. *)
Lemma group_extremes d f nd :
  holds d nd -> nonneg_fin f ->
  let t := round (SFmul prec emax d f) in
  ((B2Q f == 1)%Q ->
   (B2Q t == B2Q d)%Q /\ exists s, SFsub prec emax d t = S754_zero s) /\
  ((B2Q f == 0)%Q ->
   (exists s, t = S754_zero s) /\ (B2Q (SFsub prec emax d t) == B2Q d)%Q).
Proof.
  intros Hd Hf t. subst t. pose proof Hd as (Hdn & Hnd & Vd). split.
  - intros H1. destruct (mul_by_one d f Hdn Hf H1) as [Hm Vm].
    assert (Ht : holds (round (SFmul prec emax d f)) nd).
    { apply round_of_integer. repeat split; try assumption. now rewrite Vm. }
    split; [| apply (sub_same d _ nd Hd Ht)].
    destruct Ht as (_ & _ & ->). now rewrite Vd.
  - intros H0. destruct (mul_by_zero d f Hdn Hf H0) as [s ->].
    cbn [round]. split; [exists s; reflexivity |]. apply sub_zero. exact Hdn.
Qed.

Lemma strict_eq_value x y :
  nonneg_fin x -> nonneg_fin y ->
  (strict_eq x y = true <-> (B2Q x == B2Q y)%Q).
Proof. exact (SFeqb_nonneg x y). Qed.

Lemma strict_eq_zero x :
  nonneg_fin x -> (strict_eq x (lit 0) = true <-> (B2Q x == 0)%Q).
Proof.
  intros Hx. cbn [lit binary64_arith]. rewrite of_Z_0.
  apply (strict_eq_value x (S754_zero false) Hx I).
Qed.

Lemma strict_eq_one x :
  nonneg_fin x -> (strict_eq x (lit 1) = true <-> (B2Q x == 1)%Q).
Proof.
  intros Hx. cbn [lit binary64_arith]. rewrite of_Z_1, <- B2Q_one.
  apply (strict_eq_value x one Hx nonneg_fin_one).
Qed.

(** One group of the projector at the two ends of its rate, as
    JavaScript's [===] sees the cells. *)
Lemma group_ends d f nd :
  holds d nd -> probability f = true ->
  let t := round (SFmul prec emax d f) in
  (strict_eq f (lit 1) = true ->
   strict_eq t d = true /\ strict_eq (SFsub prec emax d t) (lit 0) = true) /\
  (strict_eq f (lit 0) = true ->
   strict_eq t (lit 0) = true /\ strict_eq (SFsub prec emax d t) d = true).
Proof.
  intros Hd Hf t. apply probability_spec in Hf as [Hf Hf1].
  destruct (group_bounds d f nd Hd Hf Hf1) as (Ht & _ & Hc & _).
  destruct (group_extremes d f nd Hd Hf) as [E1 E0]. fold t in E1, E0, Ht, Hc.
  pose proof Hd as (Hdn & _ & _). split.
  - intros H1. apply strict_eq_one in H1; [| exact Hf].
    destruct (E1 H1) as [Vt [z Hz]]. split.
    + apply strict_eq_value; assumption.
    + apply strict_eq_zero; [exact Hc |]. rewrite Hz. reflexivity.
  - intros H0. apply strict_eq_zero in H0; [| exact Hf].
    destruct (E0 H0) as [[z Hz] Vc]. split.
    + apply strict_eq_zero; [exact Ht |]. rewrite Hz. reflexivity.
    + apply strict_eq_value; assumption.
Qed.

Lemma group_of_zero d f :
  holds d 0 -> probability f = true ->
  let t := round (SFmul prec emax d f) in
  strict_eq t (lit 0) = true /\ strict_eq (SFsub prec emax d t) (lit 0) = true.
Proof.
  intros Hd Hf t. apply probability_spec in Hf as [Hf Hf1].
  destruct (group_cells d f 0 Hd Hf Hf1) as (nt & nc & Ht & Hc & Hle & Hsum).
  fold t in Ht, Hc. specialize (Hsum ltac:(lia)).
  pose proof Ht as (Htn & Hnt & Vt). pose proof Hc as (Hcn & Hnc & Vc).
  assert (nt = 0) as -> by lia. assert (nc = 0) as -> by lia.
  split; apply strict_eq_zero; assumption.
Qed.

Lemma holds_strict_eq_zero x : nonneg_fin x -> strict_eq x (lit 0) = true -> holds x 0.
Proof.
  intros Hx H0. apply strict_eq_zero in H0; [| exact Hx].
  repeat split; [exact Hx | lia | exact H0].
Qed.

(** The two groups of [ConfusionOutline]: the diseased and the healthy. *)
Lemma groups_hold p N :
  probability p = true -> count N = true ->
  exists nN nd nh,
    holds N nN /\ holds (diseased_of p N) nd /\
    holds (sub N (diseased_of p N)) nh.
Proof.
  intros Hp HN. apply probability_spec in Hp as [Hp Hp1].
  destruct (count_holds _ HN) as [nN HnN].
  destruct (group_cells N p nN HnN Hp Hp1) as (nd & nh & Hd & Hh & _ & _).
  exists nN, nd, nh. repeat split; try apply HnN; try apply Hd; apply Hh.
Qed.

(** X5: with sensitivity, specificity and prevalence in [0, 1] and a
    population that is a non-negative integer, a sensitivity of exactly 1
    leaves no false negatives, [FN === 0] and [TP === diseased], and a
    sensitivity of exactly 0 leaves no true positives, [TP === 0] and
    [FN === diseased], where [diseased] is
    [Math.round(population * prevalence)]. *)
Theorem sensitivity_ends (s c p population : number) :
  probability s = true -> probability c = true -> probability p = true ->
  count population = true ->
  let diseased := diseased_of p population in
  let cs := ConfusionOutline s c p population in
  (strict_eq s (lit 1) = true ->
   strict_eq (TP cs) diseased = true /\ strict_eq (FN cs) (lit 0) = true) /\
  (strict_eq s (lit 0) = true ->
   strict_eq (TP cs) (lit 0) = true /\ strict_eq (FN cs) diseased = true).
Proof.
  intros Hs Hc Hp HN diseased cs. subst diseased cs.
  destruct (groups_hold p population Hp HN) as (nN & nd & nh & _ & Hd & _).
  exact (group_ends _ s nd Hd Hs).
Qed.

Lemma sensitivity_ends_witness :
  let p := div (lit 5) (lit 100) : number in
  let cs := ConfusionOutline (lit 1) (div (lit 95) (lit 100)) p (lit 10000) in
  strict_eq (TP cs) (diseased_of p (lit 10000)) = true /\
  strict_eq (FN cs) (lit 0) = true.
Proof.
  cbv zeta.
  pose proof (sensitivity_ends (lit 1) (div (lit 95) (lit 100))
                (div (lit 5) (lit 100)) (lit 10000)) as He.
  destruct He as [H1 _]; try (vm_compute; reflexivity).
  apply H1. vm_compute. reflexivity.
Defined.

(** X6: under the same conditions, a specificity of exactly 1 leaves no
    false positives, [FP === 0] and [TN === healthy], and a specificity of
    exactly 0 leaves no true negatives, [TN === 0] and [FP === healthy],
    where [healthy] is [population - Math.round(population * prevalence)]. *)
Theorem specificity_ends (s c p population : number) :
  probability s = true -> probability c = true -> probability p = true ->
  count population = true ->
  let healthy := sub population (diseased_of p population) in
  let cs := ConfusionOutline s c p population in
  (strict_eq c (lit 1) = true ->
   strict_eq (TN cs) healthy = true /\ strict_eq (FP cs) (lit 0) = true) /\
  (strict_eq c (lit 0) = true ->
   strict_eq (TN cs) (lit 0) = true /\ strict_eq (FP cs) healthy = true).
Proof.
  intros Hs Hc Hp HN healthy cs. subst healthy cs.
  destruct (groups_hold p population Hp HN) as (nN & nd & nh & _ & _ & Hh).
  exact (group_ends _ c nh Hh Hc).
Qed.

Lemma specificity_ends_witness :
  let p := div (lit 5) (lit 100) : number in
  let cs := ConfusionOutline (div (lit 90) (lit 100)) (lit 0) p (lit 10000) in
  strict_eq (TN cs) (lit 0) = true /\
  strict_eq (FP cs) (sub (lit 10000) (diseased_of p (lit 10000))) = true.
Proof.
  cbv zeta.
  pose proof (specificity_ends (div (lit 90) (lit 100)) (lit 0)
                (div (lit 5) (lit 100)) (lit 10000)) as He.
  destruct He as [_ H0]; try (vm_compute; reflexivity).
  apply H0. vm_compute. reflexivity.
Defined.

(** X7: under the same conditions, a prevalence of exactly 0 empties the
    diseased group, [TP === 0] and [FN === 0], and makes the healthy group
    the whole population; a prevalence of exactly 1 empties the healthy
    group, [TN === 0] and [FP === 0], and makes the diseased group the
    whole population. *)
Theorem prevalence_ends (s c p population : number) :
  probability s = true -> probability c = true -> probability p = true ->
  count population = true ->
  let diseased := diseased_of p population in
  let healthy := sub population diseased in
  let cs := ConfusionOutline s c p population in
  (strict_eq p (lit 0) = true ->
   strict_eq healthy population = true /\
   strict_eq (TP cs) (lit 0) = true /\ strict_eq (FN cs) (lit 0) = true) /\
  (strict_eq p (lit 1) = true ->
   strict_eq diseased population = true /\
   strict_eq (TN cs) (lit 0) = true /\ strict_eq (FP cs) (lit 0) = true).
Proof.
  intros Hs Hc Hp HN diseased healthy cs. subst diseased healthy cs.
  destruct (groups_hold p population Hp HN) as (nN & nd & nh & HnN & Hd & Hh).
  destruct (group_ends population p nN HnN Hp) as [E1 E0].
  unfold ConfusionOutline, diseased_of in *.
  cbn [TP FN TN FP mul sub Math_round binary64_arith] in *.
  split.
  - intros H0. destruct (E0 H0) as [Hz Hw]. split; [exact Hw |].
    apply group_of_zero; [| exact Hs].
    apply holds_strict_eq_zero; [apply Hd | exact Hz].
  - intros H1. destruct (E1 H1) as [Hw Hz]. split; [exact Hw |].
    apply group_of_zero; [| exact Hc].
    apply holds_strict_eq_zero; [apply Hh | exact Hz].
Qed.

Lemma prevalence_ends_witness :
  let cs := ConfusionOutline (T := number) (div (lit 90) (lit 100))
              (div (lit 95) (lit 100)) (lit 0) (lit 10000) in
  strict_eq (sub (lit 10000) (diseased_of (lit 0) (lit 10000))) (lit 10000) = true /\
  strict_eq (TP cs) (lit 0) = true /\ strict_eq (FN cs) (lit 0) = true.
Proof.
  cbv zeta.
  pose proof (prevalence_ends (div (lit 90) (lit 100)) (div (lit 95) (lit 100))
                (lit 0) (lit 10000)) as He.
  destruct He as [H0 _]; try (vm_compute; reflexivity).
  apply H0. vm_compute. reflexivity.
Defined.

(** ** The evaluator without false positives or without true positives *)

(** The smallest positive double. *)
Lemma gap_below_one m e :
  bounded prec emax m e = true -> (F (Zpos m) e < 1)%Q ->
  (F 1 (-1074) <= 1 - F (Zpos m) e)%Q.
Proof.
  intros Hb Hlt. apply bounded_spec in Hb as (He & _ & _).
  pose proof (F_shift (Zpos m) (-1074) (e + 1074) ltac:(lia)) as Hm.
  replace (-1074 + (e + 1074)) with e in Hm by lia.
  pose proof (inject_Z_F 1 (-1074) ltac:(lia)) as H1.
  change (inject_Z 1) with 1%Q in H1.
  set (P := 1 * 2 ^ (- -1074)) in *. set (M := Zpos m * 2 ^ (e + 1074)) in *.
  rewrite <- Hm, H1 in Hlt. apply F_lt in Hlt.
  rewrite <- Hm, H1, F_sub. apply F_le. lia.
Qed.

Lemma complement_is_zero x :
  nonneg_fin x -> (B2Q x <= 1)%Q ->
  ((B2Q (SFsub prec emax one x) == 0)%Q <-> (B2Q x == 1)%Q).
Proof.
  intros Hx Hx1.
  destruct (SFsub_faithful one x nonneg_fin_one Hx) as (Hr & Hu & Hl);
    [now rewrite B2Q_one |].
  split.
  - intros H0. apply Qle_antisym; [exact Hx1 |]. apply Qnot_lt_le. intros Hlt.
    assert (exists l, nonneg_fin l /\ (0 < B2Q l)%Q /\ (B2Q l <= 1 - B2Q x)%Q)
      as (l & Hln & Hlp & Hll).
    { destruct x as [s | s | | [|] m e]; cbn [nonneg_fin] in Hx; try contradiction.
      - exists one. split; [exact nonneg_fin_one |]. rewrite B2Q_one. cbn [B2Q].
        split; lra.
      - exists (S754_finite false 1 (-1074)).
        split; [vm_compute; reflexivity |]. rewrite !B2Q_finite_pos in *.
        split; [apply F_pos; lia | apply gap_below_one; assumption]. }
    assert (Hl' : (B2Q l <= B2Q (SFsub prec emax one x))%Q)
      by (apply Hl; [exact Hln | now rewrite B2Q_one]).
    lra.
  - intros H1. apply Qle_antisym; [| apply B2Q_nonneg; exact Hr].
    apply (Hu (S754_zero false) I). rewrite B2Q_one. cbn [B2Q]. lra.
Qed.

Lemma SFsub_one_zero z : SFsub prec emax one (S754_zero z) = one.
Proof. destruct z; reflexivity. Qed.

(** The false positive rate [(1 - c) * (1 - p)] vanishes when the
    specificity or the prevalence is 1. *)
Lemma no_false_positives c p :
  nonneg_fin c -> (B2Q c <= 1)%Q -> nonneg_fin p -> (B2Q p <= 1)%Q ->
  (B2Q c == 1)%Q \/ (B2Q p == 1)%Q ->
  exists z, SFmul prec emax (SFsub prec emax one c) (SFsub prec emax one p)
            = S754_zero z.
Proof.
  intros Hc Hc1 Hp Hp1 Hone.
  destruct (complement_unit c Hc Hc1) as [Hqc _].
  destruct (complement_unit p Hp Hp1) as [Hqp _].
  destruct Hone as [E | E].
  - apply (complement_is_zero c Hc Hc1) in E.
    destruct (nonneg_zero _ Hqc E) as [z ->]. apply zero_mul. exact Hqp.
  - apply (complement_is_zero p Hp Hp1) in E.
    apply mul_by_zero; assumption.
Qed.

Lemma fmtPct_one : fmtPct one = "100.00%".
Proof. vm_compute. reflexivity. Qed.

Lemma fmtPct_zero z : fmtPct (S754_zero z) = "0.00%".
Proof. destruct z; vm_compute; reflexivity. Qed.

Lemma ppv_without_fp (s c p : number) :
  probability s = true -> probability c = true -> probability p = true ->
  strict_eq c (lit 1) = true \/ strict_eq p (lit 1) = true ->
  ppv s c p = (if strict_eq (mul s p) (lit 0) then nan else lit 1).
Proof.
  intros Hs Hc Hp Hone.
  apply probability_spec in Hs as [Hs Hs1].
  apply probability_spec in Hc as [Hc Hc1].
  apply probability_spec in Hp as [Hp Hp1].
  assert (Hone' : (B2Q c == 1)%Q \/ (B2Q p == 1)%Q).
  { destruct Hone as [E | E]; [left | right]; apply strict_eq_one in E; assumption. }
  destruct (no_false_positives c p Hc Hc1 Hp Hp1 Hone') as [z Hz].
  destruct (mul_unit s p Hs Hs1 Hp Hp1) as [Htp _].
  unfold ppv. cbn [mul sub add div lit nan strict_eq binary64_arith].
  rewrite of_Z_1, of_Z_0, Hz.
  destruct (SFmul prec emax s p) as [zt | zt | | [|] m e]; cbn [nonneg_fin] in Htp;
    try contradiction.
  - destruct zt, z; reflexivity.
  - cbn [SFadd]. change (SFeqb (S754_finite false m e) (S754_zero false)) with false.
    cbv iota. apply SFdiv_self. exact Htp.
Qed.

(** X8: for sensitivity, specificity and prevalence in [0, 1], when the
    specificity or the prevalence is exactly 1 there are no false
    positives, and the evaluator returns exactly 1, read out as "100.00%",
    unless the product [sensitivity * prevalence] is zero, in which case it
    returns NaN, read out as "n/a". *)
Theorem ppv_without_false_positives (s c p : number) :
  probability s = true -> probability c = true -> probability p = true ->
  strict_eq c (lit 1) = true \/ strict_eq p (lit 1) = true ->
  ppv s c p = (if strict_eq (mul s p) (lit 0) then nan else lit 1) /\
  fmtPct (ppv s c p)
  = (if strict_eq (mul s p) (lit 0) then "n/a" else "100.00%").
Proof.
  intros Hs Hc Hp Hone. rewrite (ppv_without_fp s c p Hs Hc Hp Hone).
  split; [reflexivity |].
  destruct (strict_eq (mul s p) (lit 0)); [reflexivity |].
  cbn [lit binary64_arith]. rewrite of_Z_1. exact fmtPct_one.
Qed.

Lemma ppv_without_false_positives_witness :
  let s := div (lit 90) (lit 100) : number in
  let p := div (lit 5) (lit 100) : number in
  ppv s (lit 1) p = (if strict_eq (mul s p) (lit 0) then nan else lit 1) /\
  fmtPct (ppv s (lit 1) p)
  = (if strict_eq (mul s p) (lit 0) then "n/a" else "100.00%").
Proof.
  cbv zeta. apply ppv_without_false_positives;
    try (vm_compute; reflexivity).
  left. vm_compute. reflexivity.
Defined.

Lemma ppv_without_tp (s c p : number) :
  probability s = true -> probability c = true -> probability p = true ->
  strict_eq s (lit 0) = true \/ strict_eq p (lit 0) = true ->
  let fp := mul (sub (lit 1) c) (sub (lit 1) p) in
  if strict_eq fp (lit 0)
  then ppv s c p = nan
  else exists z, ppv s c p = S754_zero z.
Proof.
  intros Hs Hc Hp Hzero fp. subst fp.
  apply probability_spec in Hs as [Hs Hs1].
  apply probability_spec in Hc as [Hc Hc1].
  apply probability_spec in Hp as [Hp Hp1].
  assert (exists z, SFmul prec emax s p = S754_zero z) as [z Hz].
  { destruct Hzero as [E | E]; apply strict_eq_zero in E; try assumption.
    - destruct (nonneg_zero s Hs E) as [z ->]. apply zero_mul. exact Hp.
    - apply mul_by_zero; assumption. }
  destruct (complement_unit c Hc Hc1) as [Hqc Hqc1].
  destruct (complement_unit p Hp Hp1) as [Hqp Hqp1].
  destruct (mul_unit _ _ Hqc Hqc1 Hqp Hqp1) as [Hfp _].
  unfold ppv. cbn [mul sub add div lit nan strict_eq binary64_arith].
  rewrite of_Z_1, of_Z_0, Hz.
  destruct (SFmul prec emax (SFsub prec emax one c) (SFsub prec emax one p))
    as [zf | zf | | [|] m e]; cbn [nonneg_fin] in Hfp; try contradiction.
  - destruct z, zf; reflexivity.
  - cbn [SFadd]. change (SFeqb (S754_finite false m e) (S754_zero false)) with false.
    cbv iota. cbn [SFdiv]. eexists. reflexivity.
Qed.

(** X9: for sensitivity, specificity and prevalence in [0, 1], when the
    sensitivity or the prevalence is exactly 0 there are no true positives,
    and the evaluator returns a zero, read out as "0.00%", unless the false
    positive rate [(1 - specificity) * (1 - prevalence)] is zero as well,
    in which case it returns NaN, read out as "n/a". *)
Theorem ppv_without_true_positives (s c p : number) :
  probability s = true -> probability c = true -> probability p = true ->
  strict_eq s (lit 0) = true \/ strict_eq p (lit 0) = true ->
  let fp := mul (sub (lit 1) c) (sub (lit 1) p) in
  if strict_eq fp (lit 0)
  then ppv s c p = nan /\ fmtPct (ppv s c p) = "n/a"
  else strict_eq (ppv s c p) (lit 0) = true /\ fmtPct (ppv s c p) = "0.00%".
Proof.
  intros Hs Hc Hp Hzero fp.
  pose proof (ppv_without_tp s c p Hs Hc Hp Hzero) as Hv.
  cbv zeta in Hv. subst fp. revert Hv.
  destruct (strict_eq (mul (sub (lit 1) c) (sub (lit 1) p)) (lit 0)); intros Hv.
  - rewrite Hv. split; reflexivity.
  - destruct Hv as [z ->]. split; [destruct z; reflexivity | apply fmtPct_zero].
Qed.

Lemma ppv_without_true_positives_witness :
  let s := div (lit 90) (lit 100) : number in
  let c := div (lit 95) (lit 100) : number in
  strict_eq (ppv s c (lit 0)) (lit 0) = true /\
  fmtPct (ppv s c (lit 0)) = "0.00%".
Proof.
  cbv zeta.
  pose proof (ppv_without_true_positives (div (lit 90) (lit 100))
                (div (lit 95) (lit 100)) (lit 0)) as Hv.
  cbv zeta in Hv.
  replace (strict_eq (mul (sub (lit 1) (div (lit 95) (lit 100)))
                          (sub (lit 1) (lit 0 : number))) (lit 0))
    with false in Hv by (vm_compute; reflexivity).
  apply Hv; try (vm_compute; reflexivity). right. vm_compute. reflexivity.
Defined.

(** X10: for sensitivity and specificity in [0, 1], at a prevalence of
    exactly 0 the readout is "n/a" when the specificity is exactly 1 and
    "0.00%" otherwise; at a prevalence of exactly 1 it is "n/a" when the
    sensitivity is exactly 0 and "100.00%" otherwise. *)
Theorem readout_at_prevalence_ends (s c p : number) :
  probability s = true -> probability c = true -> probability p = true ->
  (strict_eq p (lit 0) = true ->
   fmtPct (ppv s c p) = if strict_eq c (lit 1) then "n/a" else "0.00%") /\
  (strict_eq p (lit 1) = true ->
   fmtPct (ppv s c p) = if strict_eq s (lit 0) then "n/a" else "100.00%").
Proof.
  intros Hs Hc Hp.
  pose proof Hs as [Hsn Hs1]%probability_spec.
  pose proof Hc as [Hcn Hc1]%probability_spec.
  pose proof Hp as [Hpn Hp1]%probability_spec.
  split.
  - intros H0. pose proof (ppv_without_tp s c p Hs Hc Hp (or_intror H0)) as Hv.
    cbv zeta in Hv.
    apply strict_eq_zero in H0; [| exact Hpn].
    destruct (nonneg_zero p Hpn H0) as [z ->].
    cbn [mul sub lit strict_eq binary64_arith] in Hv.
    rewrite of_Z_1, of_Z_0, SFsub_one_zero in Hv.
    destruct (complement_unit c Hcn Hc1) as [Hq _].
    destruct (mul_by_one _ one Hq nonneg_fin_one B2Q_one) as [Hm Vm].
    assert (Heq : SFeqb (SFmul prec emax (SFsub prec emax one c) one)
                    (S754_zero false) = strict_eq c (lit 1)).
    { apply eq_true_iff_eq. rewrite (strict_eq_one c Hcn).
      rewrite <- (complement_is_zero c Hcn Hc1), <- Vm.
      apply (strict_eq_value _ (S754_zero false) Hm I). }
    rewrite Heq in Hv. revert Hv. destruct (strict_eq c (lit 1)); intros Hv.
    + rewrite Hv. reflexivity.
    + destruct Hv as [z' ->]. apply fmtPct_zero.
  - intros H1. rewrite (ppv_without_fp s c p Hs Hc Hp (or_intror H1)).
    apply strict_eq_one in H1; [| exact Hpn].
    destruct (mul_by_one s p Hsn Hpn H1) as [Hm Vm].
    assert (Heq : strict_eq (mul s p) (lit 0) = strict_eq s (lit 0)).
    { apply eq_true_iff_eq. rewrite (strict_eq_zero s Hsn).
      rewrite <- Vm. apply strict_eq_zero. exact Hm. }
    rewrite Heq. destruct (strict_eq s (lit 0)); [reflexivity |].
    cbn [lit binary64_arith]. rewrite of_Z_1. exact fmtPct_one.
Qed.

Lemma readout_at_prevalence_ends_witness :
  fmtPct (ppv (T := number) (div (lit 90) (lit 100)) (lit 1) (lit 0))
  = (if strict_eq (lit 1 : number) (lit 1) then "n/a" else "0.00%").
Proof.
  assert (Hs : probability (div (lit 90) (lit 100)) = true)
    by (vm_compute; reflexivity).
  assert (Hc : probability (lit 1) = true) by (vm_compute; reflexivity).
  assert (Hp : probability (lit 0) = true) by (vm_compute; reflexivity).
  assert (H0 : strict_eq (lit 0 : number) (lit 0) = true)
    by (vm_compute; reflexivity).
  exact (proj1 (readout_at_prevalence_ends _ _ _ Hs Hc Hp) H0).
Defined.

(** ** The percentage labels *)

(** [fixed_n f] is the integer nearest to [10^f] times the magnitude, the
    larger one of two. *)
Lemma fixed_n_nearest_any f m e :
  let n := fixed_n f m e in
  let P := inject_Z (10 ^ Z.of_nat f) in
  (inject_Z n - (1 # 2) <= P * F (Zpos m) e)%Q /\
  (P * F (Zpos m) e < inject_Z n + (1 # 2))%Q.
Proof.
  cbv zeta. unfold fixed_n. set (p := 10 ^ Z.of_nat f).
  assert (Hp0 : 0 < p) by (apply Z.pow_pos_nonneg; lia).
  destruct (0 <=? e) eqn:He.
  - apply Z.leb_le in He.
    assert (EF : (F (Zpos m) e == inject_Z (Zpos m * 2 ^ e))%Q).
    { rewrite <- F_int, F_shift by lia. reflexivity. }
    rewrite EF. replace (p * Zpos m * 2 ^ e) with (p * (Zpos m * 2 ^ e)) by ring.
    rewrite inject_Z_mult. split; lra.
  - apply Z.leb_gt in He. set (k := - e) in *.
    assert (Hk : 0 < k) by (unfold k; lia).
    assert (Hp : 0 < 2 ^ k) by (apply Z.pow_pos_nonneg; lia).
    assert (Hp2 : 2 ^ (k + 1) = 2 * 2 ^ k)
      by (rewrite Z.pow_add_r by lia; change (2 ^ 1) with 2; ring).
    rewrite Hp2. set (n := (2 * p * Zpos m + 2 ^ k) / (2 * 2 ^ k)).
    assert (Hdiv : 2 * 2 ^ k * n <= 2 * p * Zpos m + 2 ^ k
                   < 2 * 2 ^ k * (n + 1)).
    { unfold n. split.
      - apply Z.mul_div_le. lia.
      - rewrite Z.mul_add_distr_l, Z.mul_1_r.
        pose proof (Z.mul_succ_div_gt (2 * p * Zpos m + 2 ^ k) (2 * 2 ^ k) ltac:(lia)).
        lia. }
    assert (EP : (inject_Z p * F (Zpos m) e == F (2 * p * Zpos m) (e - 1))%Q).
    { rewrite F_half. unfold F. rewrite !inject_Z_mult.
      change (inject_Z 2) with 2%Q. ring. }
    assert (Elo : (inject_Z n - (1 # 2) == F ((2 * n - 1) * 2 ^ k) (e - 1))%Q).
    { rewrite half_int by (unfold k; lia). unfold Z.sub.
      rewrite inject_Z_plus, inject_Z_mult.
      change (inject_Z 2) with 2%Q. change (inject_Z (- (1))) with (- (1))%Q. ring. }
    assert (Ehi : (inject_Z n + (1 # 2) == F ((2 * n + 1) * 2 ^ k) (e - 1))%Q).
    { rewrite half_int by (unfold k; lia).
      rewrite inject_Z_plus, inject_Z_mult.
      change (inject_Z 2) with 2%Q. change (inject_Z 1) with 1%Q. ring. }
    rewrite EP, Elo, Ehi. split; [apply F_le | apply F_lt]; nia.
Qed.

Lemma fixed_text_1 n :
  0 <= n -> fixed_text 1 n ++ "%" = render1 false n.
Proof.
  intros Hn. unfold fixed_text, render1. change (10 ^ Z.of_nat 1) with 10.
  cbn [frac_digits]. cbn [append].
  rewrite !string_app_assoc. cbn [append].
  assert (E : (n mod 10) mod 10 = n mod 10) by (Z.div_mod_to_equations; lia).
  rewrite E. reflexivity.
Qed.

Lemma render1_sign (s : bool) n :
  (if s then "-" else "") ++ render1 false n = render1 s n.
Proof. destruct s; reflexivity. Qed.

Lemma one_decimal_render1 neg n :
  0 <= n -> one_decimal_pct (render1 neg n) = true.
Proof.
  intros Hn. unfold one_decimal_pct, render1.
  destruct (decimal_digits (n / 10) ltac:(apply Z.div_pos; lia))
    as (c & cs & Ec & Hcs).
  assert (H1 : is_digit (digit (n mod 10)) = true).
  { apply is_digit_digit. pose proof (Z.mod_pos_bound n 10 ltac:(lia)). lia. }
  rewrite !list_ascii_app, Ec.
  cbn [list_ascii_of_string].
  rewrite !app_assoc, rev_app_distr. cbn [rev app].
  rewrite H1. cbn [Ascii.eqb Bool.eqb andb].
  rewrite rev_app_distr. cbn [rev app Ascii.eqb Bool.eqb andb].
  rewrite rev_involutive.
  destruct neg; cbn [list_ascii_of_string app].
  - cbn [Ascii.eqb Bool.eqb andb]. cbn [List.length Nat.eqb negb andb]. exact Hcs.
  - assert (Hc : is_digit c = true).
    { cbn [forallb] in Hcs. now apply andb_true_iff in Hcs as [? _]. }
    destruct (Ascii.eqb c "-") eqn:E; [| exact Hcs].
    apply Ascii.eqb_eq in E. subst c. discriminate Hc.
Qed.

Lemma pctLabel_in_range v :
  abs_lt_1e21 v = true ->
  exists n,
    0 <= n /\
    pctLabel v = render1 (is_negative v) n /\
    (inject_Z n - (1 # 2) <= 10 * Qabs (B2Q v))%Q /\
    (10 * Qabs (B2Q v) < inject_Z n + (1 # 2))%Q.
Proof.
  intros Hy. unfold pctLabel.
  destruct v as [s | s | | s m e]; cbn [abs_lt_1e21] in Hy; try discriminate.
  - exists 0. split; [lia |]. split; [vm_compute; reflexivity |].
    split; vm_compute; [discriminate | reflexivity].
  - apply negb_true_iff in Hy. cbn [Number_toFixed is_negative]. rewrite Hy.
    exists (fixed_n 1 m e). split; [apply fixed_n_nonneg |]. split.
    + rewrite string_app_assoc, fixed_text_1 by apply fixed_n_nonneg.
      rewrite render1_sign. destruct s; reflexivity.
    + rewrite Qabs_B2Q_finite. apply (fixed_n_nearest_any 1).
Qed.

Lemma pctLabel_not_finite v :
  Number_isFinite v = false ->
  pctLabel v = "NaN%" \/ pctLabel v = "Infinity%" \/ pctLabel v = "-Infinity%".
Proof.
  destruct v as [s | [|] | | s m e]; cbn [Number_isFinite]; try discriminate;
    intros _; cbn; auto.
Qed.

Lemma pctLabel_spec_aux (v : number) :
  (Number_isFinite v = false ->
   one_decimal_pct (pctLabel v) = false /\
   (pctLabel v = "NaN%" \/ pctLabel v = "Infinity%" \/ pctLabel v = "-Infinity%")) /\
  (abs_lt_1e21 v = true ->
   one_decimal_pct (pctLabel v) = true /\
   exists n,
     0 <= n /\
     pctLabel v = render1 (is_negative v) n /\
     (inject_Z n - (1 # 2) <= 10 * Qabs (B2Q v))%Q /\
     (10 * Qabs (B2Q v) < inject_Z n + (1 # 2))%Q).
Proof.
  split.
  - intros Hv. split; [| apply pctLabel_not_finite; exact Hv].
    destruct (pctLabel_not_finite v Hv) as [-> | [-> | ->]]; reflexivity.
  - intros Hy. destruct (pctLabel_in_range v Hy) as (n & Hn & E & Hacc).
    split.
    + rewrite E. apply one_decimal_render1. exact Hn.
    + exists n. split; [exact Hn |]. split; [exact E | exact Hacc].
Qed.

(** X11: the percentage labels, [`${v.toFixed(1)}%`].  For a [v] below
    1e21 in magnitude the label is the sign of [v], if negative, and the
    magnitude of [v] rounded to the nearest tenth (of two equally near, the
    larger: 0.25 gives 0.3% and -0.25 gives -0.3%), written with exactly
    one decimal digit and followed by "%".  Unlike the readout, the labels
    are not guarded: for a [v] that is not finite the label is "NaN%",
    "Infinity%" or "-Infinity%". *)
Theorem pctLabel_spec (v : number) :
  (Number_isFinite v = false ->
   one_decimal_pct (pctLabel v) = false /\
   (pctLabel v = "NaN%" \/ pctLabel v = "Infinity%" \/ pctLabel v = "-Infinity%")) /\
  (abs_lt_1e21 v = true ->
   one_decimal_pct (pctLabel v) = true /\
   exists n,
     0 <= n /\
     pctLabel v = render1 (is_negative v) n /\
     (inject_Z n - (1 # 2) <= 10 * Qabs (B2Q v))%Q /\
     (10 * Qabs (B2Q v) < inject_Z n + (1 # 2))%Q).
Proof. exact (pctLabel_spec_aux v). Qed.

Lemma pctLabel_spec_witness :
  one_decimal_pct (pctLabel S754_nan) = false /\
  one_decimal_pct (pctLabel (div (lit 123) (lit 10))) = true.
Proof.
  split.
  - apply (proj1 (pctLabel_spec S754_nan)). reflexivity.
  - apply (proj2 (pctLabel_spec _)). vm_compute. reflexivity.
Defined.

(** ** The positions of the sliders *)

Lemma on_grid (P : Z -> bool) :
  forallb P (map Z.of_nat (seq 0 1001)) = true ->
  forall k, 0 <= k <= 1000 -> P k = true.
Proof.
  intros Hall k Hk. rewrite forallb_forall in Hall. apply Hall.
  apply in_map_iff. exists (Z.to_nat k). split; [lia |].
  apply in_seq. lia.
Qed.

Lemma labels_on_grid :
  forallb (fun k => String.eqb (pctLabel (div (lit k) (lit 10))) (render1 false k))
          (map Z.of_nat (seq 0 1001)) = true.
Proof. vm_compute. reflexivity. Qed.

(** X12: the sliders move in steps of 0.1 from 0 to 100.  At the position
    [k] tenths, where the percentage is the double nearest to [k / 10], the
    label shows exactly the decimal numeral of [k / 10]: its integer part,
    a point, the digit [k mod 10], and "%". *)
Theorem label_on_slider (k : Z) :
  0 <= k <= 1000 ->
  pctLabel (div (lit k) (lit 10)) = render1 false k.
Proof.
  intros Hk. apply String.eqb_eq.
  exact (on_grid _ labels_on_grid k Hk).
Qed.

Lemma label_on_slider_witness :
  pctLabel (div (lit 123) (lit 10)) = render1 false 123.
Proof. apply label_on_slider. lia. Defined.

Lemma diseased_on_grid :
  forallb (fun k =>
             strict_eq (diseased_of (slider_prevalence k) (lit 10000))
                       (lit (10 * k))
             && strict_eq (sub (lit 10000)
                               (diseased_of (slider_prevalence k) (lit 10000)))
                          (lit (10000 - 10 * k)))
          (map Z.of_nat (seq 0 1001)) = true.
Proof. vm_compute. reflexivity. Qed.

(** X13: with the prevalence slider at [k] tenths of a percent, the
    diseased group of the 10,000 people is exactly [10 * k] and the healthy
    group exactly [10000 - 10 * k]: neither the two divisions that lead
    from the slider to the prevalence nor the multiplication by the
    population disturb the count. *)
Theorem diseased_on_slider (k : Z) :
  0 <= k <= 1000 ->
  let diseased := diseased_of (slider_prevalence k) (lit 10000) in
  strict_eq diseased (lit (10 * k)) = true /\
  strict_eq (sub (lit 10000) diseased) (lit (10000 - 10 * k)) = true.
Proof.
  intros Hk diseased. subst diseased. apply andb_true_iff.
  exact (on_grid _ diseased_on_grid k Hk).
Qed.

Lemma diseased_on_slider_witness :
  let diseased := diseased_of (slider_prevalence 123) (lit 10000) in
  strict_eq diseased (lit (10 * 123)) = true /\
  strict_eq (sub (lit 10000) diseased) (lit (10000 - 10 * 123)) = true.
Proof. apply diseased_on_slider. lia. Defined.

(** ** The whole screen *)

Lemma percentage_lt_1e21 v : percentage v = true -> abs_lt_1e21 v = true.
Proof.
  intros Hv. apply percentage_spec in Hv as [Hx H100].
  destruct v as [s | s | | [|] m e]; cbn [nonneg_fin] in Hx; try contradiction;
    [reflexivity |].
  cbn [abs_lt_1e21]. apply negb_true_iff.
  destruct (ge_1e21 m e) eqn:Hge; [exfalso | reflexivity].
  apply ge_1e21_spec in Hge. rewrite B2Q_finite_pos in H100.
  assert (H : (inject_Z (10 ^ 21) <= inject_Z 100)%Q)
    by (change (inject_Z 100) with 100%Q; lra).
  apply inj_le in H. vm_compute in H. now elim H.
Qed.

Lemma label_of_percentage v :
  percentage v = true -> one_decimal_pct (pctLabel v) = true.
Proof.
  intros Hv. apply (proj2 (pctLabel_spec_aux v)). apply percentage_lt_1e21, Hv.
Qed.

(** X14: whenever the three percentages in the store lie in [0, 100], the
    screen shows a readout that is "n/a" or a percentage with two decimals,
    and three labels that are percentages with one decimal. *)
Theorem App_view_texts (st : params number) :
  percentages st = true ->
  let v := App_view st in
  (readout v = "n/a" \/ two_decimals_pct (readout v) = true) /\
  one_decimal_pct (sensitivityLabel v) = true /\
  one_decimal_pct (specificityLabel v) = true /\
  one_decimal_pct (prevalenceLabel v) = true.
Proof.
  intros Hst v. subst v. unfold percentages in Hst.
  rewrite !andb_true_iff in Hst. destruct Hst as [[Hs Hc] Hp].
  cbn [App_view readout sensitivityLabel specificityLabel prevalenceLabel].
  split; [| repeat split; apply label_of_percentage; assumption].
  apply readout_total; apply fraction_of_percentage; assumption.
Qed.

Lemma App_view_texts_witness :
  let v := App_view initial in
  (readout v = "n/a" \/ two_decimals_pct (readout v) = true) /\
  one_decimal_pct (sensitivityLabel v) = true /\
  one_decimal_pct (specificityLabel v) = true /\
  one_decimal_pct (prevalenceLabel v) = true.
Proof. apply App_view_texts. vm_compute. reflexivity. Defined.

(** ** An entry that is not a number *)

Lemma is_nan_eq x : is_nan x = true -> x = S754_nan.
Proof. destruct x; cbn; intros; congruence. Qed.

Lemma mul_nan_l x : SFmul prec emax S754_nan x = S754_nan.
Proof. reflexivity. Qed.

Lemma mul_nan_r x : SFmul prec emax x S754_nan = S754_nan.
Proof. destruct x as [? | ? | | ? ? ?]; reflexivity. Qed.

Lemma add_nan_l x : SFadd prec emax S754_nan x = S754_nan.
Proof. reflexivity. Qed.

Lemma add_nan_r x : SFadd prec emax x S754_nan = S754_nan.
Proof. destruct x as [? | ? | | ? ? ?]; reflexivity. Qed.

Lemma sub_nan_r x : SFsub prec emax x S754_nan = S754_nan.
Proof. destruct x as [? | ? | | ? ? ?]; reflexivity. Qed.

Lemma sub_nan_l x : SFsub prec emax S754_nan x = S754_nan.
Proof. reflexivity. Qed.

Lemma div_nan_l x : SFdiv prec emax S754_nan x = S754_nan.
Proof. reflexivity. Qed.

Lemma div_nan_r x : SFdiv prec emax x S754_nan = S754_nan.
Proof. destruct x as [? | ? | | ? ? ?]; reflexivity. Qed.

(** The evaluator on a NaN: whichever argument it is, the result is NaN. *)
Lemma ppv_of_nan (s c p : number) :
  s = S754_nan \/ c = S754_nan \/ p = S754_nan -> ppv s c p = S754_nan.
Proof.
  intros Hn. unfold ppv. cbn [mul sub add div lit nan strict_eq binary64_arith].
  set (tp := SFmul prec emax s p).
  set (fp := SFmul prec emax (SFsub prec emax (of_Z 1) c)
                             (SFsub prec emax (of_Z 1) p)).
  assert (Hd : SFadd prec emax tp fp = S754_nan).
  { subst tp fp. destruct Hn as [-> | [-> | ->]].
    - apply add_nan_l.
    - rewrite sub_nan_r, mul_nan_l. apply add_nan_r.
    - rewrite mul_nan_r. apply add_nan_l. }
  rewrite Hd. change (SFeqb S754_nan (of_Z 0)) with false. cbv iota.
  apply div_nan_r.
Qed.

(** X15: a percentage in the store that is NaN (what [Number] makes of an
    entry that is not a numeral).  Whatever the other two percentages are,
    the readout is "n/a" and the label of that percentage is "NaN%".  A NaN
    sensitivity makes TP and FN NaN, a NaN specificity makes TN and FP NaN,
    and a NaN prevalence makes all four counts NaN. *)
Theorem nan_entry (st : params number) :
  (is_nan (sensitivityPct st) = true ->
   let v := App_view st in
   readout v = "n/a" /\ sensitivityLabel v = "NaN%" /\
   is_nan (TP (counts v)) = true /\ is_nan (FN (counts v)) = true) /\
  (is_nan (specificityPct st) = true ->
   let v := App_view st in
   readout v = "n/a" /\ specificityLabel v = "NaN%" /\
   is_nan (TN (counts v)) = true /\ is_nan (FP (counts v)) = true) /\
  (is_nan (prevalencePct st) = true ->
   let v := App_view st in
   readout v = "n/a" /\ prevalenceLabel v = "NaN%" /\
   is_nan (TP (counts v)) = true /\ is_nan (FN (counts v)) = true /\
   is_nan (TN (counts v)) = true /\ is_nan (FP (counts v)) = true).
Proof.
  destruct st as [sp cp pp].
  unfold App_view, App_ppv, App_cells, ConfusionOutline,
    sensitivity, specificity, prevalence.
  cbn [readout sensitivityLabel specificityLabel prevalenceLabel counts
       sensitivityPct specificityPct prevalencePct TP FP TN FN
       mul sub div Math_round binary64_arith].
  split; [| split]; intros Hn; apply is_nan_eq in Hn; subst; cbv zeta;
    rewrite ?div_nan_l.
  - rewrite ppv_of_nan by auto. rewrite mul_nan_r. cbn [round].
    rewrite sub_nan_r. repeat split.
  - rewrite ppv_of_nan by auto. rewrite mul_nan_r. cbn [round].
    rewrite sub_nan_r. repeat split.
  - rewrite ppv_of_nan by auto. rewrite mul_nan_r. cbn [round].
    rewrite sub_nan_r. repeat split.
Qed.

Lemma nan_entry_witness :
  let v := App_view (setPrevalencePct nan initial) in
  readout v = "n/a" /\ prevalenceLabel v = "NaN%" /\
  is_nan (TP (counts v)) = true /\ is_nan (FN (counts v)) = true /\
  is_nan (TN (counts v)) = true /\ is_nan (FP (counts v)) = true.
Proof. apply (proj2 (proj2 (nan_entry (setPrevalencePct nan initial)))). reflexivity. Defined.

(** ** The formula, evaluated without rounding *)

Lemma Qdiv_le_cross (a b c d : Q) :
  (0 < b -> 0 < d -> a * d <= c * b -> a / b <= c / d)%Q.
Proof.
  intros Hb Hd Hle. apply Qle_shift_div_r; [exact Hb |].
  assert (E : (c / d * b == c * b / d)%Q) by (field; lra).
  rewrite E. apply Qle_shift_div_l; assumption.
Qed.

Lemma Qcompare_div (a D p : Q) :
  (0 < D)%Q -> (a / D ?= p)%Q = (a ?= p * D)%Q.
Proof.
  intros HD. destruct (Qcompare_spec a (p * D)) as [Heq | Hlt | Hgt].
  - apply (proj1 (Qeq_alt _ _)). rewrite Heq. field. lra.
  - apply (proj1 (Qlt_alt _ _)). apply Qlt_shift_div_r; assumption.
  - apply (proj1 (Qgt_alt _ _)). apply Qlt_shift_div_l; assumption.
Qed.

(** X16: in exact arithmetic, for a prevalence strictly between 0 and 1
    and a positive denominator, the value of [ppv] compares to the
    prevalence as [sensitivity + specificity] compares to 1: a positive
    result of a test with [s + c > 1] raises the probability of disease
    above the prevalence, one with [s + c = 1] leaves it where it was, and
    one with [s + c < 1] lowers it. *)
Theorem ppv_exact_vs_prevalence (s c p : Q) :
  (0 < p)%Q -> (p < 1)%Q -> (0 < s * p + (1 - c) * (1 - p))%Q ->
  exists v,
    ppv (T := Exact.number) (Some s) (Some c) (Some p) = Some v /\
    (v ?= p)%Q = (s + c ?= 1)%Q.
Proof.
  intros Hp0 Hp1 Hd. eexists. split; [apply exact_ppv_value; exact Hd |].
  change (inject_Z 1) with 1%Q.
  rewrite Qcompare_div by exact Hd.
  set (D := (s * p + (1 - c) * (1 - p))%Q) in *.
  assert (Hpp : (0 < p * (1 - p))%Q) by (apply Qmult_lt_0_compat; lra).
  assert (E : (s * p - p * D == p * (1 - p) * (s + c - 1))%Q)
    by (unfold D; ring).
  destruct (Qcompare_spec (s + c) 1) as [Heq | Hlt | Hgt].
  - apply (proj1 (Qeq_alt _ _)). assert (s + c - 1 == 0)%Q as E0 by lra.
    assert (E1 : (p * (1 - p) * (s + c - 1) == 0)%Q) by (rewrite E0; ring).
    rewrite E1 in E. lra.
  - apply (proj1 (Qlt_alt _ _)).
    assert (H : (0 < p * (1 - p) * (1 - (s + c)))%Q)
      by (apply Qmult_lt_0_compat; lra).
    assert (E2 : (p * (1 - p) * (1 - (s + c)) == p * D - s * p)%Q)
      by (unfold D; ring).
    rewrite E2 in H. lra.
  - apply (proj1 (Qgt_alt _ _)).
    assert (H : (0 < p * (1 - p) * (s + c - 1))%Q)
      by (apply Qmult_lt_0_compat; lra).
    rewrite <- E in H. lra.
Qed.

Lemma ppv_exact_vs_prevalence_witness :
  exists v,
    ppv (T := Exact.number) (Some (9 # 10)) (Some (95 # 100)) (Some (5 # 100))
    = Some v /\
    (v ?= 5 # 100)%Q = ((9 # 10) + (95 # 100) ?= 1)%Q.
Proof. apply ppv_exact_vs_prevalence; reflexivity. Defined.

(** X17: in exact arithmetic, at a prevalence strictly between 0 and 1,
    the value of [ppv] does not decrease when the sensitivity or the
    specificity increases within [0, 1]. *)
Theorem ppv_exact_monotone_in_rates (s1 s2 c1 c2 p : Q) :
  (0 < p)%Q -> (p < 1)%Q ->
  (0 <= s1)%Q -> (s1 <= s2)%Q -> (c1 <= c2)%Q -> (c2 <= 1)%Q ->
  (0 < s1 * p + (1 - c1) * (1 - p))%Q ->
  (0 < s2 * p + (1 - c2) * (1 - p))%Q ->
  exists v1 v2,
    ppv (T := Exact.number) (Some s1) (Some c1) (Some p) = Some v1 /\
    ppv (T := Exact.number) (Some s2) (Some c2) (Some p) = Some v2 /\
    (v1 <= v2)%Q.
Proof.
  intros Hp0 Hp1 Hs0 Hs Hc Hc1 Hd1 Hd2.
  do 2 eexists. split; [apply exact_ppv_value; exact Hd1 |].
  split; [apply exact_ppv_value; exact Hd2 |].
  change (inject_Z 1) with 1%Q.
  apply Qdiv_le_cross; [exact Hd1 | exact Hd2 |].
  assert (E : (s2 * p * (s1 * p + (1 - c1) * (1 - p))
               - s1 * p * (s2 * p + (1 - c2) * (1 - p))
               == p * (1 - p) * (s2 * (1 - c1) - s1 * (1 - c2)))%Q) by ring.
  assert (Hpp : (0 < p * (1 - p))%Q) by (apply Qmult_lt_0_compat; lra).
  assert (H1 : (0 <= s2 * (1 - c1) - s1 * (1 - c2))%Q).
  { assert (0 <= (s2 - s1) * (1 - c1))%Q by (apply Qmult_le_0_compat; lra).
    assert (0 <= s1 * (c2 - c1))%Q by (apply Qmult_le_0_compat; lra).
    lra. }
  assert (0 <= p * (1 - p) * (s2 * (1 - c1) - s1 * (1 - c2)))%Q
    by (apply Qmult_le_0_compat; lra).
  lra.
Qed.

Lemma ppv_exact_monotone_in_rates_witness :
  exists v1 v2,
    ppv (T := Exact.number) (Some (9 # 10)) (Some (9 # 10)) (Some (5 # 100))
    = Some v1 /\
    ppv (T := Exact.number) (Some (95 # 100)) (Some (99 # 100)) (Some (5 # 100))
    = Some v2 /\
    (v1 <= v2)%Q.
Proof. apply ppv_exact_monotone_in_rates; vm_compute; congruence. Defined.

(** ** How far the doubles are from the exact values *)

Lemma pow2_inv e : (pow2 e * pow2 (- e) == 1)%Q.
Proof.
  rewrite <- pow2_add. replace (e + - e) with 0 by lia. reflexivity.
Qed.

Lemma F_one e : (F 1 e == pow2 e)%Q.
Proof. unfold F. change (inject_Z 1) with 1%Q. ring. Qed.

Lemma F_exp_le m e1 e2 : 0 <= m -> e1 <= e2 -> (F m e1 <= F m e2)%Q.
Proof.
  intros Hm He. unfold F. pose proof (pow2_le e1 e2 He).
  assert (0 <= inject_Z m)%Q by (apply (proj2 (inj_le 0 m)); exact Hm).
  pose proof (pow2_pos e1). nra.
Qed.

(** A real in the normal range lies between two neighbouring doubles of one
    binade. *)
Lemma neighbours X :
  (pow2 (-1022) <= X)%Q -> (X <= pow2 1022)%Q ->
  exists M e,
    2 ^ 52 <= M < 2 ^ 53 /\ -1074 <= e <= 970 /\
    (F M e <= X)%Q /\ (X < F (M + 1) e)%Q.
Proof.
  intros Hlo Hhi.
  set (N := Qfloor (X * pow2 1074)).
  pose proof (Qfloor_le (X * pow2 1074)) as HNle. fold N in HNle.
  pose proof (Qlt_floor (X * pow2 1074)) as HNlt. fold N in HNlt.
  pose proof (pow2_pos 1074) as HP. pose proof (pow2_pos (-1074)) as HPi.
  pose proof (pow2_inv 1074) as HPP. change (- 1074) with (-1074) in HPP.
  assert (H52 : (pow2 (-1022) * pow2 1074 == inject_Z (2 ^ 52))%Q).
  { rewrite <- pow2_add. change (-1022 + 1074) with 52. apply pow2_Z. lia. }
  assert (H2096 : (pow2 1022 * pow2 1074 == inject_Z (2 ^ 2096))%Q).
  { rewrite <- (pow2_Z 2096) by lia. change 2096 with (1022 + 1074) at 1.
    rewrite pow2_add. reflexivity. }
  assert (HN52 : 2 ^ 52 <= N).
  { unfold N. rewrite <- (Qfloor_Z (2 ^ 52)). apply Qfloor_resp_le.
    rewrite <- H52. apply Qmult_le_compat_r; [exact Hlo | lra]. }
  assert (HN2096 : N <= 2 ^ 2096).
  { unfold N. rewrite <- (Qfloor_Z (2 ^ 2096)). apply Qfloor_resp_le.
    rewrite <- H2096. apply Qmult_le_compat_r; [exact Hhi | lra]. }
  assert (HNpos : 0 < N) by (pos_pow2 52; lia).
  destruct (Z.log2_spec N HNpos) as [Hk1 Hk2]. set (k := Z.log2 N) in *.
  assert (Hk52 : 52 <= k).
  { unfold k. rewrite <- (Z.log2_pow2 52) by lia. apply Z.log2_le_mono. exact HN52. }
  assert (Hk2096 : k <= 2096).
  { unfold k. rewrite <- (Z.log2_pow2 2096) by lia. apply Z.log2_le_mono.
    exact HN2096. }
  set (j := k - 52). assert (Hj : 0 <= j <= 2044) by (unfold j; lia).
  pos_pow2 j.
  assert (Ek : 2 ^ k = 2 ^ 52 * 2 ^ j).
  { rewrite <- Z.pow_add_r by lia. f_equal. unfold j. lia. }
  assert (Ek1 : 2 ^ Z.succ k = 2 ^ 53 * 2 ^ j).
  { rewrite Z.pow_succ_r by lia. rewrite Ek. change (2 ^ 53) with (2 * 2 ^ 52). ring. }
  set (M := N / 2 ^ j).
  assert (HM : M * 2 ^ j <= N < (M + 1) * 2 ^ j).
  { unfold M. pose proof (Z.mul_div_le N (2 ^ j) ltac:(lia)).
    pose proof (Z.mul_succ_div_gt N (2 ^ j) ltac:(lia)). lia. }
  assert (HM52 : 2 ^ 52 <= M).
  { unfold M. apply Z.div_le_lower_bound; lia. }
  assert (HM53 : M < 2 ^ 53).
  { unfold M. apply Z.div_lt_upper_bound; lia. }
  exists M, (j - 1074). split; [lia |]. split; [lia |].
  assert (E : (X * pow2 1074 * pow2 (-1074) == X)%Q).
  { rewrite <- Qmult_assoc, HPP. ring. }
  assert (EN : (inject_Z N * pow2 (-1074) <= X)%Q).
  { apply Qle_trans with (X * pow2 1074 * pow2 (-1074))%Q.
    - apply Qmult_le_compat_r; [exact HNle | lra].
    - rewrite E. apply Qle_refl. }
  assert (EN1 : (X < inject_Z (N + 1) * pow2 (-1074))%Q).
  { apply Qle_lt_trans with (X * pow2 1074 * pow2 (-1074))%Q.
    - rewrite E. apply Qle_refl.
    - apply Qmult_lt_compat_r; [lra | exact HNlt]. }
  replace (j - 1074) with (-1074 + j) by lia.
  rewrite <- !F_shift by lia. split.
  - apply Qle_trans with (F N (-1074)); [apply F_le; lia | exact EN].
  - apply Qlt_le_trans with (F (N + 1) (-1074)); [exact EN1 | apply F_le; lia].
Qed.

(** A double for each mantissa below [2^53] in the normal range. *)
Lemma double_of M e :
  2 ^ 52 <= M <= 2 ^ 53 -> -1074 <= e <= 970 ->
  exists d, nonneg_fin d /\ (B2Q d == F M e)%Q.
Proof.
  intros HM He. destruct (Z.eq_dec M (2 ^ 53)) as [-> | Hne].
  - exists (S754_finite false (Z.to_pos (2 ^ 52)) (e + 1)). split.
    + cbn [nonneg_fin]. apply bounded_spec. rewrite Z2Pos.id by lia. lia.
    + rewrite B2Q_finite_pos, Z2Pos.id by lia.
      rewrite <- F_shift by lia. change (2 ^ 52 * 2 ^ 1) with (2 ^ 53). reflexivity.
  - exists (S754_finite false (Z.to_pos M) e). split.
    + cbn [nonneg_fin]. apply bounded_spec. rewrite Z2Pos.id by lia. lia.
    + rewrite B2Q_finite_pos, Z2Pos.id by lia. reflexivity.
Qed.

(** The relative error of a faithful rounding in the normal range is at
    most [2^-52 = 1 / 4503599627370496]. *)
Lemma Faithful_rel_normal X r :
  Faithful X r -> (X == 0)%Q \/ (pow2 (-1022) <= X)%Q -> (X <= pow2 1022)%Q ->
  ((1 - (1 # 4503599627370496)) * X <= B2Q r)%Q /\
  (B2Q r <= (1 + (1 # 4503599627370496)) * X)%Q.
Proof.
  intros (Hr & Hu & Hl) [H0 | Hn] H2.
  - assert (B2Q r == 0)%Q as ->.
    { apply Qle_antisym; [| apply B2Q_nonneg; exact Hr].
      apply (Hu (S754_zero false) I). cbn [B2Q]. lra. }
    rewrite H0. split; lra.
  - destruct (neighbours X Hn H2) as (M & e & HM & He & Hlo & Hhi).
    destruct (double_of M e ltac:(lia) ltac:(lia)) as (dl & Hdl & Vl).
    destruct (double_of (M + 1) e ltac:(lia) ltac:(lia)) as (du & Hdu & Vu).
    assert (Hrl : (F M e <= B2Q r)%Q).
    { rewrite <- Vl. apply Hl; [exact Hdl |]. rewrite Vl. exact Hlo. }
    assert (Hru : (B2Q r <= F (M + 1) e)%Q).
    { rewrite <- Vu. apply Hu; [exact Hdu |]. rewrite Vu. lra. }
    assert (Hstep : (F (M + 1) e == F M e + F 1 e)%Q) by (rewrite F_add; reflexivity).
    assert (Hulp : (F 1 e <= (1 # 4503599627370496) * F M e)%Q).
    { assert (E : ((1 # 4503599627370496) * F M e == F M (e - 52))%Q).
      { unfold F. unfold Z.sub. rewrite pow2_add.
        change (pow2 (- (52))) with (1 # 4503599627370496)%Q. ring. }
      rewrite E. replace e with ((e - 52) + 52) at 1 by lia.
      rewrite <- F_shift by lia. apply F_le. lia. }
    pose proof (F_pos M e ltac:(pos_pow2 52; lia)) as Hpos.
    split; lra.
Qed.

Lemma Faithful_rel X r :
  Faithful X r -> (X == 0)%Q \/ (pow2 (-1022) <= X)%Q -> (X <= 128)%Q ->
  ((1 - (1 # 4503599627370496)) * X <= B2Q r)%Q /\
  (B2Q r <= (1 + (1 # 4503599627370496)) * X)%Q.
Proof.
  intros HF Hz H128. apply Faithful_rel_normal; [exact HF | exact Hz |].
  apply Qle_trans with (pow2 7); [exact H128 | apply pow2_le; lia].
Qed.

(** The error of the six roundings of [ppv], put together: [u] is [2^-52],
    the bound is [2^-49]. *)
Lemma ppv_error_chain (ab fp tp fq dd r : Q) :
  let u := (1 # 4503599627370496)%Q in
  (0 <= ab)%Q -> (0 <= fp)%Q -> (0 < ab + fp)%Q -> (0 < dd)%Q ->
  ((1 - u) * ab <= tp)%Q -> (tp <= (1 + u) * ab)%Q ->
  ((1 - u) * (1 - u) * (1 - u) * fp <= fq)%Q ->
  (fq <= (1 + u) * (1 + u) * (1 + u) * fp)%Q ->
  ((1 - u) * (tp + fq) <= dd)%Q -> (dd <= (1 + u) * (tp + fq))%Q ->
  ((1 - u) * (tp / dd) <= r)%Q -> (r <= (1 + u) * (tp / dd))%Q ->
  ((1 - (1 # 562949953421312)) * (ab / (ab + fp)) <= r)%Q /\
  (r <= (1 + (1 # 562949953421312)) * (ab / (ab + fp)))%Q.
Proof.
  cbv zeta. intros Hab Hfp HD Hdd Ht1 Ht2 Hf1 Hf2 Hd1 Hd2 Hr1 Hr2.
  set (D := (ab + fp)%Q) in *.
  assert (Htp : (0 <= tp)%Q) by lra.
  assert (HL : ((1 - (1 # 4503599627370496)) * (1 - (1 # 4503599627370496))
                * (1 - (1 # 4503599627370496)) * (1 - (1 # 4503599627370496)) * D
                <= dd)%Q) by (unfold D; lra).
  assert (HH : (dd <= (1 + (1 # 4503599627370496)) * (1 + (1 # 4503599627370496))
                * (1 + (1 # 4503599627370496)) * (1 + (1 # 4503599627370496)) * D)%Q)
    by (unfold D; lra).
  assert (HabD : (0 <= ab * D)%Q) by (apply Qmult_le_0_compat; lra).
  split.
  - apply Qle_trans with ((1 - (1 # 4503599627370496)) * (tp / dd))%Q; [| exact Hr1].
    assert (E : ((1 - (1 # 562949953421312)) * (ab / D)
                 == (1 - (1 # 4503599627370496))
                    * ((1 - (1 # 562949953421312)) * ab
                       / ((1 - (1 # 4503599627370496)) * D)))%Q)
      by (field; lra).
    rewrite E. apply Qmult_le_l; [lra |].
    apply Qdiv_le_cross; [lra | exact Hdd |].
    assert (H1 : (0 <= (tp - (1 - (1 # 4503599627370496)) * ab) * D)%Q)
      by (apply Qmult_le_0_compat; lra).
    assert (H2 : (0 <= ab * ((1 + (1 # 4503599627370496)) * (1 + (1 # 4503599627370496))
                * (1 + (1 # 4503599627370496)) * (1 + (1 # 4503599627370496)) * D
                - dd))%Q)
      by (apply Qmult_le_0_compat; lra).
    lra.
  - apply Qle_trans with ((1 + (1 # 4503599627370496)) * (tp / dd))%Q; [exact Hr2 |].
    assert (E : ((1 + (1 # 562949953421312)) * (ab / D)
                 == (1 + (1 # 4503599627370496))
                    * ((1 + (1 # 562949953421312)) * ab
                       / ((1 + (1 # 4503599627370496)) * D)))%Q)
      by (field; lra).
    rewrite E. apply Qmult_le_l; [lra |].
    apply Qdiv_le_cross; [exact Hdd | lra |].
    assert (H1 : (0 <= ((1 + (1 # 4503599627370496)) * ab - tp) * D)%Q)
      by (apply Qmult_le_0_compat; lra).
    assert (H2 : (0 <= ab * (dd - (1 - (1 # 4503599627370496)) * (1 - (1 # 4503599627370496))
                * (1 - (1 # 4503599627370496)) * (1 - (1 # 4503599627370496)) * D))%Q)
      by (apply Qmult_le_0_compat; lra).
    lra.
Qed.

Lemma pow2_double k :
  -1022 <= k <= 1 -> exists d, nonneg_fin d /\ (B2Q d == pow2 k)%Q.
Proof.
  intros Hk. destruct (double_of (2 ^ 52) (k - 52)) as (d & Hd & Vd);
    [pos_pow2 52; change (2 ^ 53) with (2 * 2 ^ 52); lia | lia |].
  exists d. split; [exact Hd |]. rewrite Vd, <- F_one.
  replace k with ((k - 52) + 52) at 2 by lia. rewrite <- F_shift by lia.
  apply F_eq. lia.
Qed.

Lemma Faithful_ge_pow2 X r k :
  Faithful X r -> -1022 <= k <= 1 -> (pow2 k <= X)%Q -> (pow2 k <= B2Q r)%Q.
Proof.
  intros (_ & _ & Hl) Hk HX. destruct (pow2_double k Hk) as (d & Hd & Vd).
  rewrite <- Vd. apply Hl; [exact Hd |]. rewrite Vd. exact HX.
Qed.

Lemma Faithful_of_zero X r : Faithful X r -> (X == 0)%Q -> (B2Q r == 0)%Q.
Proof.
  intros (Hr & Hu & _) H0. apply Qle_antisym; [| apply B2Q_nonneg; exact Hr].
  apply (Hu (S754_zero false) I). cbn [B2Q]. lra.
Qed.

(** Below 1 the doubles keep a distance of [2^-53] from 1. *)
Lemma below_one_gap c :
  nonneg_fin c -> (B2Q c < 1)%Q -> (pow2 (-53) <= 1 - B2Q c)%Q.
Proof.
  intros Hc Hlt.
  assert (E1 : (F (2 ^ 52) (-52) == 1)%Q) by (vm_compute; reflexivity).
  assert (E53 : (F (2 ^ 53) (-53) == 1)%Q) by (vm_compute; reflexivity).
  assert (Hsmall : (pow2 (-53) <= 1)%Q) by (vm_compute; discriminate).
  destruct c as [s | s | | [|] m e]; cbn [nonneg_fin] in Hc; try contradiction.
  - cbn [B2Q]. lra.
  - rewrite B2Q_finite_pos in *. apply bounded_spec in Hc as (He & Hm & Hn).
    assert (He53 : e <= -53).
    { destruct (Z_le_gt_dec e (-53)) as [| Hgt]; [assumption | exfalso].
      specialize (Hn ltac:(lia)).
      assert (F (2 ^ 52) (-52) <= F (Zpos m) e)%Q; [| lra].
      apply Qle_trans with (F (2 ^ 52) e);
        [apply F_exp_le; lia | apply F_le; exact Hn]. }
    assert (Hle : (F (Zpos m) e <= F (2 ^ 53 - 1) (-53))%Q).
    { apply Qle_trans with (F (2 ^ 53 - 1) e);
        [apply F_le; lia | apply F_exp_le; lia]. }
    rewrite <- F_sub, E53, F_one in Hle. lra.
Qed.

(** The error of a product of two rounded factors, rounded. *)
Lemma prod_error (x y x' y' z : Q) :
  let u := (1 # 4503599627370496)%Q in
  (0 <= x)%Q -> (0 <= y)%Q ->
  ((1 - u) * x <= x')%Q -> (x' <= (1 + u) * x)%Q ->
  ((1 - u) * y <= y')%Q -> (y' <= (1 + u) * y)%Q ->
  ((1 - u) * (x' * y') <= z)%Q -> (z <= (1 + u) * (x' * y'))%Q ->
  ((1 - u) * (1 - u) * (1 - u) * (x * y) <= z)%Q /\
  (z <= (1 + u) * (1 + u) * (1 + u) * (x * y))%Q.
Proof.
  cbv zeta. intros Hx Hy Hx1 Hx2 Hy1 Hy2 Hz1 Hz2.
  assert (Hx' : (0 <= x')%Q) by lra. assert (Hy' : (0 <= y')%Q) by lra.
  assert (Hlo : ((1 - (1 # 4503599627370496)) * x
                 * ((1 - (1 # 4503599627370496)) * y) <= x' * y')%Q).
  { apply Qmult_le_compat_nonneg; split; lra. }
  assert (Hhi : (x' * y' <= (1 + (1 # 4503599627370496)) * x
                            * ((1 + (1 # 4503599627370496)) * y))%Q).
  { apply Qmult_le_compat_nonneg; split; lra. }
  split; lra.
Qed.

(** The complement [1 - x] of a probability, as the code computes it. *)
Lemma complement_close x :
  nonneg_fin x -> (B2Q x <= 1)%Q ->
  let q := SFsub prec emax one x in
  nonneg_fin q /\ (B2Q q <= 1)%Q /\
  ((1 - (1 # 4503599627370496)) * (1 - B2Q x) <= B2Q q)%Q /\
  (B2Q q <= (1 + (1 # 4503599627370496)) * (1 - B2Q x))%Q /\
  ((B2Q q == 0)%Q \/ (pow2 (-53) <= B2Q q)%Q).
Proof.
  intros Hx Hx1 q. subst q.
  destruct (complement_unit x Hx Hx1) as [Hq Hq1].
  assert (HF : Faithful (1 - B2Q x) (SFsub prec emax one x)).
  { apply (Faithful_ext (B2Q one - B2Q x)); [now rewrite B2Q_one |].
    apply SFsub_faithful; [exact nonneg_fin_one | exact Hx | now rewrite B2Q_one]. }
  pose proof (B2Q_nonneg x Hx) as Hx0.
  assert (Hsmall : (pow2 (-1022) <= pow2 (-53))%Q) by (apply pow2_le; lia).
  assert (Hcase : (B2Q x == 1)%Q \/ (B2Q x < 1)%Q).
  { destruct (Qlt_le_dec (B2Q x) 1) as [Hlt | Hge]; [right; exact Hlt | left; lra]. }
  split; [exact Hq |]. split; [exact Hq1 |].
  destruct Hcase as [E1 | Hlt].
  - assert (E0 : (1 - B2Q x == 0)%Q) by lra.
    pose proof (Faithful_of_zero _ _ HF E0) as Hz.
    rewrite Hz, E0. repeat split; try lra; left; reflexivity.
  - pose proof (below_one_gap x Hx Hlt) as Hgap.
    destruct (Faithful_rel _ _ HF) as [Hlo Hhi]; [right; lra | lra |].
    split; [exact Hlo |]. split; [exact Hhi |]. right.
    apply (Faithful_ge_pow2 _ _ (-53) HF); [lia | exact Hgap].
Qed.

(** The six roundings of [ppv] on probabilities whose product does not
    fall into the subnormal range. *)
Lemma ppv_close s c p :
  nonneg_fin s -> (B2Q s <= 1)%Q ->
  nonneg_fin c -> (B2Q c <= 1)%Q ->
  nonneg_fin p -> (B2Q p <= 1)%Q ->
  (B2Q s * B2Q p == 0)%Q \/ (pow2 (-1021) <= B2Q s * B2Q p)%Q ->
  let tp := (B2Q s * B2Q p)%Q in
  let fp := ((1 - B2Q c) * (1 - B2Q p))%Q in
  ((tp + fp == 0)%Q -> ppv s c p = S754_nan) /\
  ((0 < tp + fp)%Q ->
   nonneg_fin (ppv s c p) /\
   ((B2Q (ppv s c p) == 0)%Q \/ (pow2 (-1022) <= B2Q (ppv s c p))%Q) /\
   ((1 - (1 # 562949953421312)) * (tp / (tp + fp)) <= B2Q (ppv s c p))%Q /\
   (B2Q (ppv s c p) <= (1 + (1 # 562949953421312)) * (tp / (tp + fp)))%Q).
Proof.
  intros Hs Hs1 Hc Hc1 Hp Hp1 Hnormal tp fp. fold tp in Hnormal.
  pose proof (B2Q_nonneg s Hs) as Hs0. pose proof (B2Q_nonneg c Hc) as Hc0.
  pose proof (B2Q_nonneg p Hp) as Hp0.
  assert (Htp0 : (0 <= tp)%Q) by (apply Qmult_le_0_compat; assumption).
  assert (Htp1 : (tp <= 1)%Q).
  { unfold tp. assert (B2Q s * B2Q p <= 1 * 1)%Q; [| lra].
    apply Qmult_le_compat_nonneg; split; assumption. }
  assert (Hfp0 : (0 <= fp)%Q) by (apply Qmult_le_0_compat; lra).
  assert (P1022 : (pow2 (-1022) <= pow2 (-1021))%Q) by (apply pow2_le; lia).
  assert (P106 : (pow2 (-53) * pow2 (-53) == pow2 (-106))%Q)
    by (rewrite <- pow2_add; reflexivity).
  assert (P106' : (pow2 (-1022) <= pow2 (-106))%Q) by (apply pow2_le; lia).
  assert (P1021 : (pow2 (-1022) * 2 == pow2 (-1021))%Q).
  { change 2%Q with (pow2 1). rewrite <- pow2_add. reflexivity. }
  pose proof (pow2_pos (-1022)) as Pp. pose proof (pow2_pos (-53)) as Pp53.
  (* tp *)
  assert (HFt : Faithful tp (SFmul prec emax s p)).
  { apply SFmul_faithful; try assumption. exists one.
    split; [exact nonneg_fin_one |]. rewrite B2Q_one. exact Htp1. }
  destruct (Faithful_rel _ _ HFt) as [Ht1 Ht2];
    [destruct Hnormal; [left; assumption | right; lra] | lra |].
  assert (Htz : (tp == 0)%Q \/ (pow2 (-1021) <= B2Q (SFmul prec emax s p))%Q).
  { destruct Hnormal as [E | Hn]; [left; exact E | right].
    apply (Faithful_ge_pow2 _ _ (-1021) HFt); [lia | exact Hn]. }
  (* fp *)
  destruct (complement_close c Hc Hc1) as (Hqc & Hqc1 & Hc1' & Hc2' & Hcz).
  destruct (complement_close p Hp Hp1) as (Hqp & Hqp1 & Hp1' & Hp2' & Hpz).
  set (qc := SFsub prec emax one c) in *. set (qp := SFsub prec emax one p) in *.
  pose proof (B2Q_nonneg qc Hqc) as Hqc0. pose proof (B2Q_nonneg qp Hqp) as Hqp0.
  assert (Hqq1 : (B2Q qc * B2Q qp <= 1)%Q).
  { assert (B2Q qc * B2Q qp <= 1 * 1)%Q; [| lra].
    apply Qmult_le_compat_nonneg; split; assumption. }
  assert (HFf : Faithful (B2Q qc * B2Q qp) (SFmul prec emax qc qp)).
  { apply SFmul_faithful; try assumption. exists one.
    split; [exact nonneg_fin_one |]. rewrite B2Q_one. exact Hqq1. }
  assert (Hqqz : (B2Q qc * B2Q qp == 0)%Q \/ (pow2 (-106) <= B2Q qc * B2Q qp)%Q).
  { destruct Hcz as [E | Hn]; [left; rewrite E; ring |].
    destruct Hpz as [E | Hn']; [left; rewrite E; ring | right].
    rewrite <- P106. apply Qmult_le_compat_nonneg; split; lra. }
  destruct (Faithful_rel _ _ HFf) as [Hf1 Hf2];
    [destruct Hqqz; [left; assumption | right; lra] | lra |].
  destruct (prod_error (1 - B2Q c) (1 - B2Q p) (B2Q qc) (B2Q qp)
              (B2Q (SFmul prec emax qc qp))) as [Hf1' Hf2']; try assumption; try lra.
  fold fp in Hf1', Hf2'.
  assert (Hfz : (B2Q qc * B2Q qp == 0)%Q
                \/ (pow2 (-106) <= B2Q (SFmul prec emax qc qp))%Q).
  { destruct Hqqz as [E | Hn]; [left; exact E | right].
    apply (Faithful_ge_pow2 _ _ (-106) HFf); [lia | exact Hn]. }
  (* denom *)
  destruct (ppv_parts s c p Hs Hs1 Hc Hc1 Hp Hp1) as (Htp & Hd & Hle).
  unfold ppv_denom in Hd, Hle.
  cbn [mul sub add lit binary64_arith] in Hd, Hle. rewrite of_Z_1 in Hd, Hle.
  fold qc qp in Hd, Hle.
  set (t := SFmul prec emax s p) in *. set (f := SFmul prec emax qc qp) in *.
  assert (Hfn : nonneg_fin f) by apply HFf.
  pose proof (B2Q_nonneg t Htp) as Ht0. pose proof (B2Q_nonneg f Hfn) as Hf0.
  assert (Hsum2 : (B2Q t + B2Q f <= 2)%Q).
  { assert (B2Q t <= 1)%Q.
    { rewrite <- B2Q_one. apply HFt; [exact nonneg_fin_one |]. now rewrite B2Q_one. }
    assert (B2Q f <= 1)%Q.
    { rewrite <- B2Q_one. apply HFf; [exact nonneg_fin_one |]. now rewrite B2Q_one. }
    lra. }
  assert (HFd : Faithful (B2Q t + B2Q f) (SFadd prec emax t f)).
  { apply SFadd_faithful; try assumption. exists two.
    split; [exact nonneg_fin_two |]. rewrite B2Q_two. exact Hsum2. }
  assert (Hdz : (B2Q t + B2Q f == 0)%Q \/ (pow2 (-1022) <= B2Q t + B2Q f)%Q).
  { destruct Htz as [Et | Hn].
    - destruct Hfz as [Ef | Hn'].
      + left. rewrite (Faithful_of_zero _ _ HFt Et), (Faithful_of_zero _ _ HFf Ef).
        reflexivity.
      + right. lra.
    - right. lra. }
  destruct (Faithful_rel _ _ HFd Hdz ltac:(lra)) as [Hd1 Hd2].
  assert (Hd2' : (B2Q (SFadd prec emax t f) <= 2)%Q).
  { rewrite <- B2Q_two. apply HFd; [exact nonneg_fin_two |]. now rewrite B2Q_two. }
  set (d := SFadd prec emax t f) in *.
  assert (Eppv : ppv s c p = if SFeqb d (S754_zero false) then S754_nan
                             else SFdiv prec emax t d).
  { unfold ppv. cbn [mul sub add div lit nan strict_eq binary64_arith].
    rewrite of_Z_1, of_Z_0. reflexivity. }
  assert (Ezero : SFeqb d (S754_zero false) = true <-> (B2Q d == 0)%Q)
    by (apply (SFeqb_nonneg d (S754_zero false) Hd I)).
  split.
  - intros HD0. assert (Et : (tp == 0)%Q) by lra. assert (Ef : (fp == 0)%Q) by lra.
    assert (Ed : (B2Q d == 0)%Q).
    { apply (Faithful_of_zero _ _ HFd).
      rewrite Et in Ht1, Ht2. rewrite Ef in Hf1', Hf2'. lra. }
    rewrite Eppv. apply Ezero in Ed. rewrite Ed. reflexivity.
  - intros HD.
    assert (Hdpos : (0 < B2Q d)%Q) by lra.
    assert (Enz : SFeqb d (S754_zero false) = false).
    { apply not_true_iff_false. intros E. apply Ezero in E. lra. }
    rewrite Eppv, Enz.
    destruct d as [sd | sd | | [|] md ed] eqn:Ed; cbn [nonneg_fin] in Hd;
      try contradiction; [cbn [B2Q] in Hdpos; lra |].
    rewrite B2Q_finite_pos in *.
    assert (HX1 : (B2Q t / F (Zpos md) ed <= 1)%Q).
    { apply Qle_shift_div_r; [exact Hdpos | lra]. }
    assert (HFr : Faithful (B2Q t / F (Zpos md) ed)
                    (SFdiv prec emax t (S754_finite false md ed))).
    { apply SFdiv_faithful; try assumption. exists one.
      split; [exact nonneg_fin_one |]. now rewrite B2Q_one. }
    assert (Hrz : (B2Q t / F (Zpos md) ed == 0)%Q
                  \/ (pow2 (-1022) <= B2Q t / F (Zpos md) ed)%Q).
    { destruct Htz as [Et | Hn].
      - left. rewrite (Faithful_of_zero _ _ HFt Et). field. lra.
      - right. apply Qle_shift_div_l; [exact Hdpos |].
        apply Qle_trans with (pow2 (-1022) * 2)%Q; [| lra].
        apply Qmult_le_l; lra. }
    destruct (Faithful_rel _ _ HFr Hrz ltac:(lra)) as [Hr1 Hr2].
    split; [apply HFr |]. split.
    { destruct Hrz as [E | Hn]; [left | right].
      - apply (Faithful_of_zero _ _ HFr E).
      - apply (Faithful_ge_pow2 _ _ (-1022) HFr); [lia | exact Hn]. }
    apply (ppv_error_chain tp fp (B2Q t) (B2Q f) (F (Zpos md) ed)); assumption.
Qed.

Lemma exact_ppv_undefined (s c p : Q) :
  (s * p + (1 - c) * (1 - p) == 0)%Q ->
  ppv (T := Exact.number) (Some s) (Some c) (Some p) = None.
Proof.
  intros H0. unfold ppv.
  cbn [mul sub add div strict_eq lit nan Exact.exact_arith Exact.lift2
       Exact.exact_div Exact.exact_eq].
  assert (Hz : Qeq_bool (s * p + (inject_Z 1 - c) * (inject_Z 1 - p)) (inject_Z 0)
               = true).
  { apply Qeq_bool_iff. change (inject_Z 1) with 1%Q.
    change (inject_Z 0) with 0%Q. exact H0. }
  rewrite Hz. reflexivity.
Qed.

Lemma within_Qabs (r v k : Q) :
  ((1 - k) * v <= r)%Q -> (r <= (1 + k) * v)%Q -> (Qabs (r - v) <= k * v)%Q.
Proof. intros Hlo Hhi. apply Qabs_Qle_condition. split; lra. Qed.

Lemma ppv_accuracy_aux (s c p : number) :
  probability s = true -> probability c = true -> probability p = true ->
  (B2Q s * B2Q p == 0)%Q \/ (pow2 (-1021) <= B2Q s * B2Q p)%Q ->
  match ppv (T := Exact.number) (Some (B2Q s)) (Some (B2Q c)) (Some (B2Q p)) with
  | None => ppv s c p = nan
  | Some v =>
      nonneg_fin (ppv s c p) /\
      (Qabs (B2Q (ppv s c p) - v) <= (1 # 562949953421312) * v)%Q
  end.
Proof.
  intros Hs Hc Hp Hn.
  apply probability_spec in Hs as [Hs Hs1].
  apply probability_spec in Hc as [Hc Hc1].
  apply probability_spec in Hp as [Hp Hp1].
  destruct (ppv_close s c p Hs Hs1 Hc Hc1 Hp Hp1 Hn) as [Hzero Hpos].
  cbv zeta in Hzero, Hpos.
  pose proof (B2Q_nonneg s Hs) as Hs0. pose proof (B2Q_nonneg c Hc) as Hc0.
  pose proof (B2Q_nonneg p Hp) as Hp0.
  assert (Hd0 : (0 <= B2Q s * B2Q p + (1 - B2Q c) * (1 - B2Q p))%Q).
  { assert (0 <= B2Q s * B2Q p)%Q by (apply Qmult_le_0_compat; assumption).
    assert (0 <= (1 - B2Q c) * (1 - B2Q p))%Q by (apply Qmult_le_0_compat; lra).
    lra. }
  destruct (Qlt_le_dec 0 (B2Q s * B2Q p + (1 - B2Q c) * (1 - B2Q p))) as [HD | HD].
  - rewrite (exact_ppv_value _ _ _ HD). change (inject_Z 1) with 1%Q.
    destruct (Hpos HD) as (Hr & _ & Hlo & Hhi).
    split; [exact Hr |]. apply within_Qabs; assumption.
  - rewrite exact_ppv_undefined by lra. apply Hzero. lra.
Qed.

(** X18: the doubles against the exact formula.  For sensitivity [s],
    specificity [c] and prevalence [p] in [0, 1] whose product [s * p] is
    zero or at least [2^-1021], the evaluator on doubles returns NaN exactly
    when the formula evaluated without rounding, on the same three numbers,
    is undefined, and otherwise returns a double within a relative error of
    [2^-49 = 1 / 562949953421312] of its value. *)
Theorem ppv_accuracy (s c p : number) :
  probability s = true -> probability c = true -> probability p = true ->
  (B2Q s * B2Q p == 0)%Q \/ (pow2 (-1021) <= B2Q s * B2Q p)%Q ->
  match ppv (T := Exact.number) (Some (B2Q s)) (Some (B2Q c)) (Some (B2Q p)) with
  | None => ppv s c p = nan
  | Some v =>
      nonneg_fin (ppv s c p) /\
      (Qabs (B2Q (ppv s c p) - v) <= (1 # 562949953421312) * v)%Q
  end.
Proof. exact (ppv_accuracy_aux s c p). Qed.

Lemma ppv_accuracy_witness :
  let s := div (lit 90) (lit 100) : number in
  let c := div (lit 95) (lit 100) : number in
  let p := div (lit 5) (lit 100) : number in
  match ppv (T := Exact.number) (Some (B2Q s)) (Some (B2Q c)) (Some (B2Q p)) with
  | None => ppv s c p = nan
  | Some v =>
      nonneg_fin (ppv s c p) /\
      (Qabs (B2Q (ppv s c p) - v) <= (1 # 562949953421312) * v)%Q
  end.
Proof.
  cbv zeta. apply ppv_accuracy; try (vm_compute; reflexivity).
  right. vm_compute. discriminate.
Defined.

(** A probability times 100, as [fmtPct] computes it. *)
Lemma scaled_close r :
  nonneg_fin r -> (B2Q r <= 1)%Q ->
  (B2Q r == 0)%Q \/ (pow2 (-1022) <= B2Q r)%Q ->
  let y := mul r (lit 100) in
  Number_isFinite r = true /\ abs_lt_1e21 y = true /\ is_negative y = false /\
  ((1 - (1 # 4503599627370496)) * (100 * B2Q r) <= Qabs (B2Q y))%Q /\
  (Qabs (B2Q y) <= (1 + (1 # 4503599627370496)) * (100 * B2Q r))%Q.
Proof.
  intros Hr Hr1 Hrz y. subst y. cbn [mul lit binary64_arith].
  replace (of_Z 100) with hundred by (vm_compute; reflexivity).
  assert (Hh : nonneg_fin hundred) by (vm_compute; reflexivity).
  assert (Vh : (B2Q hundred == 100)%Q) by (vm_compute; reflexivity).
  pose proof (B2Q_nonneg r Hr) as Hr0.
  assert (HF : Faithful (B2Q r * B2Q hundred) (SFmul prec emax r hundred)).
  { apply SFmul_faithful; try assumption. exists hundred.
    split; [exact Hh |]. rewrite Vh. lra. }
  apply (Faithful_ext _ (100 * B2Q r)) in HF; [| rewrite Vh; ring].
  pose proof HF as (Hy & Hu & _).
  assert (Hy100 : (B2Q (SFmul prec emax r hundred) <= 100)%Q).
  { rewrite <- Vh. apply Hu; [exact Hh |]. rewrite Vh. lra. }
  destruct (Faithful_rel _ _ HF) as [Hlo Hhi];
    [destruct Hrz as [E | Hn]; [left; rewrite E; ring | right; lra] | lra |].
  pose proof (B2Q_nonneg _ Hy) as Hy0.
  split.
  { destruct r as [? | ? | | [|] ? ?]; cbn [nonneg_fin] in Hr; try contradiction;
      reflexivity. }
  split.
  { apply percentage_lt_1e21. apply percentage_spec. split; assumption. }
  split.
  { destruct (SFmul prec emax r hundred) as [? | ? | | [|] ? ?];
      cbn [nonneg_fin] in Hy; try contradiction; reflexivity. }
  rewrite Qabs_pos by exact Hy0. split; assumption.
Qed.

Lemma readout_accuracy_aux (s c p : number) :
  probability s = true -> probability c = true -> probability p = true ->
  (B2Q s * B2Q p == 0)%Q \/ (pow2 (-1021) <= B2Q s * B2Q p)%Q ->
  let tp := (B2Q s * B2Q p)%Q in
  let fp := ((1 - B2Q c) * (1 - B2Q p))%Q in
  (0 < tp + fp)%Q ->
  exists n,
    0 <= n /\
    fmtPct (ppv s c p) = render2 false n /\
    (Qabs (inject_Z n - 10000 * (tp / (tp + fp)))
     <= (1 # 2) + (1 # 17179869184))%Q.
Proof.
  intros Hs Hc Hp Hn tp fp HD.
  apply probability_spec in Hs as [Hs Hs1].
  apply probability_spec in Hc as [Hc Hc1].
  apply probability_spec in Hp as [Hp Hp1].
  destruct (ppv_close s c p Hs Hs1 Hc Hc1 Hp Hp1 Hn) as [_ Hpos].
  cbv zeta in Hpos. fold tp fp in Hpos.
  destruct (Hpos HD) as (Hr & Hrz & Hlo & Hhi).
  pose proof (B2Q_nonneg s Hs) as Hs0. pose proof (B2Q_nonneg c Hc) as Hc0.
  pose proof (B2Q_nonneg p Hp) as Hp0.
  assert (Htp0 : (0 <= tp)%Q) by (apply Qmult_le_0_compat; assumption).
  assert (Hfp0 : (0 <= fp)%Q) by (apply Qmult_le_0_compat; lra).
  set (E := (tp / (tp + fp))%Q) in *.
  assert (HE0 : (0 <= E)%Q) by (apply Qle_shift_div_l; lra).
  assert (HE1 : (E <= 1)%Q) by (apply Qle_shift_div_r; lra).
  assert (Hr1 : (B2Q (ppv s c p) <= 1)%Q).
  { destruct (ppv_unit s c p Hs Hs1 Hc Hc1 Hp Hp1) as [[_ Hnan] | (_ & _ & H1)];
      [| exact H1].
    rewrite Hnan in Hr. contradiction. }
  destruct (scaled_close (ppv s c p) Hr Hr1 Hrz) as (Hfin & Hlt & Hneg & Hy1 & Hy2).
  cbv zeta in Hlt, Hneg, Hy1, Hy2.
  destruct (fmtPct_in_range (ppv s c p) Hfin Hlt) as (n & Hn0 & Efmt & Hn1 & Hn2).
  rewrite Hneg in Efmt.
  exists n. split; [exact Hn0 |]. split; [exact Efmt |].
  set (Y := Qabs (B2Q (mul (ppv s c p) (lit 100)))) in *.
  set (R := B2Q (ppv s c p)) in *.
  apply Qabs_Qle_condition. split; lra.
Qed.

(** X19: from the probabilities to the readout.  Under the conditions of
    X18 and with a positive denominator, the readout is a non-negative
    numeral with two decimals whose hundredths [n] differ from ten thousand
    times the exact value of the formula by at most [1/2 + 2^-34]: the
    percentage shown is the exact one to within 0.005000001 of a percentage
    point. *)
Theorem readout_accuracy (s c p : number) :
  probability s = true -> probability c = true -> probability p = true ->
  (B2Q s * B2Q p == 0)%Q \/ (pow2 (-1021) <= B2Q s * B2Q p)%Q ->
  let tp := (B2Q s * B2Q p)%Q in
  let fp := ((1 - B2Q c) * (1 - B2Q p))%Q in
  (0 < tp + fp)%Q ->
  exists n,
    0 <= n /\
    fmtPct (ppv s c p) = render2 false n /\
    (Qabs (inject_Z n - 10000 * (tp / (tp + fp)))
     <= (1 # 2) + (1 # 17179869184))%Q.
Proof. exact (readout_accuracy_aux s c p). Qed.

Lemma readout_accuracy_witness :
  let s := div (lit 90) (lit 100) : number in
  let c := div (lit 95) (lit 100) : number in
  let p := div (lit 5) (lit 100) : number in
  let tp := (B2Q s * B2Q p)%Q in
  let fp := ((1 - B2Q c) * (1 - B2Q p))%Q in
  exists n,
    0 <= n /\
    fmtPct (ppv s c p) = render2 false n /\
    (Qabs (inject_Z n - 10000 * (tp / (tp + fp)))
     <= (1 # 2) + (1 # 17179869184))%Q.
Proof.
  cbv zeta. apply readout_accuracy; try (vm_compute; reflexivity).
  right. vm_compute. discriminate.
Defined.

(** ** From the percentages entered to the percentage shown *)

Lemma on_scale_spec v :
  on_scale v = true ->
  nonneg_fin v /\
  ((B2Q v == 0)%Q \/ ((1 # 10) <= B2Q v /\ B2Q v <= (9991 # 100))%Q
   \/ (B2Q v == 100)%Q).
Proof.
  assert (E100 : of_Z 100 = hundred) by (vm_compute; reflexivity).
  assert (H100 : nonneg_fin hundred) by (vm_compute; reflexivity).
  assert (V100 : (B2Q hundred == 100)%Q) by (vm_compute; reflexivity).
  assert (Elo : SFdiv prec emax (of_Z 1) (of_Z 10)
                = S754_finite false 7205759403792794 (-56))
    by (vm_compute; reflexivity).
  assert (Ehi : SFdiv prec emax (of_Z 999) (of_Z 10)
                = S754_finite false 7029837543348634 (-46))
    by (vm_compute; reflexivity).
  assert (Hlo : nonneg_fin (S754_finite false 7205759403792794 (-56)))
    by (vm_compute; reflexivity).
  assert (Hhi : nonneg_fin (S754_finite false 7029837543348634 (-46)))
    by (vm_compute; reflexivity).
  assert (Vlo : ((1 # 10) <= B2Q (S754_finite false 7205759403792794 (-56)))%Q)
    by (vm_compute; discriminate).
  assert (Vhi : (B2Q (S754_finite false 7029837543348634 (-46)) <= (9991 # 100))%Q)
    by (vm_compute; discriminate).
  unfold on_scale. rewrite of_Z_0, E100, Elo, Ehi.
  rewrite andb_true_iff, !orb_true_iff, andb_true_iff.
  intros [Hv [[H0 | [H1 H2]] | H3]].
  - assert (Hx : nonneg_fin v).
    { unfold SFeqb, SFcompare in H0.
      destruct v as [s | [|] | | [|] m e]; try discriminate; exact I. }
    split; [exact Hx |]. left.
    apply (SFeqb_nonneg v (S754_zero false) Hx I). exact H0.
  - assert (Hx : nonneg_fin v).
    { unfold SFleb, SFcompare in H1, H2.
      destruct v as [s | [|] | | [|] m e]; try discriminate; try exact I.
      exact Hv. }
    split; [exact Hx |]. right. left.
    apply (SFleb_nonneg _ v Hlo Hx) in H1. apply (SFleb_nonneg v _ Hx Hhi) in H2.
    split; lra.
  - assert (Hx : nonneg_fin v).
    { unfold SFeqb, SFcompare, hundred in H3.
      destruct v as [s | [|] | | [|] m e]; try discriminate; try exact I.
      exact Hv. }
    split; [exact Hx |]. right. right. rewrite <- V100.
    apply (SFeqb_nonneg v hundred Hx H100). exact H3.
Qed.

(** Line 11-13 on a percentage of the scale: the fraction is the
    percentage over 100 up to a relative error of [2^-52], and exactly 1
    for 100. *)
Lemma fraction_close v :
  on_scale v = true ->
  let x := div v (lit 100) in
  nonneg_fin x /\ (B2Q x <= 1)%Q /\
  ((1 - (1 # 4503599627370496)) * (B2Q v / 100) <= B2Q x)%Q /\
  (B2Q x <= (1 + (1 # 4503599627370496)) * (B2Q v / 100))%Q /\
  ((B2Q v == 100)%Q -> (B2Q x == 1)%Q).
Proof.
  intros Hv x. subst x. apply on_scale_spec in Hv as [Hx Hcases].
  cbn [div lit binary64_arith].
  replace (of_Z 100) with hundred by (vm_compute; reflexivity). unfold hundred.
  assert (Hb : bounded prec emax 7036874417766400 (-46) = true)
    by (vm_compute; reflexivity).
  assert (Vh : (F (Zpos 7036874417766400) (-46) == 100)%Q)
    by (vm_compute; reflexivity).
  assert (Psmall : (pow2 (-1022) <= 1 # 1000)%Q) by (vm_compute; discriminate).
  pose proof (B2Q_nonneg v Hx) as Hv0.
  assert (Hv100 : (B2Q v <= 100)%Q) by (destruct Hcases as [E | [[_ H] | E]]; lra).
  assert (EX : (B2Q v / F (Zpos 7036874417766400) (-46) == B2Q v / 100)%Q)
    by (rewrite Vh; reflexivity).
  assert (HX1 : (B2Q v / 100 <= 1)%Q) by (apply Qle_shift_div_r; lra).
  assert (HF : Faithful (B2Q v / 100)
                 (SFdiv prec emax v (S754_finite false 7036874417766400 (-46)))).
  { apply (Faithful_ext _ _ _ EX). apply SFdiv_faithful; [exact Hx | exact Hb |].
    exists one. split; [exact nonneg_fin_one |]. rewrite EX, B2Q_one. exact HX1. }
  assert (Hz : (B2Q v / 100 == 0)%Q \/ (pow2 (-1022) <= B2Q v / 100)%Q).
  { destruct Hcases as [E | Hge]; [left; rewrite E; reflexivity | right].
    assert (1 # 10 <= B2Q v)%Q by (destruct Hge as [[H _] | E]; lra).
    apply Qle_trans with (1 # 1000)%Q; [exact Psmall |].
    apply Qle_shift_div_l; lra. }
  destruct (Faithful_rel _ _ HF Hz ltac:(lra)) as [Hlo Hhi].
  split; [apply HF |]. split.
  { rewrite <- B2Q_one. apply HF; [exact nonneg_fin_one |]. now rewrite B2Q_one. }
  split; [exact Hlo |]. split; [exact Hhi |].
  intros E. rewrite <- B2Q_one.
  apply (Faithful_exact _ _ one HF nonneg_fin_one). rewrite B2Q_one, E. reflexivity.
Qed.

(** The complement of a fraction of the scale: [a] is [1112 * 2^-52]. *)
Lemma complement_error (c c' : Q) :
  let u := (1 # 4503599627370496)%Q in
  let a := (1112 # 4503599627370496)%Q in
  (0 <= c)%Q ->
  ((c == 1)%Q /\ (c' == 1)%Q) \/ (c <= 9991 # 10000)%Q ->
  ((1 - u) * c <= c')%Q -> (c' <= (1 + u) * c)%Q ->
  ((1 - a) * (1 - c) <= 1 - c')%Q /\ (1 - c' <= (1 + a) * (1 - c))%Q.
Proof.
  cbv zeta. intros Hc [[E E'] | Hle] H1 H2; [rewrite E, E' |]; split; lra.
Qed.

Lemma product_bounds (l h x y x' y' : Q) :
  (0 <= l)%Q -> (0 <= x)%Q -> (0 <= y)%Q ->
  (l * x <= x')%Q -> (x' <= h * x)%Q -> (l * y <= y')%Q -> (y' <= h * y)%Q ->
  (l * l * (x * y) <= x' * y')%Q /\ (x' * y' <= h * h * (x * y))%Q.
Proof.
  intros Hl Hx Hy Hx1 Hx2 Hy1 Hy2.
  assert (0 <= l * x)%Q by (apply Qmult_le_0_compat; assumption).
  assert (0 <= l * y)%Q by (apply Qmult_le_0_compat; assumption).
  assert (Hlo : (l * x * (l * y) <= x' * y')%Q)
    by (apply Qmult_le_compat_nonneg; split; lra).
  assert (Hhi : (x' * y' <= h * x * (h * y))%Q)
    by (apply Qmult_le_compat_nonneg; split; lra).
  split.
  - apply Qle_trans with (l * x * (l * y))%Q; [| exact Hlo].
    apply Qle_lteq. right. ring.
  - apply Qle_trans with (h * x * (h * y))%Q; [exact Hhi |].
    apply Qle_lteq. right. ring.
Qed.

(** The quotient [tp / (tp + fp)] under the errors of its inputs: the
    bound is [2^-40]. *)
Lemma ratio_error (tp fp tp' fp' : Q) :
  let u := (1 # 4503599627370496)%Q in
  let a := (1112 # 4503599627370496)%Q in
  (0 <= tp)%Q -> (0 <= fp)%Q ->
  ((1 - u) * (1 - u) * tp <= tp')%Q -> (tp' <= (1 + u) * (1 + u) * tp)%Q ->
  ((1 - a) * (1 - a) * fp <= fp')%Q -> (fp' <= (1 + a) * (1 + a) * fp)%Q ->
  ((tp + fp == 0)%Q -> (tp' + fp' == 0)%Q) /\
  ((0 < tp + fp)%Q ->
   (0 < tp' + fp')%Q /\
   ((1 - (1 # 1099511627776)) * (tp / (tp + fp)) <= tp' / (tp' + fp'))%Q /\
   (tp' / (tp' + fp') <= (1 + (1 # 1099511627776)) * (tp / (tp + fp)))%Q).
Proof.
  cbv zeta. intros Htp Hfp Ht1 Ht2 Hf1 Hf2. split.
  - intros E. assert (Et : (tp == 0)%Q) by lra. assert (Ef : (fp == 0)%Q) by lra.
    rewrite Et in Ht1, Ht2. rewrite Ef in Hf1, Hf2. lra.
  - intros HD. set (D := (tp + fp)%Q) in *. set (D' := (tp' + fp')%Q).
    assert (HL : ((1 - (1112 # 4503599627370496)) * (1 - (1112 # 4503599627370496)) * D
                  <= D')%Q) by (unfold D, D'; lra).
    assert (HH : (D' <= (1 + (1112 # 4503599627370496))
                        * (1 + (1112 # 4503599627370496)) * D)%Q)
      by (unfold D, D'; lra).
    assert (HD' : (0 < D')%Q) by lra.
    assert (Htp' : (0 <= tp')%Q) by lra.
    assert (HtD : (0 <= tp * D)%Q) by (apply Qmult_le_0_compat; lra).
    split; [exact HD' |]. split.
    + assert (E : ((1 - (1 # 1099511627776)) * (tp / D)
                   == (1 - (1 # 1099511627776)) * tp / D)%Q) by (field; lra).
      rewrite E. apply Qdiv_le_cross; [exact HD | exact HD' |].
      assert (H1 : (0 <= (tp' - (1 - (1 # 4503599627370496))
                                 * (1 - (1 # 4503599627370496)) * tp) * D)%Q)
        by (apply Qmult_le_0_compat; lra).
      assert (H2 : (0 <= tp * ((1 + (1112 # 4503599627370496))
                              * (1 + (1112 # 4503599627370496)) * D - D'))%Q)
        by (apply Qmult_le_0_compat; lra).
      lra.
    + assert (E : ((1 + (1 # 1099511627776)) * (tp / D)
                   == (1 + (1 # 1099511627776)) * tp / D)%Q) by (field; lra).
      rewrite E. apply Qdiv_le_cross; [exact HD' | exact HD |].
      assert (H1 : (0 <= ((1 + (1 # 4503599627370496))
                          * (1 + (1 # 4503599627370496)) * tp - tp') * D)%Q)
        by (apply Qmult_le_0_compat; lra).
      assert (H2 : (0 <= tp * (D' - (1 - (1112 # 4503599627370496))
                                    * (1 - (1112 # 4503599627370496)) * D))%Q)
        by (apply Qmult_le_0_compat; lra).
      lra.
Qed.

(** A percentage of the scale, its exact fraction and the fraction the
    code derives. *)
Lemma scale_fraction v :
  on_scale v = true ->
  let x := (B2Q v / 100)%Q in
  let x' := B2Q (div v (lit 100)) in
  probability (div v (lit 100)) = true /\
  (0 <= x)%Q /\ (x <= 1)%Q /\ (0 <= x')%Q /\
  ((1 - (1 # 4503599627370496)) * x <= x')%Q /\
  (x' <= (1 + (1 # 4503599627370496)) * x)%Q /\
  ((1 - (1112 # 4503599627370496)) * (1 - x) <= 1 - x')%Q /\
  (1 - x' <= (1 + (1112 # 4503599627370496)) * (1 - x))%Q /\
  ((x == 0)%Q \/ ((1 # 1000) <= x)%Q).
Proof.
  intros Hv x x'. subst x x'.
  destruct (fraction_close v Hv) as (Hn & H1 & Hlo & Hhi & H100).
  cbv zeta in *.
  apply on_scale_spec in Hv as [Hx Hcases].
  pose proof (B2Q_nonneg v Hx) as Hv0.
  assert (Hv100 : (B2Q v <= 100)%Q) by (destruct Hcases as [E | [[_ H] | E]]; lra).
  assert (Hx0 : (0 <= B2Q v / 100)%Q) by (apply Qle_shift_div_l; lra).
  assert (Hx1 : (B2Q v / 100 <= 1)%Q) by (apply Qle_shift_div_r; lra).
  split; [apply probability_spec; split; assumption |].
  split; [exact Hx0 |]. split; [exact Hx1 |].
  split; [apply B2Q_nonneg; exact Hn |].
  split; [exact Hlo |]. split; [exact Hhi |].
  assert (Hc : ((B2Q v / 100 == 1)%Q /\ (B2Q (div v (lit 100)) == 1)%Q)
               \/ (B2Q v / 100 <= 9991 # 10000)%Q).
  { destruct Hcases as [E | [[_ H] | E]].
    - right. rewrite E. vm_compute. discriminate.
    - right. apply Qle_shift_div_r; lra.
    - left. split; [rewrite E; reflexivity | apply H100; exact E]. }
  destruct (complement_error _ _ Hx0 Hc Hlo Hhi) as [Hq1 Hq2].
  split; [exact Hq1 |]. split; [exact Hq2 |].
  destruct Hcases as [E | Hge]; [left; rewrite E; reflexivity | right].
  assert (1 # 10 <= B2Q v)%Q by (destruct Hge as [[H _] | E]; lra).
  apply Qle_shift_div_l; lra.
Qed.

Lemma App_readout_exact_aux (st : params number) :
  all_on_scale st = true ->
  let s := (B2Q (sensitivityPct st) / 100)%Q in
  let c := (B2Q (specificityPct st) / 100)%Q in
  let p := (B2Q (prevalencePct st) / 100)%Q in
  match ppv (T := Exact.number) (Some s) (Some c) (Some p) with
  | None => readout (App_view st) = "n/a"
  | Some v =>
      exists n,
        0 <= n /\
        readout (App_view st) = render2 false n /\
        (Qabs (inject_Z n - 10000 * v) <= (1 # 2) + (1 # 67108864))%Q
  end.
Proof.
  intros Hst s c p. unfold all_on_scale in Hst.
  rewrite !andb_true_iff in Hst. destruct Hst as [[HS HC] HP].
  destruct (scale_fraction _ HS)
    as (Ps & Hs0 & Hs1 & Hs0' & Hs1' & Hs2' & _ & _ & Hsz).
  destruct (scale_fraction _ HC)
    as (Pc & Hc0 & Hc1 & Hc0' & _ & _ & Hqc1 & Hqc2 & _).
  destruct (scale_fraction _ HP)
    as (Pp & Hp0 & Hp1 & Hp0' & Hp1' & Hp2' & Hqp1 & Hqp2 & Hpz).
  cbv zeta in *. fold s in Hs0, Hs1, Hs1', Hs2', Hsz.
  fold c in Hc0, Hc1, Hqc1, Hqc2. fold p in Hp0, Hp1, Hp1', Hp2', Hqp1, Hqp2, Hpz.
  cbn [App_view readout]. unfold App_ppv.
  fold (sensitivity st) in *. fold (specificity st) in *. fold (prevalence st) in *.
  set (ds := sensitivity st) in *. set (dc := specificity st) in *.
  set (dp := prevalence st) in *.
  destruct (product_bounds (1 - (1 # 4503599627370496)) (1 + (1 # 4503599627370496))
              s p (B2Q ds) (B2Q dp)) as [Ht1 Ht2]; try assumption; try lra.
  destruct (product_bounds (1 - (1112 # 4503599627370496))
              (1 + (1112 # 4503599627370496))
              (1 - c) (1 - p) (1 - B2Q dc) (1 - B2Q dp)) as [Hf1 Hf2];
    try assumption; try lra.
  assert (Htp : (0 <= s * p)%Q) by (apply Qmult_le_0_compat; assumption).
  assert (Hfp : (0 <= (1 - c) * (1 - p))%Q) by (apply Qmult_le_0_compat; lra).
  destruct (ratio_error (s * p) ((1 - c) * (1 - p))
              (B2Q ds * B2Q dp) ((1 - B2Q dc) * (1 - B2Q dp))
              Htp Hfp Ht1 Ht2 Hf1 Hf2) as [Hzero Hpos].
  assert (Hnormal : (B2Q ds * B2Q dp == 0)%Q
                    \/ (pow2 (-1021) <= B2Q ds * B2Q dp)%Q).
  { assert (Psmall : (pow2 (-1021) <= (1 # 2000) * (1 # 2000))%Q)
      by (vm_compute; discriminate).
    destruct Hsz as [E | Hs3].
    - left. rewrite E in Hs1', Hs2'.
      assert (B2Q ds == 0)%Q as -> by lra. ring.
    - destruct Hpz as [E | Hp3].
      + left. rewrite E in Hp1', Hp2'.
        assert (B2Q dp == 0)%Q as -> by lra. ring.
      + right. apply Qle_trans with ((1 # 2000) * (1 # 2000))%Q; [exact Psmall |].
        apply Qmult_le_compat_nonneg; split; lra. }
  destruct (Qlt_le_dec 0 (s * p + (1 - c) * (1 - p))) as [HD | HD].
  - rewrite (exact_ppv_value _ _ _ HD). change (inject_Z 1) with 1%Q.
    destruct (Hpos HD) as (HD' & He1 & He2).
    destruct (readout_accuracy_aux ds dc dp Ps Pc Pp Hnormal HD')
      as (n & Hn0 & Efmt & Hacc).
    exists n. split; [exact Hn0 |]. split; [exact Efmt |].
    apply Qabs_Qle_condition in Hacc as [Ha1 Ha2].
    set (E := (s * p / (s * p + (1 - c) * (1 - p)))%Q) in *.
    set (E' := (B2Q ds * B2Q dp
                / (B2Q ds * B2Q dp + (1 - B2Q dc) * (1 - B2Q dp)))%Q) in *.
    assert (HE0 : (0 <= E)%Q) by (apply Qle_shift_div_l; lra).
    assert (HE1 : (E <= 1)%Q) by (apply Qle_shift_div_r; lra).
    apply Qabs_Qle_condition. split; lra.
  - rewrite exact_ppv_undefined by lra.
    apply probability_spec in Ps as [Ps Ps1].
    apply probability_spec in Pc as [Pc Pc1].
    apply probability_spec in Pp as [Pp Pp1].
    destruct (ppv_close ds dc dp Ps Ps1 Pc Pc1 Pp Pp1 Hnormal) as [Hnan _].
    cbv zeta in Hnan. rewrite Hnan; [reflexivity |]. apply Hzero. lra.
Qed.

(** X20: from the percentages in the store to the readout.  When each of
    the three percentages is on the scale of the controls (0, 100, or a
    double from 0.1 to 99.9), the readout is "n/a" exactly when the formula,
    evaluated without rounding on the percentages over 100, is undefined;
    otherwise it is a non-negative numeral with two decimals whose
    hundredths [n] differ from ten thousand times the exact value by at most
    [1/2 + 2^-26].  The divisions by 100, the six roundings of the
    evaluator, the multiplication by 100 and [toFixed(2)] together cost
    less than 0.00000002 of a percentage point over rounding the exact
    value. *)
Theorem App_readout_exact (st : params number) :
  all_on_scale st = true ->
  let s := (B2Q (sensitivityPct st) / 100)%Q in
  let c := (B2Q (specificityPct st) / 100)%Q in
  let p := (B2Q (prevalencePct st) / 100)%Q in
  match ppv (T := Exact.number) (Some s) (Some c) (Some p) with
  | None => readout (App_view st) = "n/a"
  | Some v =>
      exists n,
        0 <= n /\
        readout (App_view st) = render2 false n /\
        (Qabs (inject_Z n - 10000 * v) <= (1 # 2) + (1 # 67108864))%Q
  end.
Proof. exact (App_readout_exact_aux st). Qed.

Lemma App_readout_exact_witness :
  let st := initial (T := number) in
  let s := (B2Q (sensitivityPct st) / 100)%Q in
  let c := (B2Q (specificityPct st) / 100)%Q in
  let p := (B2Q (prevalencePct st) / 100)%Q in
  match ppv (T := Exact.number) (Some s) (Some c) (Some p) with
  | None => readout (App_view st) = "n/a"
  | Some v =>
      exists n,
        0 <= n /\
        readout (App_view st) = render2 false n /\
        (Qabs (inject_Z n - 10000 * v) <= (1 # 2) + (1 # 67108864))%Q
  end.
Proof. cbv zeta. apply App_readout_exact. vm_compute. reflexivity. Defined.

(** Every position of a slider is on the scale. *)
Lemma slider_on_scale :
  forallb (fun k => on_scale (div (lit k) (lit 10)))
          (map Z.of_nat (seq 0 1001)) = true.
Proof. vm_compute. reflexivity. Qed.

(** ** How far the counts are from the exact products *)

(** [Math.round] of a non-negative double is the integer nearest to it,
    the larger one of two. *)
Lemma round_nearest x :
  nonneg_fin x ->
  exists n,
    holds (round x) n /\
    (inject_Z n - (1 # 2) <= B2Q x)%Q /\ (B2Q x < inject_Z n + (1 # 2))%Q.
Proof.
  intros Hx.
  destruct x as [s | s | | [|] m e]; cbn [nonneg_fin] in Hx; try contradiction.
  - exists 0. cbn [round B2Q]. split; [repeat split; lia |].
    change (inject_Z 0) with 0%Q. split; lra.
  - cbn [round]. destruct (Z.leb_spec 0 e) as [Hpos | Hneg].
    + pos_pow2 e.
      assert (Hv : (F (Zpos m) e == inject_Z (Zpos m * 2 ^ e))%Q).
      { rewrite <- F_int, F_shift by lia. reflexivity. }
      exists (Zpos m * 2 ^ e). rewrite B2Q_finite_pos. split.
      * split; [exact Hx |]. split; [nia |]. rewrite B2Q_finite_pos. exact Hv.
      * rewrite Hv. split; lra.
    + cbn [cond_Zopp]. set (k := - e) in *.
      assert (Hk : 0 < k) by (unfold k; lia).
      assert (Hp : 0 < 2 ^ k) by (apply Z.pow_pos_nonneg; lia).
      assert (Hp2 : 2 ^ (k + 1) = 2 * 2 ^ k)
        by (rewrite Z.pow_add_r by lia; change (2 ^ 1) with 2; ring).
      assert (Hk2 : 2 <= 2 ^ k).
      { replace k with (1 + (k - 1)) by lia. rewrite Z.pow_add_r by lia.
        pos_pow2 (k - 1). change (2 ^ 1) with 2. lia. }
      set (n := (2 * Zpos m + 2 ^ k) / 2 ^ (k + 1)).
      assert (En : n = fixed_n 0 m e).
      { unfold fixed_n, n. destruct (Z.leb_spec 0 e) as [| _]; [lia |].
        change (10 ^ Z.of_nat 0) with 1. fold k. f_equal; lia. }
      pose proof (fixed_n_nearest_any 0 m e) as Hnear. cbv zeta in Hnear.
      rewrite <- En in Hnear. change (inject_Z (10 ^ Z.of_nat 0)) with 1%Q in Hnear.
      assert (Hn0 : 0 <= n) by (apply Z.div_pos; lia).
      assert (Hn53 : n <= 2 ^ 53).
      { apply bounded_spec in Hx as (_ & Hm & _).
        assert (n < 2 ^ 53 + 1); [| lia].
        apply Z.div_lt_upper_bound; [lia |]. rewrite Hp2. nia. }
      exists n. rewrite B2Q_finite_pos. split.
      * destruct (Z.eqb_spec n 0) as [E0 | Hnz];
          [rewrite E0; repeat split; lia | apply of_Z_exact; lia].
      * split; lra.
Qed.

(** One rounded count of the projector: the group [d] holds [nd] people,
    [f'] is the rate as a double and [x] the exact rate. *)
Lemma count_accuracy d nd f x :
  holds d nd -> nd <= 10000 ->
  nonneg_fin f -> (B2Q f <= 1)%Q -> (0 <= x)%Q -> (x <= 1)%Q ->
  ((1 - (1 # 4503599627370496)) * x <= B2Q f)%Q ->
  (B2Q f <= (1 + (1 # 4503599627370496)) * x)%Q ->
  (B2Q f == 0)%Q \/ ((1 # 2000) <= B2Q f)%Q ->
  exists n,
    holds (round (SFmul prec emax d f)) n /\
    (Qabs (inject_Z n - inject_Z nd * x) <= (1 # 2) + (1 # 68719476736))%Q.
Proof.
  intros (Hd & Hnd & Vd) Hnd4 Hf Hf1' Hx0 Hx1 Hf1 Hf2 Hfz.
  pose proof (B2Q_nonneg f Hf) as Hf0.
  assert (Hq0 : (0 <= inject_Z nd)%Q) by (apply (proj2 (inj_le 0 nd)); exact Hnd).
  assert (Hq4 : (inject_Z nd <= 10000)%Q)
    by (apply (proj2 (inj_le nd 10000)); exact Hnd4).
  set (W := (inject_Z nd * x)%Q).
  set (X := (B2Q d * B2Q f)%Q).
  assert (HW0 : (0 <= W)%Q) by (apply Qmult_le_0_compat; assumption).
  assert (HW4 : (W <= 10000)%Q).
  { assert (W <= 10000 * 1)%Q; [| lra].
    apply Qmult_le_compat_nonneg; split; assumption. }
  assert (HX1 : ((1 - (1 # 4503599627370496)) * W <= X)%Q).
  { unfold X, W. rewrite Vd.
    apply Qle_trans with (inject_Z nd * ((1 - (1 # 4503599627370496)) * x))%Q.
    - apply Qle_lteq. right. ring.
    - apply Qmult_le_compat_nonneg; split; lra. }
  assert (HX2 : (X <= (1 + (1 # 4503599627370496)) * W)%Q).
  { unfold X, W. rewrite Vd.
    apply Qle_trans with (inject_Z nd * ((1 + (1 # 4503599627370496)) * x))%Q.
    - apply Qmult_le_compat_nonneg; split; lra.
    - apply Qle_lteq. right. ring. }
  assert (HF : Faithful X (SFmul prec emax d f)).
  { apply SFmul_faithful; try assumption. exists d. split; [exact Hd |].
    unfold X. pose proof (B2Q_nonneg d Hd).
    assert (B2Q d * B2Q f <= B2Q d * 1)%Q; [| lra].
    apply Qmult_le_compat_nonneg; split; lra. }
  assert (Hz : (X == 0)%Q \/ (pow2 (-1022) <= X)%Q).
  { destruct (Z.eq_dec nd 0) as [E0 | Hnz].
    - left. unfold X. rewrite Vd, E0. ring.
    - destruct Hfz as [E | Hge]; [left; unfold X; rewrite E; ring | right].
      assert (Psmall : (pow2 (-1022) <= 1 * (1 # 2000))%Q)
        by (vm_compute; discriminate).
      apply Qle_trans with (1 * (1 # 2000))%Q; [exact Psmall |].
      unfold X. rewrite Vd. apply Qmult_le_compat_nonneg; split; try lra.
      apply (proj2 (inj_le 1 nd)). lia. }
  assert (Pbig : (20000 <= pow2 1022)%Q) by (vm_compute; discriminate).
  destruct (Faithful_rel_normal _ _ HF Hz ltac:(lra)) as [Hm1 Hm2].
  destruct (round_nearest (SFmul prec emax d f) ltac:(apply HF))
    as (n & Hn & Hn1 & Hn2).
  exists n. split; [exact Hn |].
  apply Qabs_Qle_condition. split; lra.
Qed.

Lemma holds_unique x n n' : holds x n -> holds x n' -> n = n'.
Proof.
  intros (_ & _ & V) (_ & _ & V'). rewrite V in V'.
  apply Z.le_antisymm; apply inj_le; rewrite V'; apply Qle_refl.
Qed.

(** What [count_accuracy] asks of a fraction of the scale. *)
Lemma scale_rate v :
  on_scale v = true ->
  let x := (B2Q v / 100)%Q in
  let f := div v (lit 100) in
  probability f = true /\ nonneg_fin f /\ (B2Q f <= 1)%Q /\
  (0 <= x)%Q /\ (x <= 1)%Q /\
  ((1 - (1 # 4503599627370496)) * x <= B2Q f)%Q /\
  (B2Q f <= (1 + (1 # 4503599627370496)) * x)%Q /\
  ((B2Q f == 0)%Q \/ ((1 # 2000) <= B2Q f)%Q).
Proof.
  intros Hv x f. subst x f.
  destruct (scale_fraction v Hv) as (Pf & Hx0 & Hx1 & Hf0 & Hlo & Hhi & _ & _ & Hz).
  cbv zeta in *. pose proof Pf as [Hf Hf1]%probability_spec.
  do 3 (split; [assumption |]). do 4 (split; [assumption |]).
  destruct Hz as [E | Hge]; [left | right; lra].
  rewrite E in Hlo, Hhi. lra.
Qed.

Lemma App_cells_accuracy_aux (st : params number) :
  all_on_scale st = true ->
  let s := (B2Q (sensitivityPct st) / 100)%Q in
  let c := (B2Q (specificityPct st) / 100)%Q in
  let p := (B2Q (prevalencePct st) / 100)%Q in
  let cs := App_cells st in
  let d := (B2Q (TP cs) + B2Q (FN cs))%Q in
  let h := (B2Q (TN cs) + B2Q (FP cs))%Q in
  (d + h == 10000)%Q /\
  (Qabs (d - 10000 * p) <= (1 # 2) + (1 # 68719476736))%Q /\
  (Qabs (B2Q (TP cs) - d * s) <= (1 # 2) + (1 # 68719476736))%Q /\
  (Qabs (B2Q (TN cs) - h * c) <= (1 # 2) + (1 # 68719476736))%Q.
Proof.
  intros Hst s c p cs d h. unfold all_on_scale in Hst.
  rewrite !andb_true_iff in Hst. destruct Hst as [[HS HC] HP].
  destruct (scale_rate _ HS) as (Ps & Hsn & Hs1' & Hs0 & Hs1 & Hslo & Hshi & Hsz).
  destruct (scale_rate _ HC) as (Pc & Hcn & Hc1' & Hc0 & Hc1 & Hclo & Hchi & Hcz).
  destruct (scale_rate _ HP) as (Pp & Hpn & Hp1' & Hp0 & Hp1 & Hplo & Hphi & Hpz).
  cbv zeta in *. fold s in Hs0, Hs1, Hslo, Hshi. fold c in Hc0, Hc1, Hclo, Hchi.
  fold p in Hp0, Hp1, Hplo, Hphi.
  fold (sensitivity st) in *. fold (specificity st) in *. fold (prevalence st) in *.
  subst d h cs. unfold App_cells, ConfusionOutline.
  cbn [TP FN TN FP mul sub Math_round binary64_arith].
  set (ds := sensitivity st) in *. set (dc := specificity st) in *.
  set (dp := prevalence st) in *.
  pose proof holds_10000 as HN.
  destruct (group_cells _ dp 10000 HN Hpn Hp1') as (nd & nh & Hd & Hh & Hdle & Edh).
  specialize (Edh ltac:(pos_pow2 53; lia)).
  pose proof Hd as (_ & Hnd0 & Vd). pose proof Hh as (_ & Hnh0 & Vh).
  destruct (group_cells _ ds nd Hd Hsn Hs1') as (nt & nfn & Ht & Hfn & _ & Et).
  destruct (group_cells _ dc nh Hh Hcn Hc1') as (nu & nfp & Hu & Hfp & _ & Eu).
  specialize (Et ltac:(pos_pow2 53; lia)). specialize (Eu ltac:(pos_pow2 53; lia)).
  destruct (count_accuracy _ 10000 dp p HN ltac:(lia) Hpn Hp1' Hp0 Hp1 Hplo Hphi Hpz)
    as (nd' & Hd' & Ad).
  rewrite <- (holds_unique _ _ _ Hd Hd') in Ad.
  destruct (count_accuracy _ nd ds s Hd ltac:(lia) Hsn Hs1' Hs0 Hs1 Hslo Hshi Hsz)
    as (nt' & Ht' & At).
  rewrite <- (holds_unique _ _ _ Ht Ht') in At.
  destruct (count_accuracy _ nh dc c Hh ltac:(lia) Hcn Hc1' Hc0 Hc1 Hclo Hchi Hcz)
    as (nu' & Hu' & Au).
  rewrite <- (holds_unique _ _ _ Hu Hu') in Au.
  destruct Ht as (_ & _ & Vt). destruct Hfn as (_ & _ & Vfn).
  destruct Hu as (_ & _ & Vu). destruct Hfp as (_ & _ & Vfp).
  rewrite Vt, Vfn, Vu, Vfp, <- !inject_Z_plus, Et, Eu.
  change (inject_Z 10000) with 10000%Q in Ad.
  split; [| split; [exact Ad | split; [exact At | exact Au]]].
  rewrite Edh. reflexivity.
Qed.

(** X21: from the percentages in the store to the counts.  When each of
    the three percentages is on the scale of the controls, with [s], [c]
    and [p] the percentages over 100, [d = TP + FN] the diseased and
    [h = TN + FP] the healthy among the 10,000 people: [d + h] is 10000,
    [d] is within [1/2 + 2^-36] of [10000 * p], TP is within [1/2 + 2^-36]
    of [d * s], and TN is within [1/2 + 2^-36] of [h * c].  Each rounded
    count is the exact product rounded, up to the 2^-36. *)
Theorem App_cells_accuracy (st : params number) :
  all_on_scale st = true ->
  let s := (B2Q (sensitivityPct st) / 100)%Q in
  let c := (B2Q (specificityPct st) / 100)%Q in
  let p := (B2Q (prevalencePct st) / 100)%Q in
  let cs := App_cells st in
  let d := (B2Q (TP cs) + B2Q (FN cs))%Q in
  let h := (B2Q (TN cs) + B2Q (FP cs))%Q in
  (d + h == 10000)%Q /\
  (Qabs (d - 10000 * p) <= (1 # 2) + (1 # 68719476736))%Q /\
  (Qabs (B2Q (TP cs) - d * s) <= (1 # 2) + (1 # 68719476736))%Q /\
  (Qabs (B2Q (TN cs) - h * c) <= (1 # 2) + (1 # 68719476736))%Q.
Proof. exact (App_cells_accuracy_aux st). Qed.

Lemma App_cells_accuracy_witness :
  let st := initial (T := number) in
  let s := (B2Q (sensitivityPct st) / 100)%Q in
  let c := (B2Q (specificityPct st) / 100)%Q in
  let p := (B2Q (prevalencePct st) / 100)%Q in
  let cs := App_cells st in
  let d := (B2Q (TP cs) + B2Q (FN cs))%Q in
  let h := (B2Q (TN cs) + B2Q (FP cs))%Q in
  (d + h == 10000)%Q /\
  (Qabs (d - 10000 * p) <= (1 # 2) + (1 # 68719476736))%Q /\
  (Qabs (B2Q (TP cs) - d * s) <= (1 # 2) + (1 # 68719476736))%Q /\
  (Qabs (B2Q (TN cs) - h * c) <= (1 # 2) + (1 # 68719476736))%Q.
Proof. cbv zeta. apply App_cells_accuracy. vm_compute. reflexivity. Defined.
